(** * TDS Virtual TA: the retrieval-augmented knowledge pipeline

    A shallow embedding of the ingestion script [base_creation_test.py]
    (segmenter, embedding adapter, course front matter) and of the query
    service [virtual_ta_api.py] (similarity ranking, answer parsing), with
    the properties their specification states about them; and of the
    repair of the forum addresses, [updatelinks.py], and the completion of
    a downloaded topic, [discourse_by_date_range.py], with further
    properties of the code.

    Conventions of the embedding.
    - A Python [str] is a [string] whose characters are the code points
      below 256; the character classes ([isspace], [isdigit], line
      boundaries) are Python's, restricted to that range.
    - A Python [int] is a [Z]; a [float] (numpy [float64]) is a primitive
      binary64 [float].
    - A call that may raise returns a [res]; remote services are functions
      handed to the code that calls them. *)

From Stdlib Require Import ZArith List Bool Lia Ascii String.
From Stdlib Require Import Floats DecimalString DecimalPos Sorted Permutation.
Import ListNotations.

Local Open Scope Z_scope.

(** ** Results of calls that may raise *)

Inductive exn : Type :=
| AttributeError
| ValueError
| TypeError
| IndexError
| KeyError
| JSONDecodeError
| OverflowError
| IntegrityError
| APIError (detail : string)
| HTTPException (status_code : Z) (detail : string).

Inductive res (A : Type) : Type :=
| Ok (a : A)
| Raise (e : exn).

Arguments Ok {A} a.
Arguments Raise {A} e.

Definition bind {A B : Type} (m : res A) (f : A -> res B) : res B :=
  match m with
  | Ok a => f a
  | Raise e => Raise e
  end.

Notation "x <- m ;; k" := (bind m (fun x => k))
  (at level 61, m at next level, right associativity).

(** Code that also changes a state [S] (the database connection, the log
    of remote calls): the state is threaded through, and kept when the
    code raises. *)
Definition SM (S A : Type) : Type := S -> res A * S.

Definition ret {S A : Type} (a : A) : SM S A := fun s => (Ok a, s).

Definition throw {S A : Type} (e : exn) : SM S A := fun s => (Raise e, s).

Definition lift {S A : Type} (m : res A) : SM S A := fun s => (m, s).

Definition bnd {S A B : Type} (m : SM S A) (f : A -> SM S B) : SM S B :=
  fun s =>
    match m s with
    | (Ok a, s') => f a s'
    | (Raise e, s') => (Raise e, s')
    end.

Notation "x <~ m ;; k" := (bnd m (fun x => k))
  (at level 61, m at next level, right associativity).

(** ** Python string operations *)

Module PyStr.

Local Open Scope string_scope.

Definition truthy (s : string) : bool :=
  match s with
  | EmptyString => false
  | String _ _ => true
  end.

Definition len (s : string) : Z := Z.of_nat (String.length s).

(** [str.isspace] on one character. *)
Definition isspace (c : ascii) : bool :=
  let n := N_of_ascii c in
  (((9 <=? n) && (n <=? 13)) || ((28 <=? n) && (n <=? 32))
   || (n =? 133) || (n =? 160))%N.

(** Membership of a character in the argument of [strip(chars)]. *)
Fixpoint mem (c : ascii) (chars : string) : bool :=
  match chars with
  | EmptyString => false
  | String d chars' => Ascii.eqb c d || mem c chars'
  end.

Fixpoint lstrip_by (p : ascii -> bool) (s : string) : string :=
  match s with
  | EmptyString => EmptyString
  | String c s' => if p c then lstrip_by p s' else s
  end.

Fixpoint rstrip_by (p : ascii -> bool) (s : string) : string :=
  match s with
  | EmptyString => EmptyString
  | String c s' =>
      match rstrip_by p s' with
      | EmptyString => if p c then EmptyString else String c EmptyString
      | r => String c r
      end
  end.

Definition strip_by (p : ascii -> bool) (s : string) : string :=
  rstrip_by p (lstrip_by p s).

(** [s.strip()], [s.strip(chars)] and [s.rstrip(chars)]. *)
Definition strip (s : string) : string := strip_by isspace s.
Definition strip_chars (chars s : string) : string :=
  strip_by (fun c => mem c chars) s.
Definition rstrip_chars (chars s : string) : string :=
  rstrip_by (fun c => mem c chars) s.

Fixpoint take (n : nat) (s : string) : string :=
  match n, s with
  | S n', String c s' => String c (take n' s')
  | _, _ => EmptyString
  end.

Fixpoint drop (n : nat) (s : string) : string :=
  match n, s with
  | S n', String _ s' => drop n' s'
  | _, _ => s
  end.

(** An index of a slice, brought into [0 .. len s] the way Python does:
    a negative index counts from the end. *)
Definition clamp (n i : Z) : Z :=
  (if i <? 0 then Z.max (i + n) 0 else Z.min i n)%Z.

(** [s[start:stop]]. *)
Definition slice (s : string) (start stop : Z) : string :=
  let lo := clamp (len s) start in
  let hi := clamp (len s) stop in
  take (Z.to_nat (hi - lo)%Z) (drop (Z.to_nat lo) s).

(** [s.startswith(p)]. *)
Fixpoint startswith (p s : string) : bool :=
  match p, s with
  | EmptyString, _ => true
  | String a p', String b s' => Ascii.eqb a b && startswith p' s'
  | String _ _, EmptyString => false
  end.

(** [s.split(sep, 1)] for a non-empty [sep]: the text before the first
    occurrence of [sep] and the text after it, or [None] when [sep] does
    not occur (Python then returns the one-element list [[s]]). *)
Fixpoint split_once (sep s : string) : option (string * string) :=
  if startswith sep s then Some (EmptyString, drop (String.length sep) s)
  else
    match s with
    | EmptyString => None
    | String c s' =>
        match split_once sep s' with
        | Some (a, b) => Some (String c a, b)
        | None => None
        end
    end.

(** [sep in s]. *)
Definition contains (sep s : string) : bool :=
  match split_once sep s with
  | Some _ => true
  | None => false
  end.

(** [s.split(sep)[-1]] for a one-character [sep]: the text after the last
    occurrence of [sep], all of [s] when there is none. *)
Fixpoint last_segment (sep : ascii) (s : string) : string :=
  match s with
  | EmptyString => EmptyString
  | String c s' =>
      if Ascii.eqb c sep then last_segment sep s'
      else if mem sep s' then last_segment sep s'
      else s
  end.

(** Whether every character of [s] satisfies [p]. *)
Fixpoint all (p : ascii -> bool) (s : string) : bool :=
  match s with
  | EmptyString => true
  | String c s' => p c && all p s'
  end.

(** The line boundaries of [str.splitlines]. *)
Definition is_linebreak (c : ascii) : bool :=
  let n := N_of_ascii c in
  (((10 <=? n) && (n <=? 13)) || ((28 <=? n) && (n <=? 30)) || (n =? 133))%N.

Definition is_cr (c : ascii) : bool := (N_of_ascii c =? 13)%N.
Definition is_lf (c : ascii) : bool := (N_of_ascii c =? 10)%N.

(** [s.splitlines()]; [after_cr] tells that the character before was a
    carriage return, which takes a following line feed with it. *)
Fixpoint splitlines_from (after_cr : bool) (s : string) : list string :=
  match s with
  | EmptyString => []
  | String c s' =>
      if after_cr && is_lf c then splitlines_from false s'
      else if is_linebreak c then EmptyString :: splitlines_from (is_cr c) s'
      else
        match splitlines_from false s' with
        | [] => [String c EmptyString]
        | l :: ls => String c l :: ls
        end
  end.

Definition splitlines (s : string) : list string := splitlines_from false s.

Definition is_ascii_digit (c : ascii) : bool :=
  let n := N_of_ascii c in ((48 <=? n) && (n <=? 57))%N.

(** [str.isdigit] on one character: the decimal digits and the superscript
    digits two, three and one. *)
Definition isdigit_char (c : ascii) : bool :=
  let n := N_of_ascii c in
  (is_ascii_digit c || (n =? 178) || (n =? 179) || (n =? 185))%N.

(** [s.isdigit()]. *)
Definition isdigit (s : string) : bool := truthy s && all isdigit_char s.

Fixpoint int_digits (acc : Z) (s : string) : res Z :=
  match s with
  | EmptyString => Ok acc
  | String c s' =>
      if is_ascii_digit c
      then int_digits (10 * acc + (Z.of_N (N_of_ascii c) - 48))%Z s'
      else Raise ValueError
  end.

(** [int(s)] for a string of digit characters, the only strings the code
    converts: a superscript digit is no decimal digit, and [int] raises.
    The bound CPython puts on the number of digits is not modelled. *)
Definition int (s : string) : res Z :=
  if truthy s then int_digits 0 s else Raise ValueError.

(** [str(n)] for an integer. *)
Definition str (n : Z) : string := NilZero.string_of_int (Z.to_int n).

(** The double quote character, as a string. *)
Definition dquote : string := String (ascii_of_nat 34) EmptyString.

End PyStr.

(** ** The segmenter: [chunk_text] *)

Module Segmenter.

Import PyStr.

Definition CHUNK_SIZE : Z := 750.
Definition CHUNK_OVERLAP : Z := 70.

(** The [while] loop of [chunk_text], [fuel] iterations of it at most:
    [None] when the loop is still running after them. *)
Fixpoint chunk_loop (fuel : nat) (text : string) (chunk_size overlap : Z)
  (start : Z) (chunks : list string) : option (list string) :=
  match fuel with
  | O => None
  | S fuel' =>
      if start <? len text then
        let end_ := start + chunk_size in
        let chunk := strip (slice text start end_) in
        let chunks' := if truthy chunk then chunks ++ [chunk] else chunks in
        chunk_loop fuel' text chunk_size overlap
          (start + (chunk_size - overlap)) chunks'
      else Some chunks
  end.

Definition chunk_text (fuel : nat) (text : string) (chunk_size overlap : Z)
  : option (list string) :=
  chunk_loop fuel text chunk_size overlap 0 [].

(** The window that starts at [i * (L - O)], untrimmed. *)
Definition window (text : string) (L O : Z) (i : nat) : string :=
  slice text (Z.of_nat i * (L - O)) (Z.of_nat i * (L - O) + L).

(** How many windows start inside the text: the least [k] with
    [k * (L - O) >= len text]. *)
Definition nwindows (text : string) (L O : Z) : nat :=
  Z.to_nat ((len text + (L - O) - 1) / (L - O)).

Definition windows (text : string) (L O : Z) : list string :=
  map (window text L O) (seq 0 (nwindows text L O)).

End Segmenter.

(** ** The embedding provider adapter: [embed] *)

Module Embedding.

Definition vector : Type := list float.

(** One element of [response.data]. *)
Record item : Type := { index : Z; embedding : vector }.

(** [client.embeddings.create(model=..., input=texts)]: it raises, or
    answers with [response.data]. *)
Definition provider : Type := list string -> res (list item).

Definition embed (create : provider) (texts : list string)
  : res (list vector) :=
  response_data <- create texts ;;
  Ok (map embedding response_data).

End Embedding.

(** ** Ingestion: the chunk store and the two document processors *)

Module Ingest.

Import PyStr Embedding.

(** The embedding column holds JSON text. The model keeps what the reader
    makes of it: the vector that [json.dumps] wrote, or text from which
    [json.loads] and [len] get no vector. *)
Inductive stored : Type :=
| Encoded (v : vector)
| Malformed.

Record forum_row : Type := {
  f_chunk_id : string;
  f_post_id : Z;
  f_post_number : Z;
  f_topic_id : Z;
  f_topic_title : string;
  f_author : string;
  f_url : option string;
  f_text : string;
  f_embedding : stored
}.

Record course_row : Type := {
  c_chunk_id : string;
  c_source_file : string;
  c_section_title : string;
  c_url : option string;
  c_text : string;
  c_embedding : stored
}.

(** The connection: the two tables in insertion order, and how many
    identifiers [uuid.uuid4] has handed out. *)
Record conn : Type := {
  forum_chunks : list forum_row;
  course_chunks : list course_row;
  uuids_drawn : nat
}.

Definition empty_db : conn :=
  {| forum_chunks := []; course_chunks := []; uuids_drawn := 0 |}.

(** [create_db()]: both tables are dropped and created anew. *)
Definition create_db : conn := empty_db.

Record post : Type := {
  post_id : Z;
  post_number : Z;
  topic_id : Z;
  topic_title : string;
  author : string;
  content : string
}.

(** The integers an [INTEGER] column of SQLite takes. *)
Definition fits_int64 (n : Z) : bool :=
  (- 2 ^ 63 <=? n) && (n <=? 2 ^ 63 - 1).

(** [chunk_text(text)] with the default window and overlap. The loop ends
    within [len(text) + 1] iterations ([Segmenter] proves it), so the
    branch for a loop still running is never taken. *)
Definition chunk_text_default (text : string) : list string :=
  match Segmenter.chunk_text (S (String.length text)) text
          Segmenter.CHUNK_SIZE Segmenter.CHUNK_OVERLAP with
  | Some chunks => chunks
  | None => []
  end.

Section Processors.

(** The services the script calls: the embedding provider and the source
    of random identifiers. *)
Variable create : provider.
Variable uuid4 : nat -> string.

(** The connection after [uuid.uuid4()] was called once more and nothing
    was inserted. *)
Definition drawn (c : conn) : conn :=
  {| forum_chunks := forum_chunks c;
     course_chunks := course_chunks c;
     uuids_drawn := S (uuids_drawn c) |}.

(** [INSERT INTO forum_chunks VALUES (...)]. The values are computed
    first, the identifier among them, so an insertion that is refused has
    drawn its identifier. The module [sqlite3] refuses an integer outside
    the 64-bit range with [OverflowError] when it binds the values, and the
    table refuses a second row with the same [chunk_id], its primary key,
    with [IntegrityError]. *)
Definition insert_forum (p : post) (chunk : string) (emb : vector)
  : SM conn unit :=
  fun c =>
    let chunk_id := uuid4 (uuids_drawn c) in
    if negb (fits_int64 (post_id p) && fits_int64 (post_number p)
             && fits_int64 (topic_id p))
    then (Raise OverflowError, drawn c)
    else if existsb (String.eqb chunk_id) (map f_chunk_id (forum_chunks c))
    then (Raise IntegrityError, drawn c)
    else
      (Ok tt,
       {| forum_chunks := forum_chunks c ++
            [{| f_chunk_id := chunk_id;
                f_post_id := post_id p;
                f_post_number := post_number p;
                f_topic_id := topic_id p;
                f_topic_title := topic_title p;
                f_author := author p;
                f_url := Some ("https://discourse.onlinedegree.iitm.ac.in/t/"
                                 ++ str (topic_id p) ++ "/"
                                 ++ str (post_number p))%string;
                f_text := chunk;
                f_embedding := Encoded emb |}];
          course_chunks := course_chunks c;
          uuids_drawn := S (uuids_drawn c) |}).

(** [INSERT INTO course_chunks VALUES (...)]: no integer among the values;
    a [chunk_id] that the table holds already is refused. *)
Definition insert_course (source_file section_title : string)
  (url : option string) (chunk : string) (emb : vector) : SM conn unit :=
  fun c =>
    let chunk_id := uuid4 (uuids_drawn c) in
    if existsb (String.eqb chunk_id) (map c_chunk_id (course_chunks c))
    then (Raise IntegrityError, drawn c)
    else
      (Ok tt,
       {| forum_chunks := forum_chunks c;
          course_chunks := course_chunks c ++
            [{| c_chunk_id := chunk_id;
                c_source_file := source_file;
                c_section_title := section_title;
                c_url := url;
                c_text := chunk;
                c_embedding := Encoded emb |}];
          uuids_drawn := S (uuids_drawn c) |}).

(** [for chunk, emb in zip(chunks, embeddings): insert(chunk, emb)]. *)
Fixpoint insert_all (insert : string -> vector -> SM conn unit)
  (pairs : list (string * vector)) : SM conn unit :=
  match pairs with
  | [] => ret tt
  | (chunk, emb) :: pairs' =>
      _ <~ insert chunk emb ;; insert_all insert pairs'
  end.

(** The body of the loop over the posts of [process_forum_json]. *)
Definition process_post (p : post) : SM conn unit :=
  let chunks := chunk_text_default (content p) in
  match chunks with
  | [] => ret tt
  | _ =>
      embeddings <~ lift (embed create chunks) ;;
      insert_all (insert_forum p) (combine chunks embeddings)
  end.

Fixpoint process_posts (posts : list post) : SM conn unit :=
  match posts with
  | [] => ret tt
  | p :: posts' => _ <~ process_post p ;; process_posts posts'
  end.

Definition process_forum_json (posts : list post) : SM conn unit :=
  process_posts posts.

(** The value of an [original_url] line: what follows its first colon,
    stripped of white space and then of double quotes. *)
Definition original_url_value (line : string) : res string :=
  match split_once ":" line with
  | Some (_, v) => Ok (strip_chars dquote (strip v))
  | None => Raise IndexError
  end.

(** The loop over [lines[1:]] that reads the front matter: the URL found so
    far, and the lines after the closing delimiter once it is met ([None]
    when the loop runs off the end and leaves [lines] as it was). *)
Fixpoint scan_front_matter (rest : list string) (url : option string)
  : res (option string * option (list string)) :=
  match rest with
  | [] => Ok (url, None)
  | line :: rest' =>
      if startswith "original_url:" (strip line) then
        v <- original_url_value line ;;
        scan_front_matter rest' (Some v)
      else if String.eqb (strip line) "---" then Ok (url, Some rest')
      else scan_front_matter rest' url
  end.

Definition front_matter (lines : list string)
  : res (option string * list string) :=
  match lines with
  | first :: rest =>
      if String.eqb (strip first) "---" then
        found <- scan_front_matter rest None ;;
        match found with
        | (url, Some body) => Ok (url, body)
        | (url, None) => Ok (url, lines)
        end
      else Ok (None, lines)
  | [] => Ok (None, lines)
  end.

(** The block under [if buffer.strip():], without the reset of the buffer. *)
Definition flush (source_file section_title : string) (url : option string)
  (buffer : string) : SM conn unit :=
  let chunks := chunk_text_default buffer in
  embeddings <~ lift (embed create chunks) ;;
  insert_all (insert_course source_file section_title url)
    (combine chunks embeddings).

(** The loop over the lines of the body, then the flush of what is left. *)
Fixpoint course_lines (source_file : string) (url : option string)
  (lines : list string) (section_title buffer : string) : SM conn unit :=
  match lines with
  | [] =>
      if truthy (strip buffer)
      then flush source_file section_title url buffer
      else ret tt
  | line :: lines' =>
      if startswith "#" (strip line) then
        let title := strip (strip_chars "# " line) in
        if truthy (strip buffer) then
          _ <~ flush source_file section_title url buffer ;;
          course_lines source_file url lines' title EmptyString
        else course_lines source_file url lines' title buffer
      else
        course_lines source_file url lines' section_title
          (buffer ++ line ++ String (ascii_of_nat 10) EmptyString)%string
  end.

(** [process_course_md] on the lines of the file. *)
Definition process_course_lines (filepath : string) (lines : list string)
  : SM conn unit :=
  found <~ lift (front_matter lines) ;;
  let '(url, body) := found in
  course_lines (last_segment "/" filepath) url body EmptyString EmptyString.

(** [process_course_md(filepath, conn)], [content] being the text of the
    file. *)
Definition process_course_md (filepath content : string) : SM conn unit :=
  process_course_lines filepath (splitlines content).

(** [main()], given the forum files (the posts of each) and the course
    files (path and text of each) in the order [os.listdir] lists them. An
    error of a processor is not caught: it ends the run. *)
Fixpoint process_forum_files (files : list (list post)) : SM conn unit :=
  match files with
  | [] => ret tt
  | posts :: files' =>
      _ <~ process_forum_json posts ;; process_forum_files files'
  end.

Fixpoint process_course_files (files : list (string * string))
  : SM conn unit :=
  match files with
  | [] => ret tt
  | (filepath, content) :: files' =>
      _ <~ process_course_md filepath content ;; process_course_files files'
  end.

Definition main (forum_files : list (list post))
  (course_files : list (string * string)) : res unit * conn :=
  (_ <~ process_forum_files forum_files ;;
   process_course_files course_files) create_db.

End Processors.

(** The front matter as the specification words it: a line of the block is
    a canonical-URL field when, trimmed, it starts with [original_url:];
    its value is what follows the first colon of the line, trimmed and
    with the double quotes around it removed; the block declares the value
    of its last such field. *)
Definition is_url_field (line : string) : bool :=
  startswith "original_url:" (strip line).

Definition after_colon (line : string) : string :=
  match split_once ":" line with
  | Some (_, v) => v
  | None => EmptyString
  end.

Definition field_value (line : string) : string :=
  strip_chars dquote (strip (after_colon line)).

Fixpoint declared_url (block : list string) : option string :=
  match block with
  | [] => None
  | line :: block' =>
      match declared_url block' with
      | Some u => Some u
      | None => if is_url_field line then Some (field_value line) else None
      end
  end.

Definition is_delimiter (line : string) : bool :=
  String.eqb (strip line) "---".

End Ingest.

(** ** The retrieval engine: [retrieve_similar_chunks] *)

Module Retrieval.

Import PyStr Embedding Ingest.

(** The binary64 nearest to 0.4. *)
Definition SIMILARITY_THRESHOLD : float := 0x1.999999999999ap-2%float.
Definition MAX_RESULTS : Z := 50.

(** [np.dot(a, b)] on vectors of one length, the products added from the
    first component on. NumPy hands long vectors to a BLAS routine, which
    is free to add the products in another order and then differs in the
    last bits; the order written here is that of the plain loop. *)
Definition dot (a b : vector) : float :=
  fold_left (fun acc xy => (acc + fst xy * snd xy)%float) (combine a b)
    0%float.

(** [np.linalg.norm(a)]. *)
Definition norm (a : vector) : float := PrimFloat.sqrt (dot a a).

Definition cosine_similarity (a b : vector) : float :=
  (dot a b / (norm a * norm b))%float.

(** The two tables the scan reads, in the order it reads them. *)
Inductive table : Type := forum_table | course_table.

Definition table_name (t : table) : string :=
  match t with
  | forum_table => "forum_chunks"
  | course_table => "course_chunks"
  end.

(** [table.replace("_chunks", "")] on the two names. *)
Definition source_of (t : table) : string :=
  match t with
  | forum_table => "forum"
  | course_table => "course"
  end.

(** A row of [SELECT url, text, embedding FROM table]. *)
Record row : Type := {
  row_url : option string;
  row_text : string;
  row_embedding : stored
}.

(** The rows of a table, in the order of their insertion. The connection
    is one to a database in which both tables exist, as [create_db]
    leaves it; on a file without them the [SELECT], which stands outside
    any [try], raises before a row is read. *)
Definition select (c : conn) (t : table) : list row :=
  match t with
  | forum_table =>
      map (fun r => {| row_url := f_url r; row_text := f_text r;
                       row_embedding := f_embedding r |}) (forum_chunks c)
  | course_table =>
      map (fun r => {| row_url := c_url r; row_text := c_text r;
                       row_embedding := c_embedding r |}) (course_chunks c)
  end.

(** An entry of [all_chunks]. *)
Record chunk : Type := {
  source : string;
  text : string;
  url : option string;
  similarity : float;
  post_number : Z
}.

Definition json_loads (e : stored) : res vector :=
  match e with
  | Encoded v => Ok v
  | Malformed => Raise JSONDecodeError
  end.

(** [url.rstrip("/").split("/")[-1]]; a [NULL] url is [None], which has no
    [rstrip]. *)
Definition trailing_segment (url : option string) : res string :=
  match url with
  | Some u => Ok (last_segment "/" (rstrip_chars "/" u))
  | None => Raise AttributeError
  end.

(** The value under ["post_number"]. *)
Definition tie_break_key (url : option string) : res Z :=
  seg <- trailing_segment url ;;
  if isdigit seg then int seg else Ok 0.

(** The body of the [try] block for one row: the entry it appends, if any. *)
Definition score_row (t : table) (question_embedding : vector) (r : row)
  : res (option chunk) :=
  emb <- json_loads (row_embedding r) ;;
  if negb (Nat.eqb (List.length emb) (List.length question_embedding))
  then Ok None
  else
    let similarity := cosine_similarity question_embedding emb in
    if (SIMILARITY_THRESHOLD <=? similarity)%float then
      key <- tie_break_key (row_url r) ;;
      Ok (Some {| source := source_of t; text := row_text r;
                  url := row_url r; similarity := similarity;
                  post_number := key |})
    else Ok None.

(** The inner [for] loop: a row whose block raises is skipped. *)
Fixpoint scan_rows (t : table) (question_embedding : vector)
  (rows : list row) (all_chunks : list chunk) : list chunk :=
  match rows with
  | [] => all_chunks
  | r :: rows' =>
      scan_rows t question_embedding rows'
        match score_row t question_embedding r with
        | Ok (Some c) => all_chunks ++ [c]
        | Ok None => all_chunks
        | Raise _ => all_chunks
        end
  end.

(** The outer loop over the two tables. *)
Definition scan_tables (c : conn) (question_embedding : vector)
  : list chunk :=
  fold_left
    (fun all_chunks t => scan_rows t question_embedding (select c t) all_chunks)
    [forum_table; course_table] [].

(** The sort key [(-x["similarity"], -x["post_number"])]. *)
Definition sort_key (x : chunk) : float * Z :=
  ((- similarity x)%float, (- post_number x)%Z).

(** [k1 < k2] on two such tuples: the first components decide unless they
    are equal. *)
Definition tuple_lt (k1 k2 : float * Z) : bool :=
  if (fst k1 =? fst k2)%float then (snd k1 <? snd k2)%Z
  else (fst k1 <? fst k2)%float.

Section Sorted.

Context {A K : Type} (key : A -> K) (lt : K -> K -> bool).

(** [sorted(l, key=key)]. Python's sort is stable and compares keys with
    [<] only; on keys that [<] orders totally its result is the one of
    this insertion sort, which puts an element before the first one of the
    sorted rest whose key is not smaller than its own. *)
Fixpoint insert (x : A) (l : list A) : list A :=
  match l with
  | [] => [x]
  | y :: l' => if lt (key y) (key x) then y :: insert x l' else x :: l
  end.

Fixpoint sorted (l : list A) : list A :=
  match l with
  | [] => []
  | x :: l' => insert x (sorted l')
  end.

End Sorted.

(** [l[:stop]] on a list. *)
Definition up_to {A : Type} (stop : Z) (l : list A) : list A :=
  firstn (Z.to_nat (clamp (Z.of_nat (List.length l)) stop)) l.

(** What [retrieve_similar_chunks] returns once the question is embedded. *)
Definition rank (c : conn) (question_embedding : vector) (top_k : Z)
  : list chunk :=
  up_to top_k (sorted sort_key tuple_lt (scan_tables c question_embedding)).

Definition retrieve_similar_chunks (get_embedding : string -> res vector)
  (c : conn) (question : string) (top_k : Z) : res (list chunk) :=
  question_embedding <- get_embedding question ;;
  Ok (rank c question_embedding top_k).

(** *** Notions the properties of the ranking are stated with *)

(** The comparison of two binary64 numbers, [None] when one is not a
    number. *)
Definition fcompare (a b : float) : option comparison :=
  SFcompare (Prim2SF a) (Prim2SF b).

(** The comparison of two sort keys, first components first. *)
Definition key_compare (k1 k2 : float * Z) : option comparison :=
  match fcompare (fst k1) (fst k2) with
  | Some Eq => Some (snd k1 ?= snd k2)
  | o => o
  end.

(** What two comparisons in a row, neither of them [Gt], add up to. *)
Definition follows (c1 c2 : comparison) : comparison :=
  match c1, c2 with
  | Eq, Eq => Eq
  | _, _ => Lt
  end.

(** A similarity that passed the test against the threshold. *)
Definition above_threshold (x : chunk) : Prop :=
  (SIMILARITY_THRESHOLD <=? similarity x)%float = true.

(** [x] may stand before [y] in a sorted list: the key of [y] is not
    smaller than the key of [x]. *)
Definition may_precede (x y : chunk) : Prop :=
  tuple_lt (sort_key y) (sort_key x) = false.

(** The entries one row contributes to [all_chunks]. *)
Definition entries (t : table) (question_embedding : vector) (r : row)
  : list chunk :=
  match score_row t question_embedding r with
  | Ok (Some c) => [c]
  | Ok None => []
  | Raise _ => []
  end.

(** [x] is fully tied with [x0]: equal similarity and equal tie-break key. *)
Definition tied (x0 x : chunk) : bool :=
  (similarity x =? similarity x0)%float && (post_number x =? post_number x0)%Z.

End Retrieval.

(** ** The regular expression of the citation lines *)

Module Regex.

Import PyStr.

(** The patterns the service uses are sequences of literals and of greedy
    repetitions of one character class, some of them capturing groups. *)
Inductive atom : Type :=
| Lit (s : string)
| Rep (cls : ascii -> bool) (least : nat) (group : bool).

Section Matcher.

Context {R : Type}.

(** A greedy repetition, by backtracking: take one more character of the
    class while there is one, and go on with the rest of the pattern, [k],
    at the longest run first; when [k] fails there, give the last character
    back and try again, down to [least] characters. [n] counts the
    characters taken and [acc] holds them. *)
Fixpoint rep (cls : ascii -> bool) (least : nat)
  (k : string -> string -> option R) (n : nat) (acc s : string)
  : option R :=
  let stop := if (least <=? n)%nat then k acc s else None in
  match s with
  | EmptyString => stop
  | String c s' =>
      if cls c then
        match rep cls least k (S n) (acc ++ String c EmptyString)%string s'
        with
        | Some r => Some r
        | None => stop
        end
      else stop
  end.

End Matcher.

(** A match of the pattern [p] at the start of [s]: the groups captured,
    in order after [caps], and the text left after the match. *)
Fixpoint match_here (p : list atom) (caps : list string) (s : string)
  : option (list string * string) :=
  match p with
  | [] => Some (caps, s)
  | Lit l :: p' =>
      if startswith l s then match_here p' caps (drop (String.length l) s)
      else None
  | Rep cls least group :: p' =>
      rep cls least
        (fun acc rest =>
           match_here p' (if group then caps ++ [acc] else caps) rest)
        0%nat EmptyString s
  end.

(** [re.finditer(p, s)], the groups of each match: the leftmost match, then
    the leftmost one in what follows it. The patterns here match no empty
    text, so [len(s) + 1] rounds reach the end of [s]. *)
Fixpoint finditer_from (fuel : nat) (p : list atom) (s : string)
  : list (list string) :=
  match fuel with
  | O => []
  | S fuel' =>
      match match_here p [] s with
      | Some (caps, rest) => caps :: finditer_from fuel' p rest
      | None =>
          match s with
          | EmptyString => []
          | String _ s' => finditer_from fuel' p s'
          end
      end
  end.

Definition finditer (p : list atom) (s : string) : list (list string) :=
  finditer_from (S (String.length s)) p s.

Definition nonspace (c : ascii) : bool := negb (isspace c).

(** What [.] matches: any character but the line feed. *)
Definition dot_char (c : ascii) : bool := negb (is_lf c).

(** The pattern of [re.finditer] in [query_virtual_ta]: the literal [URL:],
    any white space, a group of one or more characters that are not white
    space, a comma, any white space, the literal [Text:], any white space,
    and a group of any characters up to the end of the line. *)
Definition citation_pattern : list atom :=
  [Lit "URL:"; Rep isspace 0 false; Rep nonspace 1 true; Lit ",";
   Rep isspace 0 false; Lit "Text:"; Rep isspace 0 false;
   Rep dot_char 0 true].

End Regex.

(** ** The query endpoint: [query_virtual_ta] *)

Module Endpoint.

Import PyStr Embedding Ingest Retrieval Regex.

Local Open Scope string_scope.

Record QueryRequest : Type := { question : string; image : option string }.

Record Link : Type := { link_url : string; link_text : string }.

Record QueryResponse : Type := { answer : string; links : list Link }.

(** The response of the chat completion service, once its status line is
    received: the HTTP status; the text of the body, [await resp.text()],
    which raises when the body cannot be read or decoded; and
    [result["choices"][0]["message"]["content"]] of the body read as JSON
    by [await resp.json()], which raises when the body cannot be read, is
    no JSON or has no such entry, or holds there a value that is no string,
    on which the search for the sources raises. *)
Record completion : Type := {
  status : Z;
  body : res string;
  message_content : res string
}.

(** The remote services of the query path. The request to the completion
    service, [session.post], raises when no response arrives. *)
Record services : Type := {
  embeddings_create : string -> res vector;
  image_to_string : string -> res string;
  chat_completions : string -> res completion
}.

(** The calls a request makes, in the order it makes them. *)
Inductive call : Type :=
| EmbeddingCall (text : string)
| OcrCall (image_base64 : string)
| CompletionCall (prompt : string).

Definition log_call (c : call) : SM (list call) unit :=
  fun made => (Ok tt, (made ++ [c])%list).

Definition newline : string := String (ascii_of_nat 10) EmptyString.

Definition upper (c : ascii) : ascii :=
  let n := N_of_ascii c in
  if ((97 <=? n) && (n <=? 122))%N then ascii_of_N (n - 32) else c.

Definition lower (c : ascii) : ascii :=
  let n := N_of_ascii c in
  if ((65 <=? n) && (n <=? 90))%N then ascii_of_N (n + 32) else c.

Fixpoint map_chars (f : ascii -> ascii) (s : string) : string :=
  match s with
  | EmptyString => EmptyString
  | String c s' => String (f c) (map_chars f s')
  end.

(** [s.capitalize()], on the unaccented letters: the two table names are
    all it is applied to. *)
Definition capitalize (s : string) : string :=
  match s with
  | EmptyString => EmptyString
  | String c s' => String (upper c) (map_chars lower s')
  end.

(** [sep.join(l)]. *)
Fixpoint join (sep : string) (l : list string) : string :=
  match l with
  | [] => EmptyString
  | [x] => x
  | x :: l' => x ++ sep ++ join sep l'
  end.

(** How an f-string prints the url of a chunk. *)
Definition format_url (u : option string) : string :=
  match u with
  | Some u => u
  | None => "None"
  end.

Definition context_of (chunks : list chunk) : string :=
  join (newline ++ newline)
    (map (fun ch =>
            capitalize (source ch) ++ " (URL: " ++ format_url (url ch)
            ++ "): " ++ slice (text ch) 0 1500)
       chunks).

Definition prompt_of (question : string) (chunks : list chunk)
  (extracted_text : option string) : string :=
  let formatted_extracted_text :=
    match extracted_text with
    | Some t =>
        if truthy t
        then "OCR-extracted Text:" ++ newline ++ t ++ newline ++ newline
        else ""
    | None => ""
    end in
  "
You are not a conversational assistant. You are a compliance checker.

DO NOT answer based on general knowledge or what the user wants to hear.

ONLY answer based on the course materials provided below. Do NOT infer or inject anything. If the material does not clearly answer the question, reply with:

" ++ dquote ++ "I don't have enough information to answer this question."
  ++ dquote ++ "

---

" ++ formatted_extracted_text ++ "Context:
" ++ context_of chunks ++ "

---

User Question:
" ++ question ++ "

Based ONLY on the context above, what does the course recommend?

Format your response like this:

1. [Factual answer only]

Sources:
1. URL: [exact URL], Text: [short quote from that page]
2. URL: [exact URL], Text: [short quote from that page]
".

Section Service.

Variable sv : services.
Variable db : conn.

(** It never raises: a failure of the decoding or of the recognition gives
    the empty text. *)
Definition extract_text_from_base64_image (image_base64 : string)
  : SM (list call) string :=
  _ <~ log_call (OcrCall image_base64) ;;
  match image_to_string sv image_base64 with
  | Ok t => ret (strip t)
  | Raise _ => ret ""
  end.

(** [retrieve_similar_chunks(req.question)], with its call of the
    embedding service on record. *)
Definition retrieve (question : string) : SM (list call) (list chunk) :=
  _ <~ log_call (EmbeddingCall question) ;;
  lift (retrieve_similar_chunks (embeddings_create sv) db question
          MAX_RESULTS).

Definition generate_llm_answer (question : string) (chunks : list chunk)
  (extracted_text : option string) : SM (list call) string :=
  let prompt := prompt_of question chunks extracted_text in
  _ <~ log_call (CompletionCall prompt) ;;
  resp <~ lift (chat_completions sv prompt) ;;
  if negb (status resp =? 200)%Z
  then
    detail <~ lift (body resp) ;;
    throw (HTTPException (status resp) detail)
  else lift (message_content resp).

(** The groups of one match as a citation. *)
Definition link_of (groups : list string) : list Link :=
  match groups with
  | [u; t] => [{| link_url := strip u; link_text := strip t |}]
  | _ => []
  end.

Definition links_of (sources_part : string) : list Link :=
  flat_map link_of (finditer citation_pattern sources_part).

(** The part of [query_virtual_ta] after the model has answered. The test
    for the marker and the split at its first occurrence are one
    [split_once]. *)
Definition parse_response (llm_output : string) : QueryResponse :=
  let '(answer_part, sources_part) :=
    match split_once "Sources:" llm_output with
    | Some (a, b) => (a, b)
    | None => (llm_output, "")
    end in
  {| answer := strip answer_part; links := links_of sources_part |}.

Definition refusal : QueryResponse :=
  {| answer := "I couldn't find relevant content."; links := [] |}.

Definition query_virtual_ta (req : QueryRequest)
  : SM (list call) QueryResponse :=
  extracted_text <~
    match image req with
    | Some img =>
        if truthy img
        then t <~ extract_text_from_base64_image img ;; ret (Some t)
        else ret None
    | None => ret None
    end ;;
  chunks <~ retrieve (question req) ;;
  match chunks with
  | [] => ret refusal
  | _ :: _ =>
      llm_output <~ generate_llm_answer (question req) chunks extracted_text ;;
      ret (parse_response llm_output)
  end.

End Service.

(** *** The shape of a well-formed sources section *)

(** A line of the sources section: a citation line, made of some text
    without [URL:], the literal [URL:], white space, the URL, a comma,
    white space, the literal [Text:], white space and the quoted text; or
    another line, without [URL:]. *)
Inductive source_line : Type :=
| Cite (junk ws1 tok ws2 ws3 body : string)
| Other (text : string).

Definition render (l : source_line) : string :=
  match l with
  | Cite junk ws1 tok ws2 ws3 body =>
      junk ++ "URL:" ++ ws1 ++ tok ++ "," ++ ws2 ++ "Text:" ++ ws3 ++ body
  | Other text => text
  end.

(** The URL is a non-empty run of characters that are not white space, at
    least one white space follows the comma, and the quoted text starts
    with a character that is not white space and stays on the line. *)
Definition well_formed (l : source_line) : bool :=
  match l with
  | Cite junk ws1 tok ws2 ws3 body =>
      negb (contains "URL:" junk) && all isspace ws1
      && truthy tok && all nonspace tok
      && truthy ws2 && all isspace ws2 && all isspace ws3
      && match body with
         | String c _ => nonspace c
         | EmptyString => false
         end
      && all dot_char body
  | Other text => negb (contains "URL:" text)
  end.

Definition citation_of (l : source_line) : list Link :=
  match l with
  | Cite _ _ tok _ _ body => [{| link_url := tok; link_text := strip body |}]
  | Other _ => []
  end.

(** How many times a request called the generative model. *)
Definition completion_calls (made : list call) : nat :=
  List.length
    (filter (fun c => match c with CompletionCall _ => true | _ => false end)
       made).

End Endpoint.

(** ** The repair of the forum addresses: [updatelinks.py] *)

Module UpdateLinks.

Import PyStr Ingest.

Local Open Scope string_scope.

(** [s.split(sep)[1]] for a non-empty [sep]: the text between the first
    occurrence of [sep] and the next one, or the end; without an
    occurrence the list has one element and the index is out of range. *)
Definition second_piece (sep s : string) : res string :=
  match split_once sep s with
  | None => Raise IndexError
  | Some (_, rest) =>
      match split_once sep rest with
      | Some (piece, _) => Ok piece
      | None => Ok rest
      end
  end.

(** [s.split(sep)] for a one-character [sep]. *)
Fixpoint split (sep : ascii) (s : string) : list string :=
  match s with
  | EmptyString => [EmptyString]
  | String c s' =>
      if Ascii.eqb c sep then EmptyString :: split sep s'
      else
        match split sep s' with
        | piece :: pieces => String c piece :: pieces
        | [] => [String c EmptyString]
        end
  end.

(** [l[-k]] for [k >= 1]. *)
Definition from_end {A : Type} (l : list A) (k : nat) : res A :=
  match nth_error (rev l) (k - 1) with
  | Some x => Ok x
  | None => Raise IndexError
  end.

(** [s.rsplit(sep, 1)[0]] for a one-character [sep]: the text before the
    last occurrence of [sep], all of [s] when there is none. *)
Fixpoint rsplit_head (sep : ascii) (s : string) : string :=
  match s with
  | EmptyString => EmptyString
  | String c s' =>
      if mem sep s' then String c (rsplit_head sep s')
      else if Ascii.eqb c sep then EmptyString
      else s
  end.

(** [url_cache[key]], when [key in url_cache]. *)
Fixpoint lookup (key : string) (cache : list (string * string))
  : option string :=
  match cache with
  | [] => None
  | (k, v) :: cache' => if String.eqb key k then Some v else lookup key cache'
  end.

(** What a run of the script works on: the store, the cache of expanded
    addresses, and how many times it has asked for an expansion. *)
Record run : Type := {
  store : conn;
  url_cache : list (string * string);
  expansions : nat
}.

(** [UPDATE forum_chunks SET url = ? WHERE chunk_id = ?]. *)
Definition update_url (new_url chunk_id : string) (c : conn) : conn :=
  {| forum_chunks :=
       map (fun r =>
              if String.eqb (f_chunk_id r) chunk_id
              then {| f_chunk_id := f_chunk_id r;
                      f_post_id := f_post_id r;
                      f_post_number := f_post_number r;
                      f_topic_id := f_topic_id r;
                      f_topic_title := f_topic_title r;
                      f_author := f_author r;
                      f_url := Some new_url;
                      f_text := f_text r;
                      f_embedding := f_embedding r |}
              else r)
         (forum_chunks c);
     course_chunks := course_chunks c;
     uuids_drawn := uuids_drawn c |}.

(** The first statements of the [try] block: [None] for an address that
    has a dash after [/t/] and is passed over, else the topic and the post
    number read from the address. An address that is [NULL] has no
    [split]. *)
Definition topic_and_post (old_url : option string)
  : res (option (string * string)) :=
  match old_url with
  | None => Raise AttributeError
  | Some old =>
      piece <- second_piece "/t/" old ;;
      if mem "-" piece then Ok None
      else
        let parts := split "/" (strip_chars "/" old) in
        topic_id <- from_end parts 2 ;;
        post_number <- from_end parts 1 ;;
        Ok (Some (topic_id, post_number))
  end.

Definition topic_base_url (topic_id : string) : string :=
  "https://discourse.onlinedegree.iitm.ac.in/t/" ++ topic_id ++ "/1".

Section Fixer.

(** [link.expand_discourse_link], a function of another module: what it
    answers to the call number [n] for an address. *)
Variable expand_discourse_link : nat -> string -> res string.

(** The new address is written when it differs from the old one. *)
Definition write_url (old new_url chunk_id : string) (c : conn) : conn :=
  if String.eqb new_url old then c else update_url new_url chunk_id c.

(** The body of the loop over the rows; an exception ends the work on the
    row. *)
Definition fix_row (st : run) (r : string * option string) : run :=
  let '(chunk_id, old_url) := r in
  match old_url, topic_and_post old_url with
  | Some old, Ok (Some (topic_id, post_number)) =>
      match lookup (topic_base_url topic_id) (url_cache st) with
      | Some expanded_base =>
          {| store := write_url old (expanded_base ++ "/" ++ post_number)
                        chunk_id (store st);
             url_cache := url_cache st;
             expansions := expansions st |}
      | None =>
          match expand_discourse_link (expansions st)
                  (topic_base_url topic_id) with
          | Ok expanded_full_url =>
              let expanded_base := rsplit_head "/" expanded_full_url in
              {| store := write_url old (expanded_base ++ "/" ++ post_number)
                            chunk_id (store st);
                 url_cache := (url_cache st
                               ++ [(topic_base_url topic_id, expanded_base)])%list;
                 expansions := S (expansions st) |}
          | Raise _ =>
              {| store := store st;
                 url_cache := url_cache st;
                 expansions := S (expansions st) |}
          end
      end
  | _, _ => st
  end.

(** [fix_forum_urls()]: the rows are read first, then repaired one by
    one. *)
Definition fix_forum_urls (st : run) : run :=
  fold_left fix_row
    (map (fun r => (f_chunk_id r, f_url r)) (forum_chunks (store st))) st.

End Fixer.

End UpdateLinks.

(** ** The download of a topic: [discourse_by_date_range.py] *)

Module Downloader.

Definition POST_ID_BATCH_SIZE : nat := 50.

(** A post of a JSON answer: its [id], and its other entries as text. The
    answers are taken to have the shape the code expects of them: a post
    is an object with an [id], [stream] a list of numbers, [posts] a list
    of posts. *)
Record post_json : Type := { id : Z; fields : string }.

(** [topic_data["post_stream"]]: an entry is [None] when the key is not in
    the object. *)
Record post_stream_json : Type := {
  stream : option (list Z);
  posts : option (list post_json);
  stream_fields : string
}.

Record topic_json : Type := {
  post_stream : option post_stream_json;
  topic_fields : string
}.

(** The body of the answer to a request for a batch of posts: a list, or
    an object that may hold posts under [post_stream] and under
    [posts]. *)
Inductive batch_json : Type :=
| BatchList (l : list post_json)
| BatchObject (post_stream_posts : option (list post_json))
    (top_posts : option (list post_json)).

(** The posts that [fetched_posts.extend] gets from an answer. *)
Definition posts_of (batch_data : batch_json) : list post_json :=
  match batch_data with
  | BatchList l => l
  | BatchObject (Some l) _ => l
  | BatchObject None (Some l) => l
  | BatchObject None None => []
  end.

(** [range(0, stop, step)]. *)
Definition range_step (stop step : nat) : list nat :=
  map (fun k => k * step)%nat (seq 0 ((stop + step - 1) / step)).

(** [l[i:i + n]] for indices that are not negative. *)
Definition slice_list {A : Type} (l : list A) (i n : nat) : list A :=
  firstn n (skipn i l).

(** The batches of the loop over [missing_ids]. *)
Definition batches (missing_ids : list Z) : list (list Z) :=
  map (fun i => slice_list missing_ids i POST_ID_BATCH_SIZE)
    (range_step (List.length missing_ids) POST_ID_BATCH_SIZE).

(** A dictionary of posts by [id], the entry written last first. *)
Definition dict : Type := list (Z * post_json).

Fixpoint get (key : Z) (d : dict) : option post_json :=
  match d with
  | [] => None
  | (k, v) :: d' => if (key =? k)%Z then Some v else get key d'
  end.

Definition contains_key (key : Z) (d : dict) : bool :=
  match get key d with
  | Some _ => true
  | None => false
  end.

(** [{p['id']: p for p in posts}]. *)
Definition by_id (l : list post_json) : dict :=
  fold_left (fun d p => (id p, p) :: d) l [].

(** The loop over [fetched_posts]: a post whose [id] is known already is
    left out. *)
Definition add_missing (existing : dict) (fetched_posts : list post_json)
  : dict :=
  fold_left
    (fun d p => if contains_key (id p) d then d else (id p, p) :: d)
    fetched_posts existing.

(** [[existing[pid] for pid in all_ids if pid in existing]]. *)
Definition in_stream_order (existing : dict) (all_ids : list Z)
  : list post_json :=
  flat_map (fun pid => match get pid existing with
                       | Some p => [p]
                       | None => []
                       end) all_ids.

Section Download.

(** The two requests: the topic, and the batch number [n] of posts; an
    error of the request or of the decoding is an exception. *)
Variable get_topic : res topic_json.
Variable get_batch : nat -> list Z -> res batch_json.

(** The loop over the batches: a batch whose request fails is passed
    over. *)
Fixpoint fetch_batches (n : nat) (bs : list (list Z))
  (fetched_posts : list post_json) : list post_json :=
  match bs with
  | [] => fetched_posts
  | batch_ids :: bs' =>
      fetch_batches (S n) bs'
        match get_batch n batch_ids with
        | Ok batch_data => fetched_posts ++ posts_of batch_data
        | Raise _ => fetched_posts
        end
  end.

(** [get_full_topic_json]: [None] when the topic cannot be fetched. *)
Definition get_full_topic_json : option topic_json :=
  match get_topic with
  | Raise _ => None
  | Ok topic_data =>
      match post_stream topic_data with
      | Some {| stream := Some all_ids; posts := Some loaded;
                stream_fields := others |} =>
          let loaded_ids := map id loaded in
          let missing_ids :=
            filter (fun pid => negb (existsb (Z.eqb pid) loaded_ids))
              all_ids in
          let fetched_posts := fetch_batches 0 (batches missing_ids) [] in
          match fetched_posts with
          | [] => Some topic_data
          | _ :: _ =>
              let existing := add_missing (by_id loaded) fetched_posts in
              Some {| post_stream :=
                        Some {| stream := Some all_ids;
                                posts :=
                                  Some (in_stream_order existing all_ids);
                                stream_fields := others |};
                      topic_fields := topic_fields topic_data |}
          end
      | _ => Some topic_data
      end
  end.

End Download.

End Downloader.

(** * Properties *)

(** ** Facts about the string operations *)

Module PyStrFacts.

Import PyStr.

Lemma append_assoc (a b c : string) :
  ((a ++ b) ++ c = a ++ (b ++ c))%string.
Proof. induction a as [|x a IH]; simpl; [reflexivity | now rewrite IH]. Qed.

Lemma append_nil_r (a : string) : (a ++ EmptyString)%string = a.
Proof. induction a as [|x a IH]; simpl; [reflexivity | now rewrite IH]. Qed.

Lemma length_append (a b : string) :
  String.length (a ++ b) = (String.length a + String.length b)%nat.
Proof. induction a as [|x a IH]; simpl; [reflexivity | now rewrite IH]. Qed.

Lemma startswith_append (p s : string) : startswith p (p ++ s) = true.
Proof.
  induction p as [|x p IH]; simpl; [reflexivity|].
  now rewrite Ascii.eqb_refl, IH.
Qed.

Lemma startswith_split (p s : string) :
  startswith p s = true -> s = (p ++ drop (String.length p) s)%string.
Proof.
  revert s; induction p as [|x p IH]; intros s H; [reflexivity|].
  destruct s as [|y s]; [discriminate|]. simpl in *.
  apply andb_true_iff in H. destruct H as [Hxy H].
  apply Ascii.eqb_eq in Hxy. subst y. now rewrite <- (IH s H).
Qed.

Lemma drop_append (p s : string) : drop (String.length p) (p ++ s) = s.
Proof. induction p as [|x p IH]; simpl; auto. Qed.

Lemma length_take (n : nat) (s : string) :
  String.length (take n s) = Nat.min n (String.length s).
Proof.
  revert s; induction n as [|n IH]; intros [|c s]; simpl; auto.
Qed.

Lemma length_drop (n : nat) (s : string) :
  String.length (drop n s) = (String.length s - n)%nat.
Proof.
  revert s; induction n as [|n IH]; intros [|c s]; simpl; auto.
Qed.

Lemma take_take (a b : nat) (s : string) :
  take a (take b s) = take (Nat.min a b) s.
Proof.
  revert b s; induction a as [|a IH]; intros [|b] [|c s]; simpl; auto.
  now rewrite IH.
Qed.

Lemma drop_drop (a b : nat) (s : string) :
  drop a (drop b s) = drop (b + a) s.
Proof.
  revert s; induction b as [|b IH]; intros s; simpl; auto.
  destruct s as [|c s]; simpl; auto.
  now destruct a.
Qed.

Lemma drop_take (a b : nat) (s : string) :
  drop a (take b s) = take (b - a) (drop a s).
Proof.
  revert b s; induction a as [|a IH]; intros b s; simpl.
  - now rewrite Nat.sub_0_r.
  - destruct b as [|b]; destruct s as [|c s']; simpl; auto.
    now destruct (b - a)%nat.
Qed.

Lemma length_lstrip_by (p : ascii -> bool) (s : string) :
  (String.length (lstrip_by p s) <= String.length s)%nat.
Proof.
  induction s as [|c s IH]; simpl; auto.
  destruct (p c); simpl; lia.
Qed.

Lemma length_rstrip_by (p : ascii -> bool) (s : string) :
  (String.length (rstrip_by p s) <= String.length s)%nat.
Proof.
  induction s as [|c s IH]; simpl; auto.
  destruct (rstrip_by p s); [destruct (p c)|]; simpl in *; lia.
Qed.

Lemma length_strip (s : string) :
  (String.length (strip s) <= String.length s)%nat.
Proof.
  unfold strip, strip_by.
  etransitivity; [apply length_rstrip_by | apply length_lstrip_by].
Qed.

Lemma rstrip_by_keeps_head (p : ascii -> bool) (c : ascii) (s : string) :
  p c = false -> rstrip_by p (String c s) = String c (rstrip_by p s).
Proof.
  intros Hc; simpl. destruct (rstrip_by p s); [now rewrite Hc | reflexivity].
Qed.

Lemma rstrip_by_idem (p : ascii -> bool) (s : string) :
  rstrip_by p (rstrip_by p s) = rstrip_by p s.
Proof.
  induction s as [|c s IH]; simpl; auto.
  destruct (rstrip_by p s) as [|d r] eqn:E.
  - destruct (p c) eqn:Hc; simpl; auto. now rewrite Hc.
  - change (rstrip_by p (String c (String d r))) with
      (match rstrip_by p (String d r) with
       | EmptyString => if p c then EmptyString else String c EmptyString
       | r0 => String c r0
       end).
    now rewrite IH.
Qed.

Lemma lstrip_by_head (p : ascii -> bool) (s : string) :
  lstrip_by p s = EmptyString \/
  exists c s', lstrip_by p s = String c s' /\ p c = false.
Proof.
  induction s as [|c s IH]; simpl; auto.
  destruct (p c) eqn:Hc; auto. right; eauto.
Qed.

Lemma strip_by_idem (p : ascii -> bool) (s : string) :
  strip_by p (strip_by p s) = strip_by p s.
Proof.
  unfold strip_by.
  destruct (lstrip_by_head p s) as [E | (c & s' & E & Hc)]; rewrite E.
  - reflexivity.
  - rewrite (rstrip_by_keeps_head p c s' Hc). simpl lstrip_by. rewrite Hc.
    rewrite <- (rstrip_by_keeps_head p c s' Hc). apply rstrip_by_idem.
Qed.

Lemma strip_idem (s : string) : strip (strip s) = strip s.
Proof. apply strip_by_idem. Qed.

Lemma strip_by_none (p : ascii -> bool) (s : string) :
  all (fun c => negb (p c)) s = true -> strip_by p s = s.
Proof.
  intros H. unfold strip_by.
  assert (Hl : lstrip_by p s = s).
  { destruct s as [|c s]; [reflexivity|]. simpl in *.
    apply andb_true_iff in H. destruct H as [Hc _].
    apply negb_true_iff in Hc. now rewrite Hc. }
  rewrite Hl. clear Hl.
  induction s as [|c s IH]; [reflexivity|]. simpl in H.
  apply andb_true_iff in H. destruct H as [Hc H].
  apply negb_true_iff in Hc.
  rewrite (rstrip_by_keeps_head p c s Hc). now rewrite (IH H).
Qed.

Lemma len_nonneg (s : string) : 0 <= len s.
Proof. unfold len; lia. Qed.

(** A slice between two positions inside the text. *)
Lemma slice_inside (s : string) (a b : Z) :
  0 <= a -> a <= b ->
  slice s a b =
  take (Z.to_nat (Z.min b (len s) - Z.min a (len s)))
    (drop (Z.to_nat (Z.min a (len s))) s).
Proof.
  intros Ha Hb. unfold slice, clamp.
  destruct (a <? 0) eqn:E1; [apply Z.ltb_lt in E1; lia|].
  destruct (b <? 0) eqn:E2; [apply Z.ltb_lt in E2; lia|].
  reflexivity.
Qed.

Lemma len_slice_inside (s : string) (a b : Z) :
  0 <= a -> a <= b ->
  len (slice s a b) = Z.min b (len s) - Z.min a (len s).
Proof.
  intros Ha Hb. rewrite slice_inside by assumption.
  unfold len. rewrite length_take, length_drop.
  pose proof (len_nonneg s) as Hn. unfold len in *. lia.
Qed.

End PyStrFacts.

(** ** The segmenter *)

Module SegmenterFacts.

Import PyStr PyStrFacts Segmenter.

Lemma chunk_loop_more_fuel (T : string) (L O : Z) (fuel fuel' : nat) :
  (fuel <= fuel')%nat ->
  forall start acc r,
    chunk_loop fuel T L O start acc = Some r ->
    chunk_loop fuel' T L O start acc = Some r.
Proof.
  revert fuel'; induction fuel as [|fuel IH]; intros fuel' Hle start acc r H.
  - discriminate.
  - destruct fuel' as [|fuel']; [lia|].
    simpl in *. destruct (start <? len T); auto.
    apply IH; [lia | exact H].
Qed.

(** With a positive stride the loop is over once the fuel covers the
    distance from [start] to the end of the text. *)
Lemma chunk_loop_runs (T : string) (L O : Z) :
  O < L ->
  forall fuel start acc,
    len T - start <= Z.of_nat fuel * (L - O) ->
    exists r, chunk_loop (S fuel) T L O start acc = Some r.
Proof.
  intros Hs. induction fuel as [|fuel IH]; intros start acc Hd.
  - simpl. destruct (start <? len T) eqn:E; eauto.
    apply Z.ltb_lt in E. lia.
  - cbn [chunk_loop]. destruct (start <? len T) eqn:E; eauto.
    apply IH. lia.
Qed.

(** Without one it never is, on a text that is not empty. *)
Lemma chunk_loop_runs_forever (T : string) (L O : Z) :
  L <= O -> 0 < len T ->
  forall fuel start acc,
    start <= 0 -> chunk_loop fuel T L O start acc = None.
Proof.
  intros Hs Hn. induction fuel as [|fuel IH]; intros start acc Hstart.
  - reflexivity.
  - simpl. destruct (start <? len T) eqn:E.
    + apply IH. lia.
    + apply Z.ltb_ge in E. lia.
Qed.

Lemma nwindows_spec (T : string) (L O : Z) (i : nat) :
  O < L ->
  Z.of_nat i * (L - O) < len T <-> (i < nwindows T L O)%nat.
Proof.
  intros Hs. unfold nwindows.
  pose proof (len_nonneg T) as Hn.
  set (s := L - O) in *. set (n := len T) in *.
  assert (Hpos : 0 < s) by (unfold s; lia).
  pose proof (Z.div_mod (n + s - 1) s ltac:(lia)) as Hdm.
  pose proof (Z.mod_pos_bound (n + s - 1) s Hpos) as Hb.
  set (q := (n + s - 1) / s) in *.
  assert (Hq : 0 <= q) by (apply Z.div_pos; lia).
  split; intros H.
  - assert (Z.of_nat i < q) by nia. lia.
  - assert (Z.of_nat i < q) by lia. nia.
Qed.

(** The loop, started at the window [i], emits the trimmed windows from
    [i] on that are not empty. *)
Lemma chunk_loop_windows (T : string) (L O : Z) :
  O < L ->
  forall m i acc fuel,
    nwindows T L O = (i + m)%nat -> (m < fuel)%nat ->
    chunk_loop fuel T L O (Z.of_nat i * (L - O)) acc =
    Some (acc ++ filter truthy (map strip (map (window T L O) (seq i m)))).
Proof.
  intros Hs. induction m as [|m IH]; intros i acc fuel Hk Hf;
    (destruct fuel as [|fuel]; [lia|]); cbn [chunk_loop].
  - assert (E : (Z.of_nat i * (L - O) <? len T) = false).
    { apply Z.ltb_ge.
      destruct (Z.lt_ge_cases (Z.of_nat i * (L - O)) (len T)) as [Hlt|]; auto.
      apply nwindows_spec in Hlt; [lia | assumption]. }
    rewrite E. simpl. now rewrite app_nil_r.
  - assert (E : (Z.of_nat i * (L - O) <? len T) = true).
    { apply Z.ltb_lt, nwindows_spec; [assumption | lia]. }
    rewrite E.
    replace (Z.of_nat i * (L - O) + (L - O)) with (Z.of_nat (S i) * (L - O))
      by lia.
    rewrite IH by lia.
    f_equal. cbn [seq map filter]. fold (window T L O i).
    destruct (truthy (strip (window T L O i))).
    + now rewrite <- app_assoc.
    + reflexivity.
Qed.

Lemma len_window (T : string) (L O : Z) (i : nat) :
  0 <= O -> O < L ->
  len (window T L O i) =
  Z.min (Z.of_nat i * (L - O) + L) (len T) - Z.min (Z.of_nat i * (L - O)) (len T).
Proof.
  intros HO Hs. unfold window. apply len_slice_inside; nia.
Qed.

(** A window that lies inside the text shares its last [O] characters with
    the first [O] of the next one. *)
Lemma window_overlap (T : string) (L O : Z) (i : nat) :
  0 <= O -> O < L ->
  Z.of_nat i * (L - O) + L <= len T ->
  slice (window T L O i) (L - O) L = slice (window T L O (S i)) 0 O /\
  len (slice (window T L O i) (L - O) L) = O.
Proof.
  intros HO Hs Hin.
  pose proof (len_window T L O i HO Hs) as Hw.
  pose proof (len_window T L O (S i) HO Hs) as Hw'.
  replace (Z.of_nat (S i) * (L - O)) with (Z.of_nat i * (L - O) + (L - O))
    in Hw' by lia.
  assert (Ha : 0 <= Z.of_nat i * (L - O)) by nia.
  split.
  - rewrite (slice_inside (window T L O i)) by lia.
    rewrite (slice_inside (window T L O (S i))) by lia.
    rewrite Hw, Hw'. unfold window.
    replace (Z.of_nat (S i) * (L - O)) with (Z.of_nat i * (L - O) + (L - O))
      by lia.
    set (a := Z.of_nat i * (L - O)) in *. clearbody a.
    rewrite !slice_inside by lia.
    rewrite !drop_take, !take_take, !drop_drop.
    pose proof (len_nonneg T) as Hn.
    rewrite (Z.min_l (a + L) (len T)), (Z.min_l a (len T)),
      (Z.min_l (a + (L - O)) (len T)) by lia.
    replace (a + L - a) with L by lia.
    rewrite (Z.min_l L L), (Z.min_l (L - O) L) by lia.
    assert (Hm : a + L <= Z.min (a + (L - O) + L) (len T)) by lia.
    set (m := Z.min (a + (L - O) + L) (len T)) in *.
    rewrite (Z.min_l 0 (m - (a + (L - O)))), (Z.min_l O (m - (a + (L - O))))
      by lia.
    clearbody m. clear Hw Hw' Hin Hn.
    f_equal; [|f_equal]; lia.
  - rewrite len_slice_inside by lia. rewrite Hw.
    rewrite (Z.min_l (Z.of_nat i * (L - O) + L) (len T)),
      (Z.min_l (Z.of_nat i * (L - O)) (len T)) by lia.
    lia.
Qed.

(** With a positive stride [len(T) + 1] iterations are enough, and the
    loop returns the trimmed windows that are not empty. *)
Lemma chunk_text_runs (T : string) (L O : Z) (fuel : nat) :
  O < L -> (String.length T < fuel)%nat ->
  chunk_text fuel T L O = Some (filter truthy (map strip (windows T L O))).
Proof.
  intros Hs Hf. unfold chunk_text, windows.
  change 0 with (Z.of_nat 0 * (L - O)).
  rewrite (chunk_loop_windows T L O Hs (nwindows T L O) 0 [] fuel);
    [reflexivity | reflexivity |].
  assert (H : (nwindows T L O <= String.length T)%nat).
  { destruct (Nat.le_gt_cases (nwindows T L O) (String.length T)) as [|H];
      auto.
    apply nwindows_spec in H; [|assumption]. unfold len in H. nia. }
  lia.
Qed.

(** C6. With a window [L] longer than the overlap [O >= 0], [chunk_text]
    returns within [len(T) + 1] iterations, and what it returns is the list
    of the windows [T[i*(L-O) : i*(L-O)+L]], for the [i] whose start lies
    inside [T], in ascending order, each trimmed, the empty ones left out.
    So a chunk is at most [L] long, is not empty, and trimming leaves it as
    it is; and a window that lies inside the text has length [L] and
    shares exactly its last [O] characters with the start of the next. *)
Theorem chunk_text_sliding_windows (T : string) (L O : Z) :
  0 <= O -> O < L ->
  exists chunks,
    (forall fuel, (String.length T < fuel)%nat ->
                  chunk_text fuel T L O = Some chunks) /\
    chunks = filter truthy (map strip (windows T L O)) /\
    (forall i, (i < nwindows T L O)%nat <-> Z.of_nat i * (L - O) < len T) /\
    Forall (fun c => len c <= L /\ truthy c = true /\ strip c = c) chunks /\
    (forall i, Z.of_nat i * (L - O) + L <= len T ->
       len (window T L O i) = L /\
       (0 < O -> (S i < nwindows T L O)%nat) /\
       slice (window T L O i) (L - O) L = slice (window T L O (S i)) 0 O /\
       len (slice (window T L O i) (L - O) L) = O).
Proof.
  intros HO Hs.
  exists (filter truthy (map strip (windows T L O))).
  split; [|split; [reflexivity|split; [|split]]].
  - intros fuel Hf. now apply chunk_text_runs.
  - intros i. symmetry. now apply nwindows_spec.
  - apply Forall_forall. intros c Hc.
    apply filter_In in Hc. destruct Hc as [Hc Htr].
    apply in_map_iff in Hc. destruct Hc as (w & <- & Hw).
    unfold windows in Hw. apply in_map_iff in Hw.
    destruct Hw as (i & <- & _).
    split; [|split; [assumption | apply strip_idem]].
    pose proof (length_strip (window T L O i)) as H1.
    pose proof (len_window T L O i HO Hs) as H2.
    unfold len in *. lia.
  - intros i Hin.
    pose proof (len_window T L O i HO Hs) as Hw.
    assert (Ha : 0 <= Z.of_nat i * (L - O)) by nia.
    split; [lia|]. split.
    + intros HOpos. apply nwindows_spec; [assumption|]. lia.
    + now apply window_overlap.
Qed.

(** On a text of 28 characters, with windows of 10 and an overlap of 3. *)
Lemma chunk_text_sliding_windows_witness :
  exists chunks,
    (forall fuel, (String.length "hello world, this is  a test" < fuel)%nat ->
       chunk_text fuel "hello world, this is  a test" 10 3 = Some chunks) /\
    chunks =
      filter truthy (map strip (windows "hello world, this is  a test" 10 3)) /\
    (forall i, (i < nwindows "hello world, this is  a test" 10 3)%nat <->
               Z.of_nat i * (10 - 3) < len "hello world, this is  a test") /\
    Forall (fun c => len c <= 10 /\ truthy c = true /\ strip c = c) chunks /\
    (forall i,
       Z.of_nat i * (10 - 3) + 10 <= len "hello world, this is  a test" ->
       len (window "hello world, this is  a test" 10 3 i) = 10 /\
       (0 < 3 -> (S i < nwindows "hello world, this is  a test" 10 3)%nat) /\
       slice (window "hello world, this is  a test" 10 3 i) (10 - 3) 10 =
       slice (window "hello world, this is  a test" 10 3 (S i)) 0 3 /\
       len (slice (window "hello world, this is  a test" 10 3 i) (10 - 3) 10)
       = 3).
Proof.
  apply (chunk_text_sliding_windows "hello world, this is  a test" 10 3); lia.
Defined.

(** What the loop returns on that text. *)
Example chunk_text_example :
  chunk_text 29 "hello world, this is  a test" 10 3 =
  Some ["hello worl"; "orld, this"; "his is  a"; "a test"]%string.
Proof. reflexivity. Qed.

(** C7. When the window is longer than the overlap the loop of
    [chunk_text] ends, whatever the text: some number of iterations is
    enough, and any larger number gives the same list. *)
Theorem chunk_text_terminates (T : string) (L O : Z) :
  O < L ->
  exists fuel chunks,
    forall fuel', (fuel <= fuel')%nat -> chunk_text fuel' T L O = Some chunks.
Proof.
  intros Hs.
  destruct (chunk_loop_runs T L O Hs (String.length T) 0 []) as [r Hr].
  { unfold len. nia. }
  exists (S (String.length T)), r. intros fuel' Hle.
  unfold chunk_text. now apply (chunk_loop_more_fuel T L O _ fuel' Hle).
Qed.

Lemma chunk_text_terminates_witness :
  exists fuel chunks,
    forall fuel', (fuel <= fuel')%nat ->
      chunk_text fuel' "abcdef" (-1) (-5) = Some chunks.
Proof.
  apply (chunk_text_terminates "abcdef" (-1) (-5)); lia.
Defined.

(** The precondition is needed: with a window no longer than the overlap
    the loop never ends on a text that is not empty. *)
Lemma chunk_text_diverges (T : string) (L O : Z) (fuel : nat) :
  L <= O -> T <> EmptyString -> chunk_text fuel T L O = None.
Proof.
  intros Hs HT. apply chunk_loop_runs_forever; [assumption | | lia].
  destruct T; [congruence | unfold len; simpl; lia].
Qed.

(** The default window and overlap satisfy the precondition, so the
    processors get the list the loop returns. *)
Lemma chunk_text_default_runs (T : string) (fuel : nat) :
  (String.length T < fuel)%nat ->
  chunk_text fuel T CHUNK_SIZE CHUNK_OVERLAP = Some (Ingest.chunk_text_default T).
Proof.
  intros Hf. unfold Ingest.chunk_text_default.
  rewrite !chunk_text_runs; auto; reflexivity.
Qed.

End SegmenterFacts.

(** ** The embedding adapter and the rows the processors insert *)

Module IngestFacts.

Import PyStr PyStrFacts Embedding Ingest.

(** [n] copies of [s], end to end. *)
Fixpoint copies (n : nat) (s : string) : string :=
  match n with
  | O => EmptyString
  | S n' => (s ++ copies n' s)%string
  end.

(** A source of identifiers of which no two draws are equal. *)
Definition numbered (n : nat) : string := ("id" ++ copies n "+")%string.

(** What a forum row keeps of a chunk and its vector. *)
Definition forum_payload (r : forum_row) : string * stored :=
  (f_text r, f_embedding r).

(** What a course row keeps of a chunk and its vector. *)
Definition course_payload (r : course_row) : string * stored :=
  (c_text r, c_embedding r).

(** The row an insertion adds to the forum table, and the connection with
    one row more. *)
Definition new_forum_row (uuid4 : nat -> string) (p : post) (chunk : string)
  (emb : vector) (c : conn) : forum_row :=
  {| f_chunk_id := uuid4 (uuids_drawn c);
     f_post_id := post_id p;
     f_post_number := post_number p;
     f_topic_id := topic_id p;
     f_topic_title := topic_title p;
     f_author := author p;
     f_url := Some ("https://discourse.onlinedegree.iitm.ac.in/t/"
                      ++ str (topic_id p) ++ "/"
                      ++ str (post_number p))%string;
     f_text := chunk;
     f_embedding := Encoded emb |}.

Definition with_forum_row (c : conn) (r : forum_row) : conn :=
  {| forum_chunks := forum_chunks c ++ [r];
     course_chunks := course_chunks c;
     uuids_drawn := S (uuids_drawn c) |}.

Definition new_course_row (uuid4 : nat -> string) (file title : string)
  (url : option string) (chunk : string) (emb : vector) (c : conn)
  : course_row :=
  {| c_chunk_id := uuid4 (uuids_drawn c);
     c_source_file := file;
     c_section_title := title;
     c_url := url;
     c_text := chunk;
     c_embedding := Encoded emb |}.

Definition with_course_row (c : conn) (r : course_row) : conn :=
  {| forum_chunks := forum_chunks c;
     course_chunks := course_chunks c ++ [r];
     uuids_drawn := S (uuids_drawn c) |}.

Definition post_fits (p : post) : bool :=
  fits_int64 (post_id p) && fits_int64 (post_number p)
  && fits_int64 (topic_id p).

(** The three outcomes of an insertion into the forum table. *)
Lemma insert_forum_cases (uuid4 : nat -> string) (p : post) (chunk : string)
  (emb : vector) (c : conn) :
  (post_fits p = false /\
   insert_forum uuid4 p chunk emb c = (Raise OverflowError, drawn c)) \/
  (post_fits p = true /\
   In (uuid4 (uuids_drawn c)) (map f_chunk_id (forum_chunks c)) /\
   insert_forum uuid4 p chunk emb c = (Raise IntegrityError, drawn c)) \/
  (post_fits p = true /\
   ~ In (uuid4 (uuids_drawn c)) (map f_chunk_id (forum_chunks c)) /\
   insert_forum uuid4 p chunk emb c
   = (Ok tt, with_forum_row c (new_forum_row uuid4 p chunk emb c))).
Proof.
  unfold insert_forum. fold (post_fits p).
  destruct (post_fits p); cbn [negb]; [right | now left].
  destruct (existsb _ _) eqn:E.
  - left. split; [reflexivity|]. split; [|reflexivity].
    apply existsb_exists in E. destruct E as (x & Hx & E).
    apply String.eqb_eq in E. now subst x.
  - right. split; [reflexivity|]. split; [|reflexivity].
    intros H. apply not_true_iff_false in E. apply E.
    apply existsb_exists. eexists. split; [exact H | apply String.eqb_refl].
Qed.

(** The two outcomes of an insertion into the course table. *)
Lemma insert_course_cases (uuid4 : nat -> string) (file title : string)
  (url : option string) (chunk : string) (emb : vector) (c : conn) :
  (In (uuid4 (uuids_drawn c)) (map c_chunk_id (course_chunks c)) /\
   insert_course uuid4 file title url chunk emb c
   = (Raise IntegrityError, drawn c)) \/
  (~ In (uuid4 (uuids_drawn c)) (map c_chunk_id (course_chunks c)) /\
   insert_course uuid4 file title url chunk emb c
   = (Ok tt,
      with_course_row c (new_course_row uuid4 file title url chunk emb c))).
Proof.
  unfold insert_course. destruct (existsb _ _) eqn:E.
  - left. split; [|reflexivity].
    apply existsb_exists in E. destruct E as (x & Hx & E).
    apply String.eqb_eq in E. now subst x.
  - right. split; [|reflexivity].
    intros H. apply not_true_iff_false in E. apply E.
    apply existsb_exists. eexists. split; [exact H | apply String.eqb_refl].
Qed.

(** The rows the loop over the pairs adds to the forum table: one for
    each pair, in order, up to the first insertion that is refused, if one
    is. *)
Lemma insert_all_forum (uuid4 : nat -> string) (p : post)
  (pairs : list (string * vector)) (c : conn) :
  exists k,
    (k <= List.length pairs)%nat /\
    course_chunks (snd (insert_all (insert_forum uuid4 p) pairs c))
    = course_chunks c /\
    map forum_payload
      (forum_chunks (snd (insert_all (insert_forum uuid4 p) pairs c)))
    = map forum_payload (forum_chunks c)
        ++ map (fun ce => (fst ce, Encoded (snd ce))) (firstn k pairs) /\
    (fst (insert_all (insert_forum uuid4 p) pairs c) = Ok tt /\
     k = List.length pairs
     \/ (k < List.length pairs)%nat /\
        (fst (insert_all (insert_forum uuid4 p) pairs c) = Raise OverflowError
         \/ fst (insert_all (insert_forum uuid4 p) pairs c)
            = Raise IntegrityError)).
Proof.
  revert c; induction pairs as [|[chunk emb] pairs IH]; intros c.
  - exists 0%nat. cbn. rewrite app_nil_r. repeat split; auto.
  - cbn [insert_all]. unfold bnd.
    destruct (insert_forum_cases uuid4 p chunk emb c)
      as [[_ ->]|[(_ & _ & ->)|(_ & _ & ->)]].
    + exists 0%nat. cbn. rewrite app_nil_r.
      repeat split; auto; try lia. right. split; [lia | auto].
    + exists 0%nat. cbn. rewrite app_nil_r.
      repeat split; auto; try lia. right. split; [lia | auto].
    + destruct (IH (with_forum_row c (new_forum_row uuid4 p chunk emb c)))
        as (k & Hk & Hcourse & Hforum & Hend).
      exists (S k). cbn [List.length firstn map].
      split; [lia|]. split; [exact Hcourse|]. split.
      * rewrite Hforum. cbn [forum_chunks with_forum_row].
        rewrite map_app, <- app_assoc. reflexivity.
      * destruct Hend as [[H1 H2]|[H1 H2]]; [left | right];
          (split; first [assumption | lia]).
Qed.

Lemma insert_all_course (uuid4 : nat -> string) (file title : string)
  (url : option string) (pairs : list (string * vector)) (c : conn) :
  exists k new,
    (k <= List.length pairs)%nat /\
    forum_chunks (snd (insert_all (insert_course uuid4 file title url) pairs c))
    = forum_chunks c /\
    course_chunks (snd (insert_all (insert_course uuid4 file title url) pairs c))
    = course_chunks c ++ new /\
    Forall (fun r => c_url r = url) new /\
    map course_payload new
    = map (fun ce => (fst ce, Encoded (snd ce))) (firstn k pairs) /\
    (fst (insert_all (insert_course uuid4 file title url) pairs c) = Ok tt /\
     k = List.length pairs
     \/ (k < List.length pairs)%nat /\
        fst (insert_all (insert_course uuid4 file title url) pairs c)
        = Raise IntegrityError).
Proof.
  revert c; induction pairs as [|[chunk emb] pairs IH]; intros c.
  - exists 0%nat, []. cbn. rewrite app_nil_r. repeat split; auto.
  - cbn [insert_all]. unfold bnd.
    destruct (insert_course_cases uuid4 file title url chunk emb c)
      as [[_ ->]|[_ ->]].
    + exists 0%nat, []. cbn. rewrite app_nil_r.
      repeat split; auto; try lia. right. split; [lia | auto].
    + destruct (IH (with_course_row c
                      (new_course_row uuid4 file title url chunk emb c)))
        as (k & new & Hk & Hforum & Hcourse & Hurl & Hpay & Hend).
      exists (S k), (new_course_row uuid4 file title url chunk emb c :: new).
      cbn [List.length firstn map].
      split; [lia|]. split; [exact Hforum|]. split.
      * rewrite Hcourse. cbn [course_chunks with_course_row].
        rewrite <- app_assoc. reflexivity.
      * split; [constructor; [reflexivity | assumption]|].
        split; [now rewrite Hpay|].
        destruct Hend as [[H1 H2]|[H1 H2]]; [left | right];
          (split; first [assumption | lia]).
Qed.

(** A provider that answers any request with a single vector. *)
Definition one_vector : provider :=
  fun _ => Ok [{| index := 0; embedding := [1%float] |}].

Definition two_chunk_post : post :=
  {| post_id := 1; post_number := 1; topic_id := 7; topic_title := "t";
     author := "a";
     content := "first window  " ++ "second window" |}.

(** C8, as stated, fails: [embed] has no check of the count. Asked for the
    vectors of two texts, a provider that sends one makes [embed] return
    that one vector, and no error. *)
Lemma embed_short_answer_returned :
  exists vs,
    embed one_vector ["first"; "second"]%string = Ok vs /\
    List.length vs <> List.length ["first"; "second"]%string.
Proof.
  exists [[1%float]]. split; [reflexivity | discriminate].
Qed.

(** C8, amended. For every list of texts, [embed] returns the vectors of
    the provider's answer, as many as the provider sent and in the order it
    sent them, and raises what the provider raises; it does not compare
    their number with the number of texts. Both callers,
    [process_forum_json] for the chunks of a post and [process_course_md]
    for the chunks of a section, pair chunks and vectors by position, as
    many pairs as the shorter of the two lists has elements, and insert
    one row for each pair, in order, up to the first insertion that the
    database refuses; when the provider raises, they raise the same error
    and insert nothing. *)
Theorem embed_returns_provider_answer (create : provider)
  (uuid4 : nat -> string) (texts : list string) :
  match create texts with
  | Raise e =>
      embed create texts = Raise e /\
      (forall p c,
         chunk_text_default (content p) = texts -> texts <> [] ->
         process_post create uuid4 p c = (Raise e, c)) /\
      (forall file title url buffer c,
         chunk_text_default buffer = texts ->
         flush create uuid4 file title url buffer c = (Raise e, c))
  | Ok data =>
      let pairs := combine texts (map embedding data) in
      embed create texts = Ok (map embedding data) /\
      List.length (map embedding data) = List.length data /\
      List.length pairs
      = Nat.min (List.length texts) (List.length data) /\
      (forall p c,
         chunk_text_default (content p) = texts -> texts <> [] ->
         let run := process_post create uuid4 p c in
         run = insert_all (insert_forum uuid4 p) pairs c /\
         exists k,
           (k <= List.length pairs)%nat /\
           course_chunks (snd run) = course_chunks c /\
           map forum_payload (forum_chunks (snd run))
           = map forum_payload (forum_chunks c)
               ++ map (fun ce => (fst ce, Encoded (snd ce))) (firstn k pairs) /\
           (fst run = Ok tt /\ k = List.length pairs
            \/ (k < List.length pairs)%nat /\
               (fst run = Raise OverflowError
                \/ fst run = Raise IntegrityError))) /\
      (forall file title url buffer c,
         chunk_text_default buffer = texts ->
         let run := flush create uuid4 file title url buffer c in
         run = insert_all (insert_course uuid4 file title url) pairs c /\
         exists k new,
           (k <= List.length pairs)%nat /\
           forum_chunks (snd run) = forum_chunks c /\
           course_chunks (snd run) = course_chunks c ++ new /\
           map course_payload new
           = map (fun ce => (fst ce, Encoded (snd ce))) (firstn k pairs) /\
           (fst run = Ok tt /\ k = List.length pairs
            \/ (k < List.length pairs)%nat /\
               fst run = Raise IntegrityError))
  end.
Proof.
  destruct (create texts) as [data|e] eqn:Hc.
  - cbv zeta. split; [unfold embed; now rewrite Hc|].
    split; [apply length_map|].
    split; [now rewrite length_combine, length_map|].
    split.
    + intros p c Htexts Hne.
      assert (Hrun : process_post create uuid4 p c
                     = insert_all (insert_forum uuid4 p)
                         (combine texts (map embedding data)) c).
      { unfold process_post. rewrite Htexts.
        destruct texts as [|t texts']; [congruence|].
        unfold bnd, lift, embed. now rewrite Hc. }
      split; [exact Hrun|]. rewrite Hrun.
      apply insert_all_forum.
    + intros file title url buffer c Htexts.
      assert (Hrun : flush create uuid4 file title url buffer c
                     = insert_all (insert_course uuid4 file title url)
                         (combine texts (map embedding data)) c).
      { unfold flush. rewrite Htexts. unfold bnd, lift, embed.
        now rewrite Hc. }
      split; [exact Hrun|]. rewrite Hrun.
      destruct (insert_all_course uuid4 file title url
                  (combine texts (map embedding data)) c)
        as (k & new & H1 & H2 & H3 & _ & H5 & H6).
      exists k, new. auto.
  - split; [unfold embed; now rewrite Hc|]. split.
    + intros p c Htexts Hne. unfold process_post. rewrite Htexts.
      destruct texts as [|t texts']; [congruence|].
      unfold bnd, lift, embed. now rewrite Hc.
    + intros file title url buffer c Htexts. unfold flush.
      rewrite Htexts. unfold bnd, lift, embed. now rewrite Hc.
Qed.

(** A text of 800 characters, which the segmenter cuts in two. *)
Definition long_post : post :=
  {| post_id := 2; post_number := 2; topic_id := 7; topic_title := "t";
     author := "a"; content := copies 100 "eight ch" |}.

(** Two chunks and a provider that sends one vector: one row. *)
Example short_answer_one_row :
  List.length (chunk_text_default (content long_post)) = 2%nat /\
  embed one_vector (chunk_text_default (content long_post)) = Ok [[1%float]] /\
  fst (process_post one_vector numbered long_post empty_db)
  = Ok tt /\
  List.length
    (forum_chunks
       (snd (process_post one_vector numbered long_post
               empty_db))) = 1%nat.
Proof. repeat split; vm_compute; reflexivity. Qed.

Lemma embed_returns_provider_answer_witness :
  List.length (chunk_text_default (content long_post)) = 2%nat /\
  embed one_vector (chunk_text_default (content long_post))
  = Ok [[1%float]] /\
  List.length
    (combine (chunk_text_default (content long_post)) [[1%float]])
  = Nat.min (List.length (chunk_text_default (content long_post))) 1 /\
  (process_post one_vector numbered long_post empty_db
   = insert_all (insert_forum numbered long_post)
       (combine (chunk_text_default (content long_post)) [[1%float]])
       empty_db /\
   exists k,
     (k <= List.length
             (combine (chunk_text_default (content long_post))
                [[1%float]]))%nat /\
     course_chunks
       (snd (process_post one_vector numbered long_post empty_db)) = [] /\
     map forum_payload
       (forum_chunks
          (snd (process_post one_vector numbered long_post empty_db)))
     = map (fun ce => (fst ce, Encoded (snd ce)))
         (firstn k
            (combine (chunk_text_default (content long_post))
               [[1%float]])) /\
     (fst (process_post one_vector numbered long_post empty_db) = Ok tt /\
      k = List.length
            (combine (chunk_text_default (content long_post)) [[1%float]])
      \/ (k < List.length
                (combine (chunk_text_default (content long_post))
                   [[1%float]]))%nat /\
         (fst (process_post one_vector numbered long_post empty_db)
          = Raise OverflowError
          \/ fst (process_post one_vector numbered long_post empty_db)
             = Raise IntegrityError))) /\
  flush one_vector numbered "md/a.md" "Section" None (content long_post)
    empty_db
  = insert_all (insert_course numbered "md/a.md" "Section" None)
      (combine (chunk_text_default (content long_post)) [[1%float]])
      empty_db.
Proof.
  pose proof (embed_returns_provider_answer one_vector numbered
                (chunk_text_default (content long_post))) as H.
  cbv beta delta [one_vector] iota zeta in H. cbn [map embedding] in H.
  destruct H as (He & _ & Hl & Hp & Hf).
  split; [vm_compute; reflexivity|]. split; [exact He|].
  split; [exact Hl|]. split.
  - apply (Hp long_post empty_db eq_refl). vm_compute. discriminate.
  - destruct (Hf "md/a.md"%string "Section"%string None (content long_post)
                empty_db eq_refl) as [Hrun _].
    exact Hrun.
Defined.

Lemma mem_split_once (c : ascii) (s : string) :
  mem c s = true ->
  exists a b, split_once (String c EmptyString) s = Some (a, b).
Proof.
  induction s as [|d s IH]; intros H; [discriminate|].
  cbn [split_once startswith].
  destruct (Ascii.eqb c d) eqn:E.
  - cbn [andb]. eauto.
  - simpl in H. rewrite E in H. destruct (IH H) as (a & b & ->).
    cbn [andb]. eauto.
Qed.

Lemma startswith_mem (c : ascii) (p s : string) :
  startswith p s = true -> mem c p = true -> mem c s = true.
Proof.
  revert s; induction p as [|a p IH]; intros s Hp Hc; [discriminate|].
  destruct s as [|b s]; [discriminate|]. simpl in *.
  apply andb_true_iff in Hp. destruct Hp as [Hab Hp].
  apply Ascii.eqb_eq in Hab. subst b.
  destruct (Ascii.eqb c a); [reflexivity|]. simpl in *. now apply IH.
Qed.

Lemma mem_lstrip_by (p : ascii -> bool) (c : ascii) (s : string) :
  mem c (lstrip_by p s) = true -> mem c s = true.
Proof.
  induction s as [|d s IH]; simpl; auto.
  destruct (p d); simpl; auto.
  intros H. rewrite (IH H). apply orb_true_r.
Qed.

Lemma mem_rstrip_by (p : ascii -> bool) (c : ascii) (s : string) :
  mem c (rstrip_by p s) = true -> mem c s = true.
Proof.
  induction s as [|d s IH]; simpl; auto.
  destruct (rstrip_by p s) as [|e r].
  - destruct (p d); simpl; [discriminate|].
    now rewrite orb_false_r; intros ->.
  - intros H. change (mem c (String d (String e r))) with
      (Ascii.eqb c d || mem c (String e r)) in H.
    destruct (Ascii.eqb c d); [reflexivity|]. simpl in *. now apply IH.
Qed.

Lemma url_field_has_colon (line : string) :
  is_url_field line = true ->
  original_url_value line = Ok (field_value line).
Proof.
  intros H. unfold original_url_value, field_value, after_colon.
  assert (Hm : mem ":" line = true).
  { apply mem_lstrip_by with (p := isspace).
    apply mem_rstrip_by with (p := isspace).
    apply (startswith_mem ":" "original_url:" _ H). reflexivity. }
  destruct (mem_split_once _ _ Hm) as (a & b & E).
  change (String ":" EmptyString) with ":"%string in E. now rewrite E.
Qed.

Lemma delimiter_is_no_field (line : string) :
  is_delimiter line = true -> is_url_field line = false.
Proof.
  unfold is_delimiter, is_url_field. intros H.
  apply String.eqb_eq in H. now rewrite H.
Qed.

(** The loop over the block: it ends at the closing delimiter with the
    value of the last field, or with the URL it started from when the
    block has no field. *)
Lemma scan_front_matter_block (block : list string) (close : string)
  (body : list string) :
  forallb (fun l => negb (is_delimiter l)) block = true ->
  is_delimiter close = true ->
  forall url0,
    scan_front_matter (block ++ close :: body) url0 =
    Ok (match declared_url block with Some u => Some u | None => url0 end,
        Some body).
Proof.
  intros Hb Hc. induction block as [|l block IH]; intros url0.
  - cbn [app scan_front_matter declared_url].
    fold (is_url_field close). rewrite (delimiter_is_no_field _ Hc).
    fold (is_delimiter close). now rewrite Hc.
  - cbn [forallb] in Hb. apply andb_true_iff in Hb. destruct Hb as [Hl Hb].
    cbn [app scan_front_matter declared_url]. fold (is_url_field l).
    destruct (is_url_field l) eqn:El.
    + rewrite (url_field_has_colon l El). cbn [bind].
      rewrite (IH Hb). now destruct (declared_url block).
    + fold (is_delimiter l). apply negb_true_iff in Hl. rewrite Hl.
      rewrite (IH Hb). now destruct (declared_url block).
Qed.

(** Whatever the processor of the body does, and whether or not it ends
    with an error, the rows it adds carry the URL it was given. *)
Lemma course_lines_rows (create : provider) (uuid4 : nat -> string)
  (file : string) (url : option string) (lines : list string) :
  forall title buffer c,
  exists new,
    course_chunks (snd (course_lines create uuid4 file url lines title buffer c))
    = course_chunks c ++ new /\
    Forall (fun r => c_url r = url) new.
Proof.
  assert (Hflush : forall title buffer c,
    exists new,
      course_chunks (snd (flush create uuid4 file title url buffer c))
      = course_chunks c ++ new /\
      Forall (fun r => c_url r = url) new).
  { intros title buffer c. unfold flush, bnd, lift.
    destruct (embed create (chunk_text_default buffer)) as [embs|e].
    - destruct (insert_all_course uuid4 file title url
                  (combine (chunk_text_default buffer) embs) c)
        as (k & new & _ & _ & Hrun & Hurl & _).
      exists new. auto.
    - exists []. rewrite app_nil_r. cbn. auto. }
  induction lines as [|line lines IH]; intros title buffer c;
    cbn [course_lines].
  - destruct (truthy (strip buffer)).
    + destruct (Hflush title buffer c) as (new & H1 & H2). eauto.
    + exists []. now rewrite app_nil_r.
  - destruct (startswith "#" (strip line)); [|apply IH].
    destruct (truthy (strip buffer)); [|apply IH].
    unfold bnd.
    destruct (Hflush title buffer c) as (new & H1 & H2).
    destruct (flush create uuid4 file title url buffer c) as [[[]|e] c1] eqn:E.
    + destruct (IH (strip (strip_chars "# " line)) EmptyString c1)
        as (new' & H1' & H2').
      exists (new ++ new'). rewrite H1'. cbn [snd] in H1. rewrite H1.
      rewrite app_assoc. split; [reflexivity | now apply Forall_app].
    + exists new. auto.
Qed.

(** C9. In a document whose first line is the delimiter and whose front
    matter is closed by a second delimiter line, the processor chunks the
    lines after the closing delimiter only: the run is the run of the body
    alone, given the URL the block declares. Every row it adds carries that
    URL, which is the value of the block's [original_url] field with the
    double quotes removed, and no URL when the block has no such field. *)
Theorem front_matter_excluded_url_attached (create : provider)
  (uuid4 : nat -> string) (filepath first : string) (block : list string)
  (close : string) (body : list string) (c : conn) :
  is_delimiter first = true ->
  forallb (fun l => negb (is_delimiter l)) block = true ->
  is_delimiter close = true ->
  process_course_lines create uuid4 filepath (first :: block ++ close :: body) c
  = course_lines create uuid4 (last_segment "/" filepath) (declared_url block)
      body EmptyString EmptyString c /\
  (exists new,
     course_chunks
       (snd (process_course_lines create uuid4 filepath
               (first :: block ++ close :: body) c))
     = course_chunks c ++ new /\
     Forall (fun r => c_url r = declared_url block) new) /\
  (forallb (fun l => negb (is_url_field l)) block = true ->
   declared_url block = None).
Proof.
  intros Hfirst Hblock Hclose.
  assert (Hrun :
    process_course_lines create uuid4 filepath
      (first :: block ++ close :: body) c
    = course_lines create uuid4 (last_segment "/" filepath)
        (declared_url block) body EmptyString EmptyString c).
  { unfold process_course_lines, front_matter, bnd, lift.
    fold (is_delimiter first). rewrite Hfirst.
    rewrite (scan_front_matter_block block close body Hblock Hclose None).
    cbn [bind]. now destruct (declared_url block). }
  split; [exact Hrun|]. split.
  - rewrite Hrun. apply course_lines_rows.
  - clear. induction block as [|l block IH]; intros H; [reflexivity|].
    cbn [forallb] in H. apply andb_true_iff in H. destruct H as [Hl H].
    cbn [declared_url]. rewrite (IH H).
    apply negb_true_iff in Hl. now rewrite Hl.
Qed.

Definition sample_block : list string :=
  ["title: notes"; "original_url: " ++ dquote ++ "http://c/notes" ++ dquote]%string.

Definition sample_body : list string :=
  ["intro"; "# Head 1"; "body one"]%string.

Lemma front_matter_excluded_url_attached_witness :
  process_course_lines one_vector numbered "md/doc.md"
    ("---"%string :: sample_block ++ " --- "%string :: sample_body) empty_db
  = course_lines one_vector numbered
      (last_segment "/" "md/doc.md") (declared_url sample_block)
      sample_body EmptyString EmptyString empty_db /\
  (exists new,
     course_chunks
       (snd (process_course_lines one_vector numbered "md/doc.md"
               ("---"%string :: sample_block ++ " --- "%string :: sample_body)
               empty_db))
     = course_chunks empty_db ++ new /\
     Forall (fun r => c_url r = declared_url sample_block) new) /\
  (forallb (fun l => negb (is_url_field l)) sample_block = true ->
   declared_url sample_block = None).
Proof.
  apply (front_matter_excluded_url_attached one_vector numbered
           "md/doc.md" "---" sample_block " --- " sample_body empty_db);
    reflexivity.
Defined.

(** The same document read from its text: two rows, from the two sections
    of the body, both with the URL of the front matter. *)
Example process_course_md_example :
  let nl := String (ascii_of_nat 10) EmptyString in
  let text :=
    ("---" ++ nl ++ "title: notes" ++ nl ++ "original_url: " ++ dquote
     ++ "http://c/notes" ++ dquote ++ nl ++ " --- " ++ nl ++ "intro" ++ nl
     ++ "# Head 1" ++ nl ++ "body one" ++ nl)%string in
  map (fun r => (c_source_file r, c_section_title r, c_url r, c_text r))
    (course_chunks
       (snd (process_course_md one_vector numbered "md/doc.md"
               text empty_db)))
  = [("doc.md", "", Some "http://c/notes", "intro");
     ("doc.md", "Head 1", Some "http://c/notes", "body one")]%string.
Proof. reflexivity. Qed.

End IngestFacts.

(** ** The order of binary64 numbers *)

Module FloatOrder.

Import Retrieval.

Ltac cmp_norm :=
  repeat match goal with
  | |- context [Pos.compare_cont Eq ?a ?b] =>
      change (Pos.compare_cont Eq a b) with (Pos.compare a b)
  | H : context [Pos.compare_cont Eq ?a ?b] |- _ =>
      change (Pos.compare_cont Eq a b) with (Pos.compare a b) in H
  end.

Ltac cmp_split :=
  repeat match goal with
  | H : context [Z.compare ?a ?b] |- _ =>
      destruct (Z.compare_spec a b); try subst
  | |- context [Z.compare ?a ?b] =>
      destruct (Z.compare_spec a b); try subst
  | H : context [Pos.compare ?a ?b] |- _ =>
      destruct (Pos.compare_spec a b); try subst
  | |- context [Pos.compare ?a ?b] =>
      destruct (Pos.compare_spec a b); try subst
  end.

Lemma SFcompare_swap (x y : spec_float) :
  SFcompare y x = option_map CompOpp (SFcompare x y).
Proof.
  destruct x as [[]|[]| |[] mx ex], y as [[]|[]| |[] my ey]; simpl;
    try reflexivity.
  all: cmp_norm;
    rewrite (Z.compare_antisym ex ey), (Pos.compare_antisym mx my);
    destruct (ex ?= ey), (mx ?= my)%positive; reflexivity.
Qed.

Lemma SFcompare_trans (x y z : spec_float) (c1 c2 : comparison) :
  SFcompare x y = Some c1 -> SFcompare y z = Some c2 ->
  c1 <> Gt -> c2 <> Gt ->
  SFcompare x z = Some (follows c1 c2).
Proof.
  destruct x as [[]|[]| |[] mx ex], y as [[]|[]| |[] my ey],
    z as [[]|[]| |[] mz ez]; simpl; intros H1 H2 N1 N2;
    try discriminate;
    try (injection H1 as <-; injection H2 as <-; try congruence; reflexivity).
  all: injection H1 as <-; injection H2 as <-; cmp_norm; f_equal.
  all: cmp_split; simpl in *; try congruence; try lia.
Qed.

Lemma SFcompare_opp (x y : spec_float) :
  SFcompare (SFopp x) (SFopp y) = SFcompare y x.
Proof.
  rewrite (SFcompare_swap x y).
  destruct x as [[]|[]| |[] mx ex], y as [[]|[]| |[] my ey]; simpl;
    try reflexivity.
  all: cmp_norm; destruct (ex ?= ey), (mx ?= my)%positive; reflexivity.
Qed.

(** Two numbers that each compare with something compare with each other. *)
Lemma SFcompare_defined (x y x' y' : spec_float) (c c' : comparison) :
  SFcompare x' x = Some c -> SFcompare y' y = Some c' ->
  exists d, SFcompare x y = Some d.
Proof.
  destruct x as [[]|[]| |[] mx ex], y as [[]|[]| |[] my ey]; simpl; eauto;
    destruct x' as [[]|[]| |[] ? ?], y' as [[]|[]| |[] ? ?]; simpl;
    discriminate.
Qed.

Lemma eqb_fcompare (a b : float) :
  (a =? b)%float = match fcompare a b with Some Eq => true | _ => false end.
Proof. now rewrite eqb_spec. Qed.

Lemma ltb_fcompare (a b : float) :
  (a <? b)%float = match fcompare a b with Some Lt => true | _ => false end.
Proof. now rewrite ltb_spec. Qed.

Lemma leb_fcompare (a b : float) :
  (a <=? b)%float =
  match fcompare a b with Some (Lt | Eq) => true | _ => false end.
Proof. now rewrite leb_spec. Qed.

Lemma fcompare_swap (a b : float) :
  fcompare b a = option_map CompOpp (fcompare a b).
Proof. apply SFcompare_swap. Qed.

Lemma fcompare_opp (a b : float) :
  fcompare (- a)%float (- b)%float = fcompare b a.
Proof. unfold fcompare. rewrite !opp_spec. apply SFcompare_opp. Qed.

Lemma fcompare_trans (a b c : float) (c1 c2 : comparison) :
  fcompare a b = Some c1 -> fcompare b c = Some c2 ->
  c1 <> Gt -> c2 <> Gt ->
  fcompare a c = Some (follows c1 c2).
Proof. apply SFcompare_trans. Qed.

(** Similarities that passed the threshold are numbers: they compare. *)
Lemma fcompare_above (t a b : float) :
  (t <=? a)%float = true -> (t <=? b)%float = true ->
  exists d, fcompare a b = Some d.
Proof.
  rewrite !leb_fcompare. unfold fcompare. intros Ha Hb.
  destruct (SFcompare (Prim2SF t) (Prim2SF a)) as [ca|] eqn:Ea;
    [|discriminate].
  destruct (SFcompare (Prim2SF t) (Prim2SF b)) as [cb|] eqn:Eb;
    [|discriminate].
  exact (SFcompare_defined _ _ _ _ _ _ Ea Eb).
Qed.

End FloatOrder.

(** ** The retrieval engine *)

Module RetrievalFacts.

Import PyStr Embedding Ingest Retrieval FloatOrder.

(** *** The insertion sort *)

Section SortedFacts.

Context {A K : Type} (key : A -> K) (lt : K -> K -> bool).

Let le (x y : A) : Prop := lt (key y) (key x) = false.

Lemma insert_perm (x : A) (l : list A) :
  Permutation (insert key lt x l) (x :: l).
Proof.
  induction l as [|y l IH]; simpl; auto.
  destruct (lt (key y) (key x)); auto.
  rewrite IH. apply perm_swap.
Qed.

Lemma sorted_perm (l : list A) : Permutation (sorted key lt l) l.
Proof.
  induction l as [|x l IH]; simpl; auto.
  rewrite insert_perm. now constructor.
Qed.

(** Stability: within a class of elements none of which is smaller than
    another, the sort keeps the order of the input. *)
Lemma insert_filter_class (cls : A -> bool) (x : A) (l : list A) :
  (forall a b, cls a = true -> cls b = true -> lt (key a) (key b) = false) ->
  filter cls (insert key lt x l) = filter cls (x :: l).
Proof.
  intros Hcls. induction l as [|y l IH]; [reflexivity|].
  cbn [insert]. destruct (lt (key y) (key x)) eqn:E; [|reflexivity].
  cbn [filter] in *. rewrite IH.
  destruct (cls y) eqn:Ey, (cls x) eqn:Ex; try reflexivity.
  now rewrite (Hcls y x Ey Ex) in E.
Qed.

Lemma sorted_filter_class (cls : A -> bool) (l : list A) :
  (forall a b, cls a = true -> cls b = true -> lt (key a) (key b) = false) ->
  filter cls (sorted key lt l) = filter cls l.
Proof.
  intros Hcls. induction l as [|x l IH]; [reflexivity|].
  cbn [sorted]. rewrite (insert_filter_class cls x _ Hcls).
  cbn [filter]. now rewrite IH.
Qed.

Variable good : A -> Prop.

Hypothesis lt_asym :
  forall x y, good x -> good y ->
    lt (key x) (key y) = true -> lt (key y) (key x) = false.

Hypothesis le_trans :
  forall x y z, good x -> good y -> good z -> le x y -> le y z -> le x z.

Lemma insert_sorted (x : A) (l : list A) :
  good x -> Forall good l ->
  StronglySorted le l -> StronglySorted le (insert key lt x l).
Proof.
  intros Hx Hl Hs. induction Hs as [|y l Hs IH Hy]; simpl.
  - repeat constructor.
  - apply Forall_cons_iff in Hl. destruct Hl as [Hgy Hl].
    destruct (lt (key y) (key x)) eqn:E.
    + constructor; [now apply IH|].
      rewrite (insert_perm x l). constructor; [|assumption].
      unfold le. now apply lt_asym.
    + constructor; [now constructor|].
      constructor; [exact E|].
      rewrite Forall_forall in *. intros z Hz.
      apply (le_trans x y z); auto.
Qed.

Lemma sorted_sorted (l : list A) :
  Forall good l -> StronglySorted le (sorted key lt l).
Proof.
  induction l as [|x l IH]; intros Hl; simpl; [constructor|].
  apply Forall_cons_iff in Hl. destruct Hl as [Hx Hl].
  apply insert_sorted; auto.
  now rewrite (sorted_perm l).
Qed.

Lemma sorted_precedes (l l1 l2 l3 : list A) (x y : A) :
  StronglySorted le l -> l = l1 ++ x :: l2 ++ y :: l3 -> le x y.
Proof.
  intros Hs ->. induction l1 as [|a l1 IH]; simpl in Hs.
  - apply StronglySorted_inv in Hs. destruct Hs as [_ Hall].
    rewrite Forall_forall in Hall. apply Hall.
    apply in_or_app. right. now left.
  - apply StronglySorted_inv in Hs. now apply IH.
Qed.

End SortedFacts.

(** *** The order of the sort keys *)

Lemma tuple_lt_key_compare (k1 k2 : float * Z) :
  tuple_lt k1 k2 =
  match key_compare k1 k2 with Some Lt => true | _ => false end.
Proof.
  unfold tuple_lt, key_compare. rewrite eqb_fcompare, ltb_fcompare.
  destruct (fcompare (fst k1) (fst k2)) as [[]|]; reflexivity.
Qed.

Lemma key_compare_swap (k1 k2 : float * Z) :
  key_compare k2 k1 = option_map CompOpp (key_compare k1 k2).
Proof.
  unfold key_compare. rewrite (fcompare_swap (fst k1) (fst k2)).
  destruct (fcompare (fst k1) (fst k2)) as [[]|]; simpl; try reflexivity.
  now rewrite Z.compare_antisym.
Qed.

Lemma key_compare_trans (k1 k2 k3 : float * Z) (c1 c2 : comparison) :
  key_compare k1 k2 = Some c1 -> key_compare k2 k3 = Some c2 ->
  c1 <> Gt -> c2 <> Gt ->
  key_compare k1 k3 = Some (follows c1 c2).
Proof.
  unfold key_compare. intros H1 H2 N1 N2.
  destruct (fcompare (fst k1) (fst k2)) as [f1|] eqn:E1; [|discriminate].
  destruct (fcompare (fst k2) (fst k3)) as [f2|] eqn:E2; [|discriminate].
  assert (F1 : f1 <> Gt) by (destruct f1; congruence).
  assert (F2 : f2 <> Gt) by (destruct f2; congruence).
  rewrite (fcompare_trans _ _ _ _ _ E1 E2 F1 F2).
  destruct f1, f2; try congruence; simpl;
    injection H1 as <-; injection H2 as <-; f_equal.
  - cmp_split; simpl in *; try congruence; lia.
  - now destruct (snd k1 ?= snd k2).
Qed.

(** The key of an entry compared with the key of another, in terms of
    their similarities and tie-break keys. *)
Lemma key_compare_chunks (x y : chunk) :
  key_compare (sort_key x) (sort_key y) =
  match fcompare (similarity y) (similarity x) with
  | Some Eq => Some (post_number y ?= post_number x)
  | o => o
  end.
Proof.
  unfold key_compare, sort_key. cbn [fst snd].
  now rewrite fcompare_opp, Z.compare_opp.
Qed.

Lemma key_compare_defined (x y : chunk) :
  above_threshold x -> above_threshold y ->
  exists c, key_compare (sort_key x) (sort_key y) = Some c.
Proof.
  intros Hx Hy. rewrite key_compare_chunks.
  destruct (fcompare_above _ _ _ Hy Hx) as [d ->]. destruct d; eauto.
Qed.

Lemma may_precede_iff (x y : chunk) :
  above_threshold x -> above_threshold y ->
  may_precede x y <->
  exists c, key_compare (sort_key x) (sort_key y) = Some c /\ c <> Gt.
Proof.
  intros Hx Hy. unfold may_precede.
  rewrite tuple_lt_key_compare, (key_compare_swap (sort_key x) (sort_key y)).
  destruct (key_compare_defined x y Hx Hy) as [c ->]. simpl.
  split.
  - intros H. exists c. split; [reflexivity|]. now destruct c.
  - intros (c' & E & N). injection E as <-. now destruct c.
Qed.

Lemma tuple_lt_asym (x y : chunk) :
  above_threshold x -> above_threshold y ->
  tuple_lt (sort_key x) (sort_key y) = true ->
  tuple_lt (sort_key y) (sort_key x) = false.
Proof.
  intros Hx Hy. rewrite !tuple_lt_key_compare.
  rewrite (key_compare_swap (sort_key x) (sort_key y)).
  destruct (key_compare (sort_key x) (sort_key y)) as [[]|]; simpl; congruence.
Qed.

Lemma may_precede_trans (x y z : chunk) :
  above_threshold x -> above_threshold y -> above_threshold z ->
  may_precede x y -> may_precede y z -> may_precede x z.
Proof.
  intros Hx Hy Hz Hxy Hyz.
  apply may_precede_iff in Hxy; auto. apply may_precede_iff in Hyz; auto.
  destruct Hxy as (c1 & E1 & N1), Hyz as (c2 & E2 & N2).
  apply may_precede_iff; auto.
  exists (follows c1 c2). split.
  - exact (key_compare_trans _ _ _ _ _ E1 E2 N1 N2).
  - destruct c1, c2; simpl; congruence.
Qed.

(** What standing before means for the similarities and the keys. *)
Lemma may_precede_order (x y : chunk) :
  above_threshold x -> above_threshold y -> may_precede x y ->
  (similarity y <? similarity x)%float = true \/
  ((similarity x =? similarity y)%float = true /\
   post_number y <= post_number x).
Proof.
  intros Hx Hy H. unfold may_precede in H.
  rewrite tuple_lt_key_compare, key_compare_chunks in H.
  rewrite ltb_fcompare, eqb_fcompare.
  rewrite (fcompare_swap (similarity x) (similarity y)).
  destruct (fcompare_above _ _ _ Hx Hy) as [d E]. rewrite E in *.
  destruct d; simpl in *; auto; try discriminate.
  right. split; [reflexivity|].
  destruct (Z.compare_spec (post_number x) (post_number y));
    try discriminate; lia.
Qed.

(** Entries fully tied with the same entry are not smaller than one
    another. *)
Lemma tied_not_lt (x0 a b : chunk) :
  tied x0 a = true -> tied x0 b = true ->
  tuple_lt (sort_key a) (sort_key b) = false.
Proof.
  unfold tied. rewrite !andb_true_iff, !eqb_fcompare, !Z.eqb_eq.
  intros [Ha Pa] [Hb Pb].
  rewrite tuple_lt_key_compare, key_compare_chunks.
  destruct (fcompare (similarity a) (similarity x0)) as [[]|] eqn:Ea;
    try discriminate.
  destruct (fcompare (similarity b) (similarity x0)) as [[]|] eqn:Eb;
    try discriminate.
  assert (Eb' : fcompare (similarity x0) (similarity a) = Some Eq).
  { rewrite (fcompare_swap (similarity a) (similarity x0)), Ea.
    reflexivity. }
  rewrite (fcompare_trans _ _ _ Eq Eq Eb Eb') by discriminate.
  simpl. rewrite Pa, Pb, Z.compare_refl. reflexivity.
Qed.

(** *** The scan of the two tables *)

Lemma scan_rows_entries (t : table) (q : vector) (rows : list row) :
  forall acc,
    scan_rows t q rows acc = acc ++ flat_map (entries t q) rows.
Proof.
  induction rows as [|r rows IH]; intros acc; cbn [scan_rows flat_map].
  - now rewrite app_nil_r.
  - rewrite IH. unfold entries.
    destruct (score_row t q r) as [[x|]|e]; cbn [app];
      now rewrite <- ?app_assoc.
Qed.

Lemma scan_tables_entries (c : conn) (q : vector) :
  scan_tables c q =
  flat_map (entries forum_table q) (select c forum_table)
    ++ flat_map (entries course_table q) (select c course_table).
Proof.
  unfold scan_tables. cbn [fold_left]. now rewrite !scan_rows_entries.
Qed.

(** When a row contributes an entry, and which. *)
Lemma score_row_some (t : table) (q : vector) (r : row) (x : chunk) :
  score_row t q r = Ok (Some x) <->
  exists emb key,
    row_embedding r = Encoded emb /\
    List.length emb = List.length q /\
    (SIMILARITY_THRESHOLD <=? cosine_similarity q emb)%float = true /\
    tie_break_key (row_url r) = Ok key /\
    x = {| source := source_of t; text := row_text r; url := row_url r;
           similarity := cosine_similarity q emb; post_number := key |}.
Proof.
  unfold score_row. split.
  - destruct (row_embedding r) as [emb|]; cbn [json_loads bind];
      [|discriminate].
    destruct (Nat.eqb (List.length emb) (List.length q)) eqn:El;
      cbn [negb]; [|discriminate].
    destruct (SIMILARITY_THRESHOLD <=? cosine_similarity q emb)%float eqn:Es;
      [|discriminate].
    destruct (tie_break_key (row_url r)) as [key|e]; cbn [bind];
      [|discriminate].
    intros H. injection H as <-. apply Nat.eqb_eq in El.
    exists emb, key. auto.
  - intros (emb & key & -> & El & Es & Ek & ->). cbn [json_loads bind].
    apply Nat.eqb_eq in El. rewrite El, Es, Ek. reflexivity.
Qed.

Lemma entries_above (t : table) (q : vector) (r : row) (x : chunk) :
  In x (entries t q r) -> above_threshold x /\ source x = source_of t.
Proof.
  unfold entries. destruct (score_row t q r) as [[y|]|e] eqn:E;
    try contradiction.
  intros [<-|[]]. apply score_row_some in E.
  destruct E as (emb & key & _ & _ & Es & _ & ->). auto.
Qed.

Lemma scan_tables_above (c : conn) (q : vector) :
  Forall above_threshold (scan_tables c q).
Proof.
  rewrite scan_tables_entries. apply Forall_app.
  split; apply Forall_forall; intros x Hx; apply in_flat_map in Hx;
    destruct Hx as (r & _ & Hx); now apply entries_above in Hx.
Qed.

Lemma up_to_nonneg {A : Type} (k : Z) (l : list A) :
  0 <= k -> up_to k l = firstn (Z.to_nat k) l.
Proof.
  intros Hk. unfold up_to, clamp.
  destruct (k <? 0) eqn:E; [apply Z.ltb_lt in E; lia|].
  destruct (Z.le_gt_cases k (Z.of_nat (List.length l))).
  - now rewrite Z.min_l.
  - rewrite Z.min_r, Nat2Z.id by lia.
    rewrite firstn_all. symmetry. apply firstn_all2. lia.
Qed.

Lemma up_to_prefix {A : Type} (k : Z) (l : list A) :
  exists rest, l = up_to k l ++ rest.
Proof.
  unfold up_to. eexists. symmetry. apply firstn_skipn.
Qed.

(** The whole list of [sorted(all_chunks, ...)] is in order. *)
Lemma ranked_sorted (c : conn) (q : vector) :
  StronglySorted may_precede (sorted sort_key tuple_lt (scan_tables c q)).
Proof.
  apply (sorted_sorted sort_key tuple_lt above_threshold).
  - apply tuple_lt_asym.
  - apply may_precede_trans.
  - apply scan_tables_above.
Qed.

(** Which entries the sorted list holds: the ones of the rows, of either
    table, whose embedding is read, has the dimension of the query and a
    similarity at or above the threshold, and whose tie-break key is
    computed without an error. *)
Lemma ranked_membership (c : conn) (q : vector) (x : chunk) :
  In x (sorted sort_key tuple_lt (scan_tables c q)) <->
  exists t r emb key,
    In r (select c t) /\
    row_embedding r = Encoded emb /\
    List.length emb = List.length q /\
    (SIMILARITY_THRESHOLD <=? cosine_similarity q emb)%float = true /\
    tie_break_key (row_url r) = Ok key /\
    x = {| source := source_of t; text := row_text r; url := row_url r;
           similarity := cosine_similarity q emb; post_number := key |}.
Proof.
  assert (Hentries : forall t r, In x (entries t q r) <->
                       score_row t q r = Ok (Some x)).
  { intros t r. unfold entries.
    destruct (score_row t q r) as [[y|]|e]; simpl; split;
      try contradiction; try discriminate.
    - intros [->|[]]. reflexivity.
    - intros H. injection H as ->. now left. }
  split.
  - intros H. apply (Permutation_in _ (sorted_perm _ _ _)) in H.
    rewrite scan_tables_entries in H. apply in_app_or in H.
    destruct H as [H|H]; apply in_flat_map in H; destruct H as (r & Hr & H);
      apply Hentries, score_row_some in H;
      destruct H as (emb & key & H); eauto 10.
  - intros (t & r & emb & key & Hr & H).
    apply (Permutation_in _ (Permutation_sym (sorted_perm _ _ _))).
    rewrite scan_tables_entries. apply in_or_app.
    assert (Hx : In x (entries t q r)).
    { apply Hentries, score_row_some. eauto. }
    destruct t; [left | right]; apply in_flat_map; eauto.
Qed.

Lemma default_top_k : MAX_RESULTS = 50.
Proof. reflexivity. Qed.

(** *** A small store *)

Definition forum_sample (n : Z) (v : vector) : forum_row :=
  {| f_chunk_id := "f" ++ str n; f_post_id := 100 + n; f_post_number := n;
     f_topic_id := 7; f_topic_title := "topic"; f_author := "author";
     f_url := Some ("https://discourse.onlinedegree.iitm.ac.in/t/7/" ++ str n)%string;
     f_text := "post " ++ str n; f_embedding := Encoded v |}.

Definition course_sample (u : option string) (v : vector) : course_row :=
  {| c_chunk_id := "c"; c_source_file := "doc.md"; c_section_title := "";
     c_url := u; c_text := "notes"; c_embedding := Encoded v |}.

Definition sample_db : conn :=
  {| forum_chunks :=
       [forum_sample 1 [1; 0]%float; forum_sample 2 [2; 0]%float;
        forum_sample 3 [1; 1]%float; forum_sample 4 [0; 1]%float;
        forum_sample 5 [1; 0; 0]%float];
     course_chunks :=
       [course_sample (Some "https://c/notes"%string) [3; 0]%float;
        course_sample (Some "https://c/2"%string) [4; 0]%float];
     uuids_drawn := 7 |}.

Definition sample_embedding : string -> res vector :=
  fun _ => Ok [1; 0]%float.

(** The entry of the second forum row: the second course row ties with it. *)
Definition tie_sample : chunk :=
  {| source := "forum"; text := "post 2";
     url := Some "https://discourse.onlinedegree.iitm.ac.in/t/7/2"%string;
     similarity := 1%float; post_number := 2 |}.

Example rank_sample :
  map (fun x => (source x, url x, post_number x))
    (rank sample_db [1; 0]%float 4) =
  [("forum", Some "https://discourse.onlinedegree.iitm.ac.in/t/7/2", 2);
   ("course", Some "https://c/2", 2);
   ("forum", Some "https://discourse.onlinedegree.iitm.ac.in/t/7/1", 1);
   ("course", Some "https://c/notes", 0)]%string.
Proof. reflexivity. Qed.

(** C2. What [retrieve_similar_chunks] returns for a count [top_k >= 0]
    has at most [top_k] entries: it is the first [top_k] entries of the
    sorted list of all the entries that passed the filter. Of two entries
    of the result, the one that stands first has the larger similarity,
    or the same similarity and a tie-break key at least as large. *)
Theorem retrieve_sorted_and_truncated (get_embedding : string -> res vector)
  (c : conn) (question : string) (top_k : Z) (out : list chunk) :
  0 <= top_k ->
  retrieve_similar_chunks get_embedding c question top_k = Ok out ->
  Z.of_nat (List.length out) <= top_k /\
  (exists q,
     get_embedding question = Ok q /\
     out = firstn (Z.to_nat top_k) (sorted sort_key tuple_lt (scan_tables c q)) /\
     Permutation (sorted sort_key tuple_lt (scan_tables c q)) (scan_tables c q)) /\
  (forall l1 x l2 y l3,
     out = l1 ++ x :: l2 ++ y :: l3 ->
     (similarity y <? similarity x)%float = true \/
     ((similarity x =? similarity y)%float = true /\
      post_number y <= post_number x)).
Proof.
  intros Hk. unfold retrieve_similar_chunks.
  destruct (get_embedding question) as [q|e]; cbn [bind]; [|discriminate].
  intros H. injection H as <-. unfold rank. rewrite (up_to_nonneg _ _ Hk).
  set (ranked := sorted sort_key tuple_lt (scan_tables c q)).
  assert (Hperm : Permutation ranked (scan_tables c q)) by apply sorted_perm.
  split; [|split].
  - pose proof (firstn_le_length (Z.to_nat top_k) ranked). lia.
  - exists q. auto.
  - intros l1 x l2 y l3 Hout.
    assert (Hranked : ranked = l1 ++ x :: l2 ++ y :: (l3 ++ skipn (Z.to_nat top_k) ranked)).
    { rewrite <- (firstn_skipn (Z.to_nat top_k) ranked) at 1.
      rewrite Hout, <- !app_assoc. cbn [app]. rewrite <- !app_assoc.
      reflexivity. }
    assert (Hin : forall z, In z ranked -> above_threshold z).
    { intros z Hz. pose proof (scan_tables_above c q) as Hall.
      rewrite Forall_forall in Hall. apply Hall.
      now apply (Permutation_in _ Hperm). }
    apply may_precede_order.
    + apply Hin. rewrite Hranked. apply in_or_app. right. now left.
    + apply Hin. rewrite Hranked. apply in_or_app. right. right.
      apply in_or_app. right. now left.
    + exact (sorted_precedes sort_key tuple_lt ranked _ _ _ _ _
               (ranked_sorted c q) Hranked).
Qed.

Lemma retrieve_sorted_and_truncated_witness :
  Z.of_nat (List.length (rank sample_db [1; 0]%float 2)) <= 2 /\
  (exists q,
     sample_embedding "which post?" = Ok q /\
     rank sample_db [1; 0]%float 2 =
     firstn (Z.to_nat 2) (sorted sort_key tuple_lt (scan_tables sample_db q)) /\
     Permutation (sorted sort_key tuple_lt (scan_tables sample_db q))
       (scan_tables sample_db q)) /\
  (forall l1 x l2 y l3,
     rank sample_db [1; 0]%float 2 = l1 ++ x :: l2 ++ y :: l3 ->
     (similarity y <? similarity x)%float = true \/
     ((similarity x =? similarity y)%float = true /\
      post_number y <= post_number x)).
Proof.
  apply (retrieve_sorted_and_truncated sample_embedding sample_db
           "which post?" 2 (rank sample_db [1; 0]%float 2));
    [lia | reflexivity].
Defined.

(** C10. The result depends on the store, the embedding of the question
    and [top_k] only. It is a prefix of the sorted list, in which the
    entries fully tied with a given one stand as the scan met them: those
    of the forum table in the order of its rows, then those of the course
    table in the order of its rows. *)
Theorem retrieve_ties_in_scan_order (get_embedding : string -> res vector)
  (c : conn) (question : string) (q : vector) (top_k : Z) (x0 : chunk) :
  get_embedding question = Ok q ->
  (forall get_embedding', get_embedding' question = Ok q ->
     retrieve_similar_chunks get_embedding' c question top_k =
     retrieve_similar_chunks get_embedding c question top_k) /\
  exists ranked rest,
    retrieve_similar_chunks get_embedding c question top_k
    = Ok (up_to top_k ranked) /\
    ranked = up_to top_k ranked ++ rest /\
    filter (tied x0) ranked =
    filter (tied x0) (flat_map (entries forum_table q) (select c forum_table))
      ++ filter (tied x0)
           (flat_map (entries course_table q) (select c course_table)) /\
    Forall (fun x => source x = "forum"%string)
      (flat_map (entries forum_table q) (select c forum_table)) /\
    Forall (fun x => source x = "course"%string)
      (flat_map (entries course_table q) (select c course_table)).
Proof.
  intros Hq. split.
  - intros g Hg. unfold retrieve_similar_chunks. now rewrite Hq, Hg.
  - destruct (up_to_prefix top_k (sorted sort_key tuple_lt (scan_tables c q)))
      as [rest Hrest].
    exists (sorted sort_key tuple_lt (scan_tables c q)), rest.
    split; [|split; [exact Hrest|split; [|split]]].
    + unfold retrieve_similar_chunks. now rewrite Hq.
    + rewrite (sorted_filter_class sort_key tuple_lt (tied x0) _
                 (tied_not_lt x0)).
      now rewrite scan_tables_entries, filter_app.
    + apply Forall_forall. intros x Hx. apply in_flat_map in Hx.
      destruct Hx as (r & _ & Hx). now apply entries_above in Hx.
    + apply Forall_forall. intros x Hx. apply in_flat_map in Hx.
      destruct Hx as (r & _ & Hx). now apply entries_above in Hx.
Qed.

Lemma retrieve_ties_in_scan_order_witness :
  (forall get_embedding', get_embedding' "which post?"%string = Ok [1; 0]%float ->
     retrieve_similar_chunks get_embedding' sample_db "which post?" 3 =
     retrieve_similar_chunks sample_embedding sample_db "which post?" 3) /\
  exists ranked rest,
    retrieve_similar_chunks sample_embedding sample_db "which post?" 3
    = Ok (up_to 3 ranked) /\
    ranked = up_to 3 ranked ++ rest /\
    filter (tied tie_sample) ranked =
    filter (tied tie_sample)
      (flat_map (entries forum_table [1; 0]%float) (select sample_db forum_table))
      ++ filter (tied tie_sample)
           (flat_map (entries course_table [1; 0]%float)
              (select sample_db course_table)) /\
    Forall (fun x => source x = "forum"%string)
      (flat_map (entries forum_table [1; 0]%float) (select sample_db forum_table)) /\
    Forall (fun x => source x = "course"%string)
      (flat_map (entries course_table [1; 0]%float)
         (select sample_db course_table)).
Proof.
  apply (retrieve_ties_in_scan_order sample_embedding sample_db "which post?"
           [1; 0]%float 3 tie_sample).
  reflexivity.
Defined.

Example rank_sample_ties :
  map source (filter (tied tie_sample) (rank sample_db [1; 0]%float 50))
  = ["forum"; "course"]%string.
Proof. reflexivity. Qed.

(** *** Rows without a usable URL *)

(** The store after the ingestion of one course file that has no front
    matter: its row has no URL. *)
Definition urlless_db : conn :=
  snd (main IngestFacts.one_vector (fun _ => "id"%string) []
         [("markdown_files/plain.md", "Plain notes, no front matter.")%string]).

Example urlless_db_rows :
  map (fun r => (c_url r, c_text r, c_embedding r)) (course_chunks urlless_db)
  = [(None, "Plain notes, no front matter."%string, Encoded [1%float])] /\
  forum_chunks urlless_db = [].
Proof. split; reflexivity. Qed.

(** C1, at the input on which the code departs from it. The one chunk of
    [urlless_db] has the dimension of the query and cosine similarity 1 to
    it, above the threshold, and yet the result is empty: the row has no
    URL, the computation of its tie-break key raises, and the row is
    skipped. *)
Theorem urlless_chunk_not_retrieved :
  let q := [1%float] in
  Forall (fun r => exists emb,
            row_embedding r = Encoded emb /\
            List.length emb = List.length q /\
            (SIMILARITY_THRESHOLD <=? cosine_similarity q emb)%float = true)
    (select urlless_db course_table) /\
  select urlless_db course_table <> [] /\
  scan_tables urlless_db q = [] /\
  retrieve_similar_chunks (fun _ => Ok q) urlless_db "plain notes?"
    MAX_RESULTS = Ok [].
Proof.
  cbv zeta. split; [|split; [|split]].
  - repeat constructor. exists [1%float]. repeat split; reflexivity.
  - discriminate.
  - reflexivity.
  - reflexivity.
Qed.

(** C5, at the inputs on which the code departs from it. A numeric
    trailing segment is the key and another segment gives 0, but an absent
    URL gives no key: the expression raises and the row, although its
    similarity passed the filter, contributes no entry. The same happens
    when the trailing segment is a superscript digit, which [isdigit]
    accepts and [int] refuses. *)
Theorem tie_break_key_of_urls :
  tie_break_key (Some "https://discourse.onlinedegree.iitm.ac.in/t/7/12/"%string)
  = Ok 12 /\
  tie_break_key (Some "https://c/notes"%string) = Ok 0 /\
  tie_break_key None = Raise AttributeError /\
  tie_break_key (Some (String.append "https://c/" (String (ascii_of_nat 178) EmptyString)))
  = Raise ValueError /\
  score_row course_table [1%float]
    {| row_url := None; row_text := "notes"; row_embedding := Encoded [1%float] |}
  = Raise AttributeError /\
  entries course_table [1%float]
    {| row_url := None; row_text := "notes"; row_embedding := Encoded [1%float] |}
  = [].
Proof. repeat split; reflexivity. Qed.

End RetrievalFacts.

(** ** The citation pattern *)

Module RegexFacts.

Import PyStr PyStrFacts Regex.

Local Open Scope string_scope.

(** The text after a repetition does not go on with its class. *)
Definition stops (cls : ascii -> bool) (rest : string) : bool :=
  match rest with
  | EmptyString => true
  | String c _ => negb (cls c)
  end.

(** A repetition takes the whole run when the rest of the pattern matches
    after it. *)
Lemma rep_whole_run {R : Type} (cls : ascii -> bool) (least : nat)
  (k : string -> string -> option R) (w rest : string) (r : R) :
  all cls w = true -> stops cls rest = true ->
  forall n acc,
    (least <= n + String.length w)%nat ->
    k (acc ++ w) rest = Some r ->
    rep cls least k n acc (w ++ rest) = Some r.
Proof.
  intros Hw Hrest. induction w as [|c w IH]; intros n acc Hn Hk.
  - rewrite append_nil_r in Hk. simpl in Hn. rewrite Nat.add_0_r in Hn.
    apply Nat.leb_le in Hn.
    destruct rest as [|d rest]; cbn [append rep]; rewrite Hn; [exact Hk|].
    cbn [stops] in Hrest. apply negb_true_iff in Hrest. now rewrite Hrest.
  - cbn [all] in Hw. apply andb_true_iff in Hw. destruct Hw as [Hc Hw].
    cbn [append rep]. rewrite Hc.
    rewrite (IH Hw (S n) (acc ++ String c EmptyString)); [reflexivity | |].
    + simpl in Hn. lia.
    + rewrite append_assoc. exact Hk.
Qed.

(** A repetition gives its last character back when the rest of the
    pattern fails after the whole run and matches one character earlier. *)
Lemma rep_gives_back {R : Type} (cls : ascii -> bool) (least : nat)
  (k : string -> string -> option R) (w : string) (c : ascii)
  (rest : string) (r : R) :
  all cls w = true -> cls c = true -> stops cls rest = true ->
  forall n acc,
    (least <= n + String.length w)%nat ->
    k (acc ++ w ++ String c EmptyString) rest = None ->
    k (acc ++ w) (String c rest) = Some r ->
    rep cls least k n acc (w ++ String c rest) = Some r.
Proof.
  intros Hw Hc Hrest. induction w as [|d w IH]; intros n acc Hn Hfail Hk.
  - rewrite append_nil_r in Hk. simpl in Hn. rewrite Nat.add_0_r in Hn.
    apply Nat.leb_le in Hn. cbn [append] in *.
    cbn [rep]. rewrite Hc.
    assert (Hin : rep cls least k (S n) (acc ++ String c EmptyString) rest
                  = None).
    { destruct rest as [|e rest]; cbn [rep].
      - rewrite Hfail. now destruct (least <=? S n)%nat.
      - cbn [stops] in Hrest. apply negb_true_iff in Hrest. rewrite Hrest.
        rewrite Hfail. now destruct (least <=? S n)%nat. }
    rewrite Hin, Hn. exact Hk.
  - cbn [all] in Hw. apply andb_true_iff in Hw. destruct Hw as [Hd Hw].
    cbn [append rep]. rewrite Hd.
    rewrite (IH Hw (S n) (acc ++ String d EmptyString)); [reflexivity | | |].
    + simpl in Hn. lia.
    + rewrite append_assoc. exact Hfail.
    + rewrite append_assoc. exact Hk.
Qed.

Lemma space_is_no_comma (c : ascii) :
  isspace c = true -> Ascii.eqb "," c = false.
Proof.
  intros H. destruct (Ascii.eqb "," c) eqn:E; [|reflexivity].
  apply Ascii.eqb_eq in E. subst c. discriminate.
Qed.

Lemma match_lit (l : string) (p : list atom) (caps : list string)
  (s : string) :
  match_here (Lit l :: p) caps (l ++ s) = match_here p caps s.
Proof.
  cbn [match_here]. now rewrite startswith_append, drop_append.
Qed.

Lemma match_lit_fails (l : string) (p : list atom) (caps : list string)
  (s : string) :
  startswith l s = false -> match_here (Lit l :: p) caps s = None.
Proof. intros H. cbn [match_here]. now rewrite H. Qed.

Lemma match_rep_run (cls : ascii -> bool) (least : nat) (group : bool)
  (p : list atom) (caps : list string) (w rest : string)
  (r : list string * string) :
  all cls w = true -> stops cls rest = true ->
  (least <= String.length w)%nat ->
  match_here p (if group then (caps ++ [w])%list else caps) rest = Some r ->
  match_here (Rep cls least group :: p) caps (w ++ rest) = Some r.
Proof.
  intros Hw Hrest Hn Hk. cbn [match_here].
  apply rep_whole_run; auto.
Qed.

Lemma match_rep_back (cls : ascii -> bool) (least : nat) (group : bool)
  (p : list atom) (caps : list string) (w : string) (c : ascii)
  (rest : string) (r : list string * string) :
  all cls w = true -> cls c = true -> stops cls rest = true ->
  (least <= String.length w)%nat ->
  match_here p (if group then (caps ++ [(w ++ String c EmptyString)%string])%list else caps)
    rest = None ->
  match_here p (if group then (caps ++ [w])%list else caps) (String c rest)
  = Some r ->
  match_here (Rep cls least group :: p) caps (w ++ String c rest) = Some r.
Proof.
  intros Hw Hc Hrest Hn Hfail Hk. cbn [match_here].
  apply rep_gives_back; auto.
Qed.

(** The pattern on a citation: the URL is the token before the comma and
    the text runs to the end of the line. *)
Lemma match_citation (ws1 tok ws2 ws3 body rest : string) :
  all isspace ws1 = true ->
  truthy tok = true -> all nonspace tok = true ->
  truthy ws2 = true -> all isspace ws2 = true ->
  all isspace ws3 = true ->
  match body with String c _ => nonspace c | EmptyString => false end = true ->
  all dot_char body = true ->
  stops dot_char rest = true ->
  match_here citation_pattern []
    ("URL:" ++ ws1 ++ tok ++ "," ++ ws2 ++ "Text:" ++ ws3 ++ body ++ rest)
  = Some ([tok; body], rest).
Proof.
  intros Hws1 Htok Htoks Hws2 Hws2s Hws3 Hbody Hbodys Hrest.
  unfold citation_pattern. rewrite match_lit.
  apply match_rep_run; [assumption | | lia |].
  { destruct tok as [|t0 tok']; [discriminate|]. cbn [append stops].
    cbn [all] in Htoks. apply andb_true_iff in Htoks.
    destruct Htoks as [H0 _]. exact H0. }
  destruct ws2 as [|s0 ws2']; [discriminate|].
  cbn [all] in Hws2s. apply andb_true_iff in Hws2s.
  destruct Hws2s as [Hs0 Hws2'].
  change ("," ++ String s0 ws2' ++ "Text:" ++ ws3 ++ body ++ rest)
    with (String "," (String s0 ws2' ++ "Text:" ++ ws3 ++ body ++ rest)).
  apply match_rep_back; [assumption | reflexivity | | | |].
  { cbn [append stops]. unfold nonspace. now rewrite Hs0. }
  { destruct tok; [discriminate | simpl; lia]. }
  { apply match_lit_fails. cbn [append startswith].
    now rewrite (space_is_no_comma s0 Hs0). }
  change (String "," (String s0 ws2' ++ "Text:" ++ ws3 ++ body ++ rest))
    with ("," ++ String s0 ws2' ++ "Text:" ++ ws3 ++ body ++ rest).
  rewrite match_lit.
  apply match_rep_run;
    [cbn [all]; now rewrite Hs0 | reflexivity | simpl; lia |].
  rewrite match_lit.
  apply match_rep_run; [assumption | | lia |].
  { destruct body as [|b0 body']; [discriminate|]. cbn [append stops].
    exact Hbody. }
  apply match_rep_run; [assumption | assumption | lia |].
  reflexivity.
Qed.
End RegexFacts.

(** ** The query endpoint *)

Module EndpointFacts.

Import PyStr PyStrFacts Embedding Ingest Retrieval Regex RegexFacts Endpoint.

Local Open Scope string_scope.

(** *** Splitting at the marker *)

Lemma split_once_unfold (sep s : string) :
  split_once sep s =
  if startswith sep s then Some (EmptyString, drop (String.length sep) s)
  else
    match s with
    | EmptyString => None
    | String c s' =>
        match split_once sep s' with
        | Some (a, b) => Some (String c a, b)
        | None => None
        end
    end.
Proof. destruct s; reflexivity. Qed.

Lemma split_once_none_suffix (sep a1 a2 : string) :
  split_once sep (a1 ++ a2) = None -> startswith sep a2 = false.
Proof.
  induction a1 as [|c a1 IH]; cbn [append]; rewrite split_once_unfold.
  - destruct (startswith sep a2); [discriminate | reflexivity].
  - destruct (startswith sep (String c (a1 ++ a2))); [discriminate|].
    destruct (split_once sep (a1 ++ a2)) as [[a b]|]; [discriminate|].
    intros _. now apply IH.
Qed.

(** *** Scanning the text between two citations *)

(** The character after a text without [URL:] does not complete one. *)
Definition boundary (rest : string) : bool :=
  match rest with
  | EmptyString => true
  | String c _ => negb (mem c "RL:")
  end.

Lemma marker_not_across (junk rest : string) :
  contains "URL:" junk = false -> boundary rest = true ->
  forall a1 a2, junk = a1 ++ a2 -> a2 <> EmptyString ->
    startswith "URL:" (a2 ++ rest) = false.
Proof.
  intros Hj Hb a1 a2 -> Hne.
  assert (H2 : startswith "URL:" a2 = false).
  { apply (split_once_none_suffix _ a1). unfold contains in Hj.
    now destruct (split_once "URL:" (a1 ++ a2)). }
  destruct a2 as [|c1 [|c2 [|c3 [|c4 a2]]]]; [congruence| | | |];
    cbn [append].
  4: exact H2.
  all: destruct rest as [|d rest]; cbn [startswith];
    [now rewrite ?andb_false_r|].
  all: cbn [boundary mem] in Hb; apply negb_true_iff in Hb;
    apply orb_false_iff in Hb; destruct Hb as [HR Hb];
    apply orb_false_iff in Hb; destruct Hb as [HL Hb];
    apply orb_false_iff in Hb; destruct Hb as [HC _];
    rewrite Ascii.eqb_sym in HR, HL, HC.
  - now rewrite HR, ?andb_false_r.
  - now rewrite HL, ?andb_false_r.
  - now rewrite HC, ?andb_false_r.
Qed.

Lemma no_citation_here (s : string) :
  startswith "URL:" s = false -> match_here citation_pattern [] s = None.
Proof. apply match_lit_fails. Qed.

Lemma skip_unmarked (junk rest : string) :
  (forall a1 a2, junk = a1 ++ a2 -> a2 <> EmptyString ->
     startswith "URL:" (a2 ++ rest) = false) ->
  forall fuel,
    finditer_from (String.length junk + fuel) citation_pattern (junk ++ rest)
    = finditer_from fuel citation_pattern rest.
Proof.
  induction junk as [|c junk IH]; intros H fuel; [reflexivity|].
  cbn [String.length Nat.add append finditer_from].
  rewrite no_citation_here.
  - apply IH. intros a1 a2 -> Hne. now apply (H (String c a1) a2).
  - apply (H EmptyString (String c junk)); [reflexivity | discriminate].
Qed.

(** *** A well-formed sources section *)

Definition groups_of (l : source_line) : list (list string) :=
  match l with
  | Cite _ _ tok _ _ body => [[tok; body]]
  | Other _ => []
  end.

(** What follows the first of several lines. *)
Definition tail_of (more : list source_line) : string :=
  match more with
  | [] => EmptyString
  | _ :: _ => newline ++ join newline (map render more)
  end.

Lemma join_render_cons (l : source_line) (more : list source_line) :
  join newline (map render (l :: more)) = render l ++ tail_of more.
Proof.
  destruct more; cbn [map join tail_of]; [now rewrite append_nil_r|].
  reflexivity.
Qed.

Lemma finditer_sources (lines : list source_line) :
  forallb well_formed lines = true ->
  forall fuel,
    (String.length (join newline (map render lines)) < fuel)%nat ->
    finditer_from fuel citation_pattern (join newline (map render lines))
    = flat_map groups_of lines.
Proof.
  induction lines as [|l more IH]; intros Hwf fuel Hf.
  - destruct fuel; [lia | reflexivity].
  - cbn [forallb] in Hwf. apply andb_true_iff in Hwf.
    destruct Hwf as [Hl Hmore].
    rewrite join_render_cons in *. rewrite length_append in Hf.
    assert (Htail : forall f, (String.length (tail_of more) < f)%nat ->
              finditer_from f citation_pattern (tail_of more)
              = flat_map groups_of more).
    { intros f Hlt. destruct more as [|l' more'].
      - destruct f; [lia | reflexivity].
      - cbn [tail_of] in *. destruct f; [lia|].
        change (newline ++ join newline (map render (l' :: more')))
          with (String (ascii_of_nat 10) (join newline (map render (l' :: more'))))
          in *.
        cbn [finditer_from]. rewrite no_citation_here by reflexivity.
        apply IH; [assumption|]. cbn [String.length] in Hlt. lia. }
    assert (Hstop : stops dot_char (tail_of more) = true)
      by (destruct more; reflexivity).
    assert (Hbound : boundary (tail_of more) = true)
      by (destruct more; reflexivity).
    destruct l as [junk ws1 tok ws2 ws3 body | text].
    + cbn [well_formed] in Hl. repeat rewrite andb_true_iff in Hl.
      destruct Hl as ((((((((Hj & H1) & Ht) & Hts) & H2) & H2s) & H3) & Hb) & Hbs).
      apply negb_true_iff in Hj.
      cbn [render flat_map groups_of] in *. rewrite !append_assoc in *.
      rewrite length_append in Hf.
      replace fuel with (String.length junk + (fuel - String.length junk))%nat
        by lia.
      rewrite skip_unmarked
        by (apply marker_not_across; [assumption | reflexivity]).
      destruct (fuel - String.length junk)%nat as [|f] eqn:Ef; [lia|].
      cbn [finditer_from]. rewrite ?append_assoc.
      rewrite match_citation by assumption.
      cbn [app]. f_equal. apply Htail.
      repeat (rewrite length_append in Hf; cbn [String.length] in Hf). lia.
    + cbn [well_formed] in Hl. apply negb_true_iff in Hl.
      cbn [render flat_map groups_of app] in *.
      replace fuel with (String.length text + (fuel - String.length text))%nat
        by lia.
      rewrite skip_unmarked by (now apply marker_not_across).
      apply Htail. lia.
Qed.

(** The citations of a well-formed sources section: one for each citation
    line, in the order of the lines. *)
Lemma links_of_sources (lines : list source_line) :
  forallb well_formed lines = true ->
  links_of (join newline (map render lines)) = flat_map citation_of lines.
Proof.
  intros Hwf. unfold links_of, finditer.
  rewrite (finditer_sources lines Hwf) by lia.
  induction lines as [|l more IH]; [reflexivity|].
  cbn [forallb] in Hwf. apply andb_true_iff in Hwf. destruct Hwf as [Hl Hmore].
  cbn [flat_map]. rewrite flat_map_app, (IH Hmore). f_equal.
  destruct l as [junk ws1 tok ws2 ws3 body | text]; [|reflexivity].
  cbn [well_formed] in Hl. repeat rewrite andb_true_iff in Hl.
  destruct Hl as ((((((((_ & _) & _) & Hts) & _) & _) & _) & _) & _).
  cbn [groups_of flat_map link_of citation_of app].
  unfold strip at 1. now rewrite (strip_by_none isspace tok Hts).
Qed.

(** *** The answer of the model, parsed *)

Lemma startswith_within (p x y : string) :
  (String.length p <= String.length x)%nat ->
  startswith p (x ++ y) = startswith p x.
Proof.
  revert x; induction p as [|c p IH]; intros x Hl; [reflexivity|].
  destruct x as [|d x]; [simpl in Hl; lia|].
  cbn [append startswith]. rewrite IH; [reflexivity | simpl in Hl; lia].
Qed.

Lemma split_once_at (sep a b : string) :
  (forall a1 a2, a = a1 ++ a2 -> a2 <> EmptyString ->
     startswith sep (a2 ++ sep ++ b) = false) ->
  split_once sep (a ++ sep ++ b) = Some (a, b).
Proof.
  induction a as [|c a IH]; intros H; rewrite split_once_unfold.
  - cbn [append]. now rewrite startswith_append, drop_append.
  - rewrite (H EmptyString (String c a)); [|reflexivity|discriminate].
    cbn [append]. rewrite IH; [reflexivity|].
    intros a1 a2 -> Hne. now apply (H (String c a1) a2).
Qed.

(** The marker that follows [a] is the first one when none starts inside
    [a]. *)
Lemma split_at_first_marker (a b : string) :
  contains "Sources:" (a ++ "Sources") = false ->
  split_once "Sources:" (a ++ "Sources:" ++ b) = Some (a, b).
Proof.
  intros H. apply split_once_at. intros a1 a2 -> Hne.
  change ("Sources:" ++ b) with ("Sources" ++ ":" ++ b).
  rewrite <- append_assoc. rewrite startswith_within.
  - apply (split_once_none_suffix _ a1). rewrite <- append_assoc.
    unfold contains in H.
    now destruct (split_once "Sources:" ((a1 ++ a2) ++ "Sources")).
  - rewrite length_append. destruct a2; [congruence | simpl; lia].
Qed.

(** C4, as stated, fails: the pattern is searched in the whole sources
    section and its white space may cross the end of a line. A line that
    the pattern matches with an empty text takes the next line as its text,
    so two matching lines give one citation; and a citation can come from
    two lines neither of which the pattern matches. *)
Lemma citations_cross_lines :
  (let line1 := "1. URL: http://a, Text:" in
   let line2 := "2. URL: http://b, Text: y" in
   finditer citation_pattern line1 = [["http://a"; ""]] /\
   finditer citation_pattern line2 = [["http://b"; "y"]] /\
   links (parse_response ("Answer. Sources:" ++ newline ++ line1 ++ newline ++ line2))
   = [{| link_url := "http://a"; link_text := "2. URL: http://b, Text: y" |}]) /\
  (let line1 := "URL:" in
   let line2 := "http://a, Text: x" in
   finditer citation_pattern line1 = [] /\
   finditer citation_pattern line2 = [] /\
   links (parse_response ("Answer. Sources:" ++ newline ++ line1 ++ newline ++ line2))
   = [{| link_url := "http://a"; link_text := "x" |}]).
Proof. repeat split; reflexivity. Qed.

(** C4, amended. The response is split at the first [Sources:]: the answer
    is what stands before it, trimmed, and a response without the marker is
    all answer and has no citation. When the lines of the sources section
    are well formed, each citation line gives one citation, made of its
    URL and of its text trimmed, in the order of the lines, and the other
    lines give none. *)
Theorem parse_response_citations (a : string) (lines : list source_line) :
  contains "Sources:" (a ++ "Sources") = false ->
  forallb well_formed lines = true ->
  parse_response (a ++ "Sources:" ++ join newline (map render lines))
  = {| answer := strip a; links := flat_map citation_of lines |} /\
  (forall out, contains "Sources:" out = false ->
     parse_response out = {| answer := strip out; links := [] |}).
Proof.
  intros Ha Hwf. split.
  - unfold parse_response. rewrite (split_at_first_marker a _ Ha).
    now rewrite (links_of_sources lines Hwf).
  - intros out Hout. unfold parse_response, contains in *.
    destruct (split_once "Sources:" out); [discriminate | reflexivity].
Qed.

(** The example of the specification: two citation lines after the
    marker. *)
Definition example_lines : list source_line :=
  [Other "";
   Cite "1. " " " "http://a" " " " " (dquote ++ "x" ++ dquote);
   Cite "2. " " " "http://b" " " " " (dquote ++ "y" ++ dquote)].

Lemma parse_response_citations_witness :
  parse_response
    (("1. Use the forum." ++ newline ++ newline) ++ "Sources:"
     ++ join newline (map render example_lines))
  = {| answer := strip ("1. Use the forum." ++ newline ++ newline);
       links := flat_map citation_of example_lines |} /\
  (forall out, contains "Sources:" out = false ->
     parse_response out = {| answer := strip out; links := [] |}).
Proof.
  apply (parse_response_citations
           ("1. Use the forum." ++ newline ++ newline) example_lines);
    reflexivity.
Defined.

Example parse_response_example :
  parse_response
    ("1. Use the forum." ++ newline ++ newline ++ "Sources:" ++ newline
     ++ "1. URL: http://a, Text: " ++ dquote ++ "x" ++ dquote ++ newline
     ++ "2. URL: http://b, Text: " ++ dquote ++ "y" ++ dquote)
  = {| answer := "1. Use the forum.";
       links := [{| link_url := "http://a"; link_text := dquote ++ "x" ++ dquote |};
                 {| link_url := "http://b"; link_text := dquote ++ "y" ++ dquote |}] |}.
Proof. reflexivity. Qed.

(** *** The request without grounding *)

Lemma completion_calls_app (made : list call) (c : call) :
  completion_calls (made ++ [c])%list =
  (completion_calls made
   + match c with CompletionCall _ => 1 | _ => 0 end)%nat.
Proof.
  unfold completion_calls. rewrite filter_app, length_app.
  destruct c; reflexivity.
Qed.

(** C3. A request whose retrieval returns no chunk is answered with the
    fixed refusal and no citation, and makes no call of the generative
    model; a request whose retrieval returns at least one chunk calls the
    generative model exactly once. *)
Theorem refusal_without_completion (sv : services) (db : conn)
  (req : QueryRequest) (made : list call) (chunks : list chunk) :
  retrieve_similar_chunks (embeddings_create sv) db (question req) MAX_RESULTS
  = Ok chunks ->
  (chunks = [] ->
   fst (query_virtual_ta sv db req made)
   = Ok {| answer := "I couldn't find relevant content."; links := [] |} /\
   completion_calls (snd (query_virtual_ta sv db req made))
   = completion_calls made) /\
  (chunks <> [] ->
   completion_calls (snd (query_virtual_ta sv db req made))
   = S (completion_calls made)).
Proof.
  intros Hq.
  unfold query_virtual_ta, retrieve, generate_llm_answer,
    extract_text_from_base64_image, bnd, ret, lift, throw, log_call.
  rewrite Hq.
  split; intros Hchunks.
  - subst chunks.
    destruct (image req) as [img|]; [destruct (truthy img)|];
      [destruct (image_to_string sv img)| |]; cbn [fst snd];
      rewrite ?completion_calls_app, ?Nat.add_0_r; auto.
  - destruct chunks as [|x chunks]; [congruence|].
    destruct (image req) as [img|]; [destruct (truthy img)|];
      [destruct (image_to_string sv img)| |];
      match goal with |- context [chat_completions sv ?p] =>
        destruct (chat_completions sv p) as [resp|];
        [destruct (negb (status resp =? 200)%Z);
         [destruct (body resp) | destruct (message_content resp)]|] end;
      cbn [fst snd]; rewrite ?completion_calls_app, ?Nat.add_0_r; lia.
Qed.

Definition sample_services : services :=
  {| embeddings_create := fun _ => Ok [1; 0]%float;
     image_to_string := fun _ => Ok " text of the image ";
     chat_completions := fun _ =>
       Ok {| status := 200; body := Ok "{...}";
             message_content :=
               Ok ("1. Use the forum." ++ newline ++ newline ++ "Sources:"
                   ++ newline ++ "1. URL: https://c/2, Text: notes") |} |}.

Definition sample_request : QueryRequest :=
  {| question := "which post?"; image := Some "aW1hZ2U=" |}.

Lemma refusal_without_completion_witness :
  (rank RetrievalFacts.sample_db [1; 0]%float MAX_RESULTS = [] ->
   fst (query_virtual_ta sample_services RetrievalFacts.sample_db
          sample_request [])
   = Ok {| answer := "I couldn't find relevant content."; links := [] |} /\
   completion_calls
     (snd (query_virtual_ta sample_services RetrievalFacts.sample_db
             sample_request []))
   = completion_calls []) /\
  (rank RetrievalFacts.sample_db [1; 0]%float MAX_RESULTS <> [] ->
   completion_calls
     (snd (query_virtual_ta sample_services RetrievalFacts.sample_db
             sample_request []))
   = S (completion_calls [])).
Proof.
  apply (refusal_without_completion sample_services RetrievalFacts.sample_db
           sample_request []
           (rank RetrievalFacts.sample_db [1; 0]%float MAX_RESULTS)).
  reflexivity.
Defined.

(** The two cases on small stores: an empty store gives the refusal after
    the calls of the recognition and of the embedding service only; the
    sample store gives an answer parsed from the one completion. *)
Example query_empty_store :
  query_virtual_ta sample_services empty_db sample_request [] =
  (Ok {| answer := "I couldn't find relevant content."; links := [] |},
   [OcrCall "aW1hZ2U="; EmbeddingCall "which post?"]).
Proof. reflexivity. Qed.

Example query_sample_store :
  fst (query_virtual_ta sample_services RetrievalFacts.sample_db
         sample_request []) =
  Ok {| answer := "1. Use the forum.";
        links := [{| link_url := "https://c/2"; link_text := "notes" |}] |} /\
  completion_calls
    (snd (query_virtual_ta sample_services RetrievalFacts.sample_db
            sample_request [])) = 1%nat.
Proof. split; reflexivity. Qed.

End EndpointFacts.

(** * Further properties of the code *)

(** ** The segmenter: what the windows keep of the text *)

Module SegmenterCoverage.

Import PyStr PyStrFacts Segmenter SegmenterFacts.

Lemma all_take (p : ascii -> bool) (n : nat) (s : string) :
  all p s = true -> all p (take n s) = true.
Proof.
  revert s; induction n as [|n IH]; intros [|c s] H; simpl in *; auto.
  apply andb_true_iff in H. destruct H as [Hc H]. now rewrite Hc, IH.
Qed.

Lemma all_drop (p : ascii -> bool) (n : nat) (s : string) :
  all p s = true -> all p (drop n s) = true.
Proof.
  revert s; induction n as [|n IH]; intros [|c s] H; simpl in *; auto.
  apply andb_true_iff in H. destruct H as [_ H]. now apply IH.
Qed.

Lemma all_slice (p : ascii -> bool) (s : string) (a b : Z) :
  all p s = true -> all p (slice s a b) = true.
Proof. intros H. unfold slice. now apply all_take, all_drop. Qed.

Lemma strip_by_all (p : ascii -> bool) (s : string) :
  all p s = true -> strip_by p s = EmptyString.
Proof.
  intros H. unfold strip_by.
  assert (E : lstrip_by p s = EmptyString).
  { induction s as [|c s IH]; [reflexivity|]. simpl in *.
    apply andb_true_iff in H. destruct H as [Hc H]. rewrite Hc. now apply IH. }
  now rewrite E.
Qed.

Lemma windows_blank (T : string) (L O : Z) :
  all isspace T = true ->
  filter truthy (map strip (windows T L O)) = [].
Proof.
  intros HT. unfold windows.
  induction (seq 0 (nwindows T L O)) as [|i l IH]; [reflexivity|].
  cbn [map filter]. unfold window at 1, strip.
  rewrite strip_by_all by now apply all_slice.
  exact IH.
Qed.

(** A text of white space only, the empty text among them, gives no
    chunk. *)
Theorem chunk_text_blank (T : string) (L O : Z) (fuel : nat) :
  all isspace T = true -> O < L -> (String.length T < fuel)%nat ->
  chunk_text fuel T L O = Some [].
Proof.
  intros HT Hs Hf. rewrite chunk_text_runs by assumption. f_equal.
  now apply windows_blank.
Qed.

Lemma chunk_text_blank_witness :
  chunk_text 4
    (String (ascii_of_nat 32) (String (ascii_of_nat 10)
       (String (ascii_of_nat 9) EmptyString))) 750 70
  = Some [].
Proof.
  apply chunk_text_blank; [reflexivity | lia | simpl; lia].
Defined.

(** The loop takes no more steps than the text has characters, and emits
    at most one chunk per window: with stride [L - O] that is at most
    [ceil(len(T) / (L - O))] chunks. *)
Theorem chunk_text_count (T : string) (L O : Z) (chunks : list string) :
  O < L ->
  chunk_text (S (String.length T)) T L O = Some chunks ->
  (List.length chunks <= nwindows T L O)%nat /\
  Z.of_nat (nwindows T L O) * (L - O) < len T + (L - O) /\
  (nwindows T L O <= String.length T)%nat.
Proof.
  intros Hs Hrun. rewrite chunk_text_runs in Hrun by (auto; lia).
  injection Hrun as <-.
  split; [|split].
  - etransitivity; [apply filter_length_le|].
    unfold windows. now rewrite !length_map, length_seq.
  - destruct (nwindows T L O) as [|k] eqn:E.
    + pose proof (len_nonneg T). lia.
    + assert (H : (k < nwindows T L O)%nat) by lia.
      apply nwindows_spec in H; [lia | assumption].
  - destruct (Nat.le_gt_cases (nwindows T L O) (String.length T)) as [|H];
      auto.
    apply nwindows_spec in H; [|assumption]. unfold len in H. nia.
Qed.

Lemma chunk_text_count_witness :
  (List.length ["hello worl"; "orld, this"; "his is  a"; "a test"]%string
   <= nwindows "hello world, this is  a test" 10 3)%nat /\
  Z.of_nat (nwindows "hello world, this is  a test" 10 3) * (10 - 3)
  < len "hello world, this is  a test" + (10 - 3) /\
  (nwindows "hello world, this is  a test" 10 3
   <= String.length "hello world, this is  a test")%nat.
Proof.
  apply (chunk_text_count "hello world, this is  a test" 10 3);
    [lia | reflexivity].
Defined.

Lemma lstrip_by_drop (p : ascii -> bool) (s : string) :
  exists j, (j <= String.length s)%nat /\ lstrip_by p s = drop j s.
Proof.
  induction s as [|c s (j & Hj & E)]; [exists 0%nat; auto|].
  simpl. destruct (p c).
  - exists (S j). split; [lia | exact E].
  - exists 0%nat. split; [lia | reflexivity].
Qed.

Lemma rstrip_by_take (p : ascii -> bool) (s : string) :
  exists k, (k <= String.length s)%nat /\ rstrip_by p s = take k s.
Proof.
  induction s as [|c s (k & Hk & E)]; [exists 0%nat; auto|].
  simpl. destruct (rstrip_by p s) as [|d r] eqn:Er.
  - destruct (p c).
    + exists 0%nat. split; [lia | reflexivity].
    + exists 1%nat. split; [lia|]. simpl. now destruct s.
  - exists (S k). split; [lia|]. simpl. now rewrite <- E.
Qed.

(** Trimming keeps a contiguous piece of the text. *)
Lemma strip_take_drop (s : string) :
  exists j k, (j + k <= String.length s)%nat /\ strip s = take k (drop j s).
Proof.
  unfold strip, strip_by.
  destruct (lstrip_by_drop isspace s) as (j & Hj & ->).
  destruct (rstrip_by_take isspace (drop j s)) as (k & Hk & ->).
  rewrite length_drop in Hk. exists j, k. split; [lia | reflexivity].
Qed.

Lemma slice_take_drop (s : string) (a k : nat) :
  (a + k <= String.length s)%nat ->
  slice s (Z.of_nat a) (Z.of_nat a + Z.of_nat k) = take k (drop a s).
Proof.
  intros H. rewrite slice_inside by lia. unfold len.
  rewrite !Z.min_l by lia. f_equal; [lia | f_equal; lia].
Qed.

(** Every chunk is a piece of the text, copied as it stands: the
    characters of the text from some position to a later one, at most [L]
    of them. *)
Theorem chunk_is_piece_of_text (T : string) (L O : Z)
  (chunks : list string) (c : string) :
  0 <= O -> O < L ->
  chunk_text (S (String.length T)) T L O = Some chunks ->
  In c chunks ->
  exists start stop,
    0 <= start /\ start < stop /\ stop <= len T /\ stop - start <= L /\
    c = slice T start stop.
Proof.
  intros HO Hs Hrun Hc. rewrite chunk_text_runs in Hrun by (auto; lia).
  injection Hrun as <-.
  apply filter_In in Hc. destruct Hc as [Hc Hne].
  apply in_map_iff in Hc. destruct Hc as (w & <- & Hw).
  unfold windows in Hw. apply in_map_iff in Hw. destruct Hw as (i & <- & _).
  destruct (strip_take_drop (window T L O i)) as (j & k & Hjk & E).
  rewrite E in *.
  pose proof (len_window T L O i HO Hs) as Hlen.
  assert (Ha : 0 <= Z.of_nat i * (L - O)) by nia.
  pose proof (len_nonneg T) as Hn.
  unfold window in E, Hne |- *. rewrite slice_inside in * by lia.
  set (a := Z.to_nat (Z.min (Z.of_nat i * (L - O)) (len T))) in *.
  set (m := Z.to_nat (Z.min (Z.of_nat i * (L - O) + L) (len T)
                      - Z.min (Z.of_nat i * (L - O)) (len T))) in *.
  assert (Hm : (Z.of_nat m <= L)) by (unfold m; lia).
  assert (Hlw : String.length (window T L O i) = Nat.min m (String.length T - a)).
  { unfold window. rewrite slice_inside by lia.
    now rewrite length_take, length_drop. }
  rewrite Hlw in Hjk.
  rewrite drop_take, take_take, drop_drop in *.
  replace (Nat.min k (m - j)) with k in * by lia.
  assert (Hk : (0 < k)%nat).
  { destruct k; [|lia]. destruct (drop (a + j) T); discriminate. }
  exists (Z.of_nat (a + j)), (Z.of_nat (a + j) + Z.of_nat k).
  unfold len. repeat split; try lia.
  symmetry. apply slice_take_drop. lia.
Qed.

Lemma chunk_is_piece_of_text_witness :
  exists start stop,
    0 <= start /\ start < stop /\
    stop <= len "hello world, this is  a test" /\ stop - start <= 10 /\
    "his is  a"%string = slice "hello world, this is  a test" start stop.
Proof.
  apply (chunk_is_piece_of_text "hello world, this is  a test" 10 3
           ["hello worl"; "orld, this"; "his is  a"; "a test"]%string);
    [lia | lia | reflexivity | simpl; auto].
Defined.


















Example chunk_text_four_chunks :
  chunk_text 29 "hello world, this is  a test" 10 3
  = Some ["hello worl"; "orld, this"; "his is  a"; "a test"]%string.
Proof. reflexivity. Qed.

(** With a window no longer than the overlap the start never advances:
    on a text that is not empty the loop is still running after any
    number of iterations. *)
Lemma chunk_text_diverges_witness : chunk_text 1000 "abc" 2 2 = None.
Proof.
  apply (chunk_text_diverges "abc" 2 2 1000); [lia | discriminate].
Defined.

End SegmenterCoverage.

(** ** Numbers printed and read back *)

Module PyStrNumbers.

Import PyStr PyStrFacts.

Lemma digits_are_digits (d : Decimal.uint) :
  all is_ascii_digit (NilEmpty.string_of_uint d) = true.
Proof. induction d; cbn; auto. Qed.

Lemma digits_no_slash (d : Decimal.uint) :
  mem "/" (NilEmpty.string_of_uint d) = false.
Proof. induction d; cbn; auto. Qed.

Lemma int_digits_acc (d : Decimal.uint) :
  forall acc : positive,
    int_digits (Z.pos acc) (NilEmpty.string_of_uint d)
    = Ok (Z.pos (Pos.of_uint_acc d acc)).
Proof.
  induction d; intros acc; cbn [NilEmpty.string_of_uint Pos.of_uint_acc];
    [reflexivity| | | | | | | | | |];
    cbn [int_digits]; rewrite <- IHd;
    match goal with
    | |- (if ?b then _ else _) = _ =>
        change b with true; cbv iota
    end;
    f_equal;
    match goal with
    | |- context [Z.of_N (N_of_ascii ?c)] =>
        let v := eval vm_compute in (Z.of_N (N_of_ascii c)) in
        change (Z.of_N (N_of_ascii c)) with v
    end; lia.
Qed.

Lemma int_digits_uint (d : Decimal.uint) :
  int_digits 0 (NilEmpty.string_of_uint d) = Ok (Z.of_N (Pos.of_uint d)).
Proof.
  induction d; cbn [NilEmpty.string_of_uint Pos.of_uint]; [reflexivity| ..];
    cbn [int_digits];
    match goal with
    | |- (if ?b then _ else _) = _ => change b with true; cbv iota
    end;
    [exact IHd | ..]; cbn [Z.of_N]; rewrite <- int_digits_acc; reflexivity.
Qed.

Lemma all_digits_isdigit (s : string) :
  all is_ascii_digit s = true -> all isdigit_char s = true.
Proof.
  induction s as [|c s IH]; cbn [all]; [reflexivity|].
  intros H. apply andb_true_iff in H. destruct H as [Hc Hs].
  unfold isdigit_char. rewrite Hc. cbn [orb]. auto.
Qed.

(** What [str(n)] is for a number that is not negative: a text of decimal
    digits, not empty, that [int] reads back as [n]. *)
Lemma str_nonneg (n : Z) :
  0 <= n ->
  truthy (str n) = true /\ all is_ascii_digit (str n) = true /\
  mem "/" (str n) = false /\ int (str n) = Ok n.
Proof.
  intros Hn. destruct n as [|p|p]; [repeat split | | lia].
  unfold str. cbn [Z.to_int NilZero.string_of_int].
  pose proof (DecimalPos.Unsigned.to_uint_nonnil p) as Hnil.
  pose proof (DecimalPos.Unsigned.of_to p) as Hof.
  unfold NilZero.string_of_uint.
  assert (Heq : match Pos.to_uint p with
                | Decimal.Nil => "0"%string
                | _ => NilEmpty.string_of_uint (Pos.to_uint p)
                end = NilEmpty.string_of_uint (Pos.to_uint p)).
  { destruct (Pos.to_uint p); congruence || reflexivity. }
  rewrite Heq.
  assert (Ht : truthy (NilEmpty.string_of_uint (Pos.to_uint p)) = true).
  { destruct (Pos.to_uint p); congruence || reflexivity. }
  split; [exact Ht|]. split; [apply digits_are_digits|].
  split; [apply digits_no_slash|].
  unfold int. rewrite Ht, int_digits_uint, Hof. reflexivity.
Qed.

(** [str(n)] for a negative number starts with the sign, which is no
    digit. *)
Lemma str_negative (n : Z) : n < 0 -> isdigit (str n) = false.
Proof.
  intros Hn. destruct n as [|p|p]; try lia. reflexivity.
Qed.

Lemma int_digits_nonneg (s : string) :
  forall acc n, 0 <= acc -> int_digits acc s = Ok n -> 0 <= n.
Proof.
  induction s as [|c s IH]; intros acc n Hacc; cbn [int_digits].
  - intros H. injection H as <-. exact Hacc.
  - unfold is_ascii_digit. destruct (_ && _)%bool eqn:E; [|discriminate].
    apply andb_true_iff in E. destruct E as [E1 E2].
    apply N.leb_le in E1. apply IH. lia.
Qed.

Lemma rstrip_by_none (p : ascii -> bool) (s : string) :
  all (fun c => negb (p c)) s = true -> rstrip_by p s = s.
Proof.
  induction s as [|c s IH]; cbn [all]; [reflexivity|].
  intros H. apply andb_true_iff in H. destruct H as [Hc Hs].
  apply negb_true_iff in Hc.
  rewrite (rstrip_by_keeps_head p c s Hc). now rewrite IH.
Qed.

Lemma rstrip_by_append (p : ascii -> bool) (a b : string) :
  truthy b = true -> rstrip_by p b = b ->
  rstrip_by p (a ++ b) = (a ++ b)%string.
Proof.
  intros Hb Hr. induction a as [|c a IH]; cbn [append]; [exact Hr|].
  cbn [rstrip_by]. rewrite IH.
  destruct (a ++ b)%string eqn:E; [|reflexivity].
  destruct a; cbn [append] in E; [subst b|]; discriminate.
Qed.

Lemma last_segment_none (sep : ascii) (s : string) :
  mem sep s = false -> last_segment sep s = s.
Proof.
  destruct s as [|c s]; [reflexivity|]. cbn [mem last_segment].
  intros H. apply orb_false_iff in H. destruct H as [Hc Hs].
  rewrite Ascii.eqb_sym, Hc, Hs. reflexivity.
Qed.

Lemma mem_append (sep : ascii) (a b : string) :
  mem sep (a ++ b) = mem sep a || mem sep b.
Proof.
  induction a as [|c a IH]; cbn [append mem]; [reflexivity|].
  now rewrite IH, orb_assoc.
Qed.

Lemma last_segment_append (sep : ascii) (a b : string) :
  mem sep b = false ->
  last_segment sep (a ++ String sep b) = b.
Proof.
  intros Hb. induction a as [|c a IH]; cbn [append last_segment].
  - rewrite Ascii.eqb_refl. now apply last_segment_none.
  - rewrite IH. destruct (Ascii.eqb c sep); [reflexivity|].
    rewrite mem_append. cbn [mem]. rewrite Ascii.eqb_refl.
    cbn [orb]. now rewrite orb_true_r.
Qed.

End PyStrNumbers.

(** ** The store that ingestion builds *)

Module IngestStore.

Import PyStr PyStrFacts Embedding Ingest Segmenter SegmenterFacts.
Import SegmenterCoverage IngestFacts.

Lemma chunk_text_default_windows (T : string) :
  chunk_text_default T
  = filter truthy (map strip (windows T CHUNK_SIZE CHUNK_OVERLAP)).
Proof.
  unfold chunk_text_default.
  now rewrite chunk_text_runs by (try reflexivity; lia).
Qed.

(** What the text of a stored chunk looks like. *)
Definition stored_text_ok (t : string) : Prop :=
  truthy t = true /\ strip t = t /\ len t <= CHUNK_SIZE.

Lemma chunk_text_default_ok (T : string) :
  Forall stored_text_ok (chunk_text_default T).
Proof.
  rewrite chunk_text_default_windows. apply Forall_forall. intros c Hc.
  apply filter_In in Hc. destruct Hc as [Hc Htr].
  apply in_map_iff in Hc. destruct Hc as (w & <- & Hw).
  unfold windows in Hw. apply in_map_iff in Hw. destruct Hw as (i & <- & _).
  split; [assumption | split; [apply strip_idem|]].
  pose proof (length_strip (window T CHUNK_SIZE CHUNK_OVERLAP i)) as H1.
  pose proof (len_window T CHUNK_SIZE CHUNK_OVERLAP i) as H2.
  unfold CHUNK_SIZE, CHUNK_OVERLAP, len in *.
  specialize (H2 ltac:(lia) ltac:(lia)). lia.
Qed.

Lemma chunk_text_default_blank (T : string) :
  all isspace T = true -> chunk_text_default T = [].
Proof.
  intros H. rewrite chunk_text_default_windows. now apply windows_blank.
Qed.

(** *** Properties that every step keeps *)

Definition keeps {A : Type} (P : conn -> Prop) (m : SM conn A) : Prop :=
  forall c, P c -> P (snd (m c)).

Lemma keeps_ret {A : Type} (P : conn -> Prop) (a : A) : keeps P (ret a).
Proof. intros c H. exact H. Qed.

Lemma keeps_lift {A : Type} (P : conn -> Prop) (r : res A) :
  keeps P (lift r).
Proof. intros c H. exact H. Qed.

Lemma keeps_bnd {A B : Type} (P : conn -> Prop) (m : SM conn A)
  (f : A -> SM conn B) :
  keeps P m -> (forall a, keeps P (f a)) -> keeps P (bnd m f).
Proof.
  intros Hm Hf c H. unfold bnd. specialize (Hm c H).
  destruct (m c) as [[a|e] c']; cbn [snd] in *; [now apply Hf | exact Hm].
Qed.

Definition is_encoded (e : stored) : Prop :=
  match e with
  | Encoded _ => True
  | Malformed => False
  end.

(** The address [process_forum_json] gives the chunks of a post. *)
Definition forum_url (topic post : Z) : string :=
  ("https://discourse.onlinedegree.iitm.ac.in/t/" ++ str topic ++ "/"
     ++ str post)%string.

Definition store_ok (c : conn) : Prop :=
  Forall (fun r => stored_text_ok (f_text r) /\ is_encoded (f_embedding r)
                   /\ f_url r = Some (forum_url (f_topic_id r)
                                       (f_post_number r)))
    (forum_chunks c) /\
  Forall (fun r => stored_text_ok (c_text r) /\ is_encoded (c_embedding r))
    (course_chunks c).

Lemma keeps_insert_all (insert : string -> vector -> SM conn unit)
  (P : conn -> Prop) (Q : string -> Prop) (pairs : list (string * vector)) :
  (forall chunk emb, Q chunk -> keeps P (insert chunk emb)) ->
  Forall Q (map fst pairs) ->
  keeps P (insert_all insert pairs).
Proof.
  intros Hins. induction pairs as [|[chunk emb] pairs IH]; intros HQ.
  - apply keeps_ret.
  - cbn [map fst] in HQ. apply Forall_cons_iff in HQ. destruct HQ as [Hq HQ].
    cbn [insert_all]. apply keeps_bnd; [now apply Hins|].
    intros _. now apply IH.
Qed.

Lemma Forall_combine_fst {A B : Type} (Q : A -> Prop) (l : list A)
  (l' : list B) :
  Forall Q l -> Forall Q (map fst (combine l l')).
Proof.
  intros H. revert l'. induction H as [|x l Hx H IH]; intros [|y l'];
    cbn [combine map fst]; constructor; auto.
Qed.

Lemma insert_forum_ok (uuid4 : nat -> string) (p : post) (chunk : string)
  (emb : vector) :
  stored_text_ok chunk -> keeps store_ok (insert_forum uuid4 p chunk emb).
Proof.
  intros Hc c [Hf Hco].
  destruct (insert_forum_cases uuid4 p chunk emb c)
    as [[_ ->]|[(_ & _ & ->)|(_ & _ & ->)]]; try (split; assumption).
  split; cbn; [|exact Hco].
  apply Forall_app. split; [exact Hf|].
  repeat constructor; exact Hc || apply Hc.
Qed.

Lemma insert_course_ok (uuid4 : nat -> string) (file title : string)
  (url : option string) (chunk : string) (emb : vector) :
  stored_text_ok chunk ->
  keeps store_ok (insert_course uuid4 file title url chunk emb).
Proof.
  intros Hc c [Hf Hco].
  destruct (insert_course_cases uuid4 file title url chunk emb c)
    as [[_ ->]|[_ ->]]; [split; assumption|].
  split; cbn; [exact Hf|].
  apply Forall_app. split; [exact Hco|].
  repeat constructor; exact Hc || apply Hc.
Qed.

Section Kept.

Variable create : provider.
Variable uuid4 : nat -> string.

(** A property of the store that the two insertions keep, when the text
    they insert is one that [chunk_text] returns. *)
Variable P : conn -> Prop.
Hypothesis forum_kept : forall p chunk emb,
  stored_text_ok chunk -> keeps P (insert_forum uuid4 p chunk emb).
Hypothesis course_kept : forall file title url chunk emb,
  stored_text_ok chunk -> keeps P (insert_course uuid4 file title url chunk emb).

Lemma process_post_keeps (p : post) : keeps P (process_post create uuid4 p).
Proof.
  unfold process_post.
  destruct (chunk_text_default (content p)) as [|ch chunks] eqn:E;
    [apply keeps_ret|].
  apply keeps_bnd; [apply keeps_lift|]. intros embs.
  apply (keeps_insert_all _ _ stored_text_ok).
  - intros chunk emb. apply forum_kept.
  - apply Forall_combine_fst. rewrite <- E. apply chunk_text_default_ok.
Qed.

Lemma process_forum_json_keeps (posts : list post) :
  keeps P (process_forum_json create uuid4 posts).
Proof.
  unfold process_forum_json. induction posts as [|p posts IH];
    cbn [process_posts]; [apply keeps_ret|].
  apply keeps_bnd; [apply process_post_keeps | intros _; exact IH].
Qed.

Lemma flush_keeps (file title : string) (url : option string)
  (buffer : string) :
  keeps P (flush create uuid4 file title url buffer).
Proof.
  unfold flush. apply keeps_bnd; [apply keeps_lift|]. intros embs.
  apply (keeps_insert_all _ _ stored_text_ok).
  - intros chunk emb. apply course_kept.
  - apply Forall_combine_fst. apply chunk_text_default_ok.
Qed.

Lemma course_lines_keeps (file : string) (url : option string)
  (lines : list string) :
  forall title buffer,
    keeps P (course_lines create uuid4 file url lines title buffer).
Proof.
  induction lines as [|line lines IH]; intros title buffer;
    cbn [course_lines].
  - destruct (truthy (strip buffer)); [apply flush_keeps | apply keeps_ret].
  - destruct (startswith "#" (strip line)); [|apply IH].
    destruct (truthy (strip buffer)); [|apply IH].
    apply keeps_bnd; [apply flush_keeps | intros _; apply IH].
Qed.

Lemma process_course_md_keeps (filepath content : string) :
  keeps P (process_course_md create uuid4 filepath content).
Proof.
  unfold process_course_md, process_course_lines.
  apply keeps_bnd; [apply keeps_lift|]. intros [url body].
  apply course_lines_keeps.
Qed.

Lemma process_forum_files_keeps (files : list (list post)) :
  keeps P (process_forum_files create uuid4 files).
Proof.
  induction files as [|posts files IH]; cbn [process_forum_files];
    [apply keeps_ret|].
  apply keeps_bnd; [apply process_forum_json_keeps | intros _; exact IH].
Qed.

Lemma process_course_files_keeps (files : list (string * string)) :
  keeps P (process_course_files create uuid4 files).
Proof.
  induction files as [|[f content] files IH]; cbn [process_course_files];
    [apply keeps_ret|].
  apply keeps_bnd; [apply process_course_md_keeps | intros _; exact IH].
Qed.

Lemma main_keeps (forum_files : list (list post))
  (course_files : list (string * string)) :
  P create_db -> P (snd (main create uuid4 forum_files course_files)).
Proof.
  unfold main.
  apply (keeps_bnd P);
    [apply process_forum_files_keeps
    | intros _; apply process_course_files_keeps].
Qed.

End Kept.

Lemma main_store_rows (create : provider) (uuid4 : nat -> string)
  (forum_files : list (list post)) (course_files : list (string * string)) :
  store_ok (snd (main create uuid4 forum_files course_files)).
Proof.
  apply (main_keeps create uuid4 store_ok).
  - intros p chunk emb. apply insert_forum_ok.
  - intros file title url chunk emb. apply insert_course_ok.
  - split; constructor.
Qed.

(** Whatever the files hold and whatever the provider answers, and whether
    the run ends well or with an error, every row of the store that [main]
    builds has a text that is not empty, has no white space at either end
    and is at most 750 characters long, and an embedding that reads back
    as a vector; a forum row has the address of its post, made of the
    numbers of its topic and of the post. *)
Theorem main_store_ok (create : provider) (uuid4 : nat -> string)
  (forum_files : list (list post)) (course_files : list (string * string)) :
  let c := snd (main create uuid4 forum_files course_files) in
  (forall r, In r (forum_chunks c) ->
     stored_text_ok (f_text r) /\ is_encoded (f_embedding r) /\
     f_url r = Some (forum_url (f_topic_id r) (f_post_number r))) /\
  (forall r, In r (course_chunks c) ->
     stored_text_ok (c_text r) /\ is_encoded (c_embedding r)).
Proof.
  destruct (main_store_rows create uuid4 forum_files course_files)
    as [Hf Hc].
  rewrite Forall_forall in Hf, Hc. split; assumption.
Qed.

(** *** The identifiers of the rows *)

(** The identifiers of a table are distinct, each of them is the value of
    a draw that was made, and the numbers of a forum row are integers that
    SQLite takes. *)
Definition ids_ok (uuid4 : nat -> string) (c : conn) : Prop :=
  NoDup (map f_chunk_id (forum_chunks c)) /\
  NoDup (map c_chunk_id (course_chunks c)) /\
  (forall id,
     In id (map f_chunk_id (forum_chunks c))
     \/ In id (map c_chunk_id (course_chunks c)) ->
     exists i, (i < uuids_drawn c)%nat /\ id = uuid4 i) /\
  Forall (fun r => fits_int64 (f_post_id r) = true
                   /\ fits_int64 (f_post_number r) = true
                   /\ fits_int64 (f_topic_id r) = true) (forum_chunks c).

Lemma NoDup_snoc {A : Type} (l : list A) (x : A) :
  NoDup l -> ~ In x l -> NoDup (l ++ [x]).
Proof.
  intros Hl Hx. apply NoDup_app; [exact Hl | repeat constructor; auto|].
  intros y Hy [<-|[]]. contradiction.
Qed.

Lemma ids_ok_drawn (uuid4 : nat -> string) (c : conn) :
  ids_ok uuid4 c -> ids_ok uuid4 (drawn c).
Proof.
  intros (H1 & H2 & H3 & H4). repeat split; auto.
  cbn [drawn forum_chunks course_chunks uuids_drawn]. intros id Hid.
  destruct (H3 id Hid) as (i & Hi & ->). exists i. split; [lia | reflexivity].
Qed.

Lemma insert_forum_ids (uuid4 : nat -> string) (p : post) (chunk : string)
  (emb : vector) :
  keeps (ids_ok uuid4) (insert_forum uuid4 p chunk emb).
Proof.
  intros c Hc.
  destruct (insert_forum_cases uuid4 p chunk emb c)
    as [[_ ->]|[(_ & _ & ->)|(Hfit & Hnew & ->)]];
    try now apply ids_ok_drawn.
  destruct Hc as (H1 & H2 & H3 & H4). unfold ids_ok.
  cbn [snd with_forum_row forum_chunks course_chunks uuids_drawn].
  rewrite map_app. cbn [map new_forum_row f_chunk_id].
  split; [now apply NoDup_snoc|]. split; [exact H2|]. split.
  - intros id [Hid|Hid].
    + apply in_app_or in Hid. destruct Hid as [Hid|[<-|[]]].
      * destruct (H3 id (or_introl Hid)) as (i & Hi & ->).
        exists i. split; [lia | reflexivity].
      * exists (uuids_drawn c). split; [lia | reflexivity].
    + destruct (H3 id (or_intror Hid)) as (i & Hi & ->).
      exists i. split; [lia | reflexivity].
  - apply Forall_app. split; [exact H4|]. constructor; [|constructor].
    unfold post_fits in Hfit. apply andb_true_iff in Hfit.
    destruct Hfit as [Hfit Ht]. apply andb_true_iff in Hfit.
    destruct Hfit as [Hp Hn]. cbn. auto.
Qed.

Lemma insert_course_ids (uuid4 : nat -> string) (file title : string)
  (url : option string) (chunk : string) (emb : vector) :
  keeps (ids_ok uuid4) (insert_course uuid4 file title url chunk emb).
Proof.
  intros c Hc.
  destruct (insert_course_cases uuid4 file title url chunk emb c)
    as [[_ ->]|[Hnew ->]]; [now apply ids_ok_drawn|].
  destruct Hc as (H1 & H2 & H3 & H4). unfold ids_ok.
  cbn [snd with_course_row forum_chunks course_chunks uuids_drawn].
  rewrite map_app. cbn [map new_course_row c_chunk_id].
  split; [exact H1|]. split; [now apply NoDup_snoc|]. split; [|exact H4].
  intros id [Hid|Hid].
  - destruct (H3 id (or_introl Hid)) as (i & Hi & ->).
    exists i. split; [lia | reflexivity].
  - apply in_app_or in Hid. destruct Hid as [Hid|[<-|[]]].
    + destruct (H3 id (or_intror Hid)) as (i & Hi & ->).
      exists i. split; [lia | reflexivity].
    + exists (uuids_drawn c). split; [lia | reflexivity].
Qed.

Lemma main_ids_ok (create : provider) (uuid4 : nat -> string)
  (forum_files : list (list post)) (course_files : list (string * string)) :
  ids_ok uuid4 (snd (main create uuid4 forum_files course_files)).
Proof.
  apply (main_keeps create uuid4 (ids_ok uuid4)).
  - intros p chunk emb _. apply insert_forum_ids.
  - intros file title url chunk emb _. apply insert_course_ids.
  - repeat split; try constructor. intros id [[]|[]].
Qed.

(** Whatever the files hold, whatever the provider answers and whatever
    [uuid.uuid4] returns, and whether the run ends well or with an error,
    no two rows of a table of the store that [main] builds have the same
    identifier, each identifier is the value of one of the draws made, and
    the numbers of a forum row are within the 64-bit range: an insertion
    that would break one of these is refused, and ends the run. *)
Theorem main_ids_distinct (create : provider) (uuid4 : nat -> string)
  (forum_files : list (list post)) (course_files : list (string * string)) :
  let c := snd (main create uuid4 forum_files course_files) in
  NoDup (map f_chunk_id (forum_chunks c)) /\
  NoDup (map c_chunk_id (course_chunks c)) /\
  (forall id,
     In id (map f_chunk_id (forum_chunks c))
     \/ In id (map c_chunk_id (course_chunks c)) ->
     exists i, (i < uuids_drawn c)%nat /\ id = uuid4 i) /\
  (forall r, In r (forum_chunks c) ->
     fits_int64 (f_post_id r) = true /\ fits_int64 (f_post_number r) = true
     /\ fits_int64 (f_topic_id r) = true).
Proof.
  destruct (main_ids_ok create uuid4 forum_files course_files)
    as (H1 & H2 & H3 & H4).
  rewrite Forall_forall in H4. cbv zeta. auto.
Qed.

(** A repeated identifier ends the run: the second insertion into the
    course table is refused, and the table keeps one row. *)
Example repeated_id_is_refused :
  let nl := String (ascii_of_nat 10) EmptyString in
  let run :=
    main one_vector (fun _ => "same"%string) []
      [("md/doc.md", "intro" ++ nl ++ "# Head 1" ++ nl ++ "body")%string] in
  fst run = Raise IntegrityError /\
  map c_chunk_id (course_chunks (snd run)) = ["same"%string] /\
  uuids_drawn (snd run) = 2%nat.
Proof. repeat split; reflexivity. Qed.

(** So does a number that SQLite does not take: nothing is inserted, and
    the identifier of the row was drawn. *)
Example large_number_is_refused :
  let run :=
    main one_vector numbered
      [[{| post_id := 2 ^ 63; post_number := 1; topic_id := 7;
           topic_title := "t"; author := "a"; content := "text" |}]] [] in
  fst run = Raise OverflowError /\
  forum_chunks (snd run) = [] /\ uuids_drawn (snd run) = 1%nat.
Proof. repeat split; reflexivity. Qed.

(** *** A provider that fails *)

(** A step that changes nothing, and ends well or with the error [e]. *)
Definition inert (e : exn) (m : SM conn unit) : Prop :=
  forall c, m c = (Ok tt, c) \/ m c = (Raise e, c).

Lemma inert_ret (e : exn) : inert e (ret tt).
Proof. intros c. now left. Qed.

Lemma inert_bnd (e : exn) (m : SM conn unit) (f : unit -> SM conn unit) :
  inert e m -> inert e (f tt) -> inert e (bnd m f).
Proof.
  intros Hm Hf c. unfold bnd. destruct (Hm c) as [-> | ->]; [apply Hf|].
  now right.
Qed.

Lemma front_matter_total (lines : list string) :
  exists found, front_matter lines = Ok found.
Proof.
  assert (Hscan : forall rest url, exists found,
            scan_front_matter rest url = Ok found).
  { induction rest as [|l rest IH]; intros url; cbn [scan_front_matter];
      [eauto|].
    fold (is_url_field l). destruct (is_url_field l) eqn:E.
    - rewrite (url_field_has_colon l E). cbn [bind]. apply IH.
    - destruct (String.eqb (strip l) "---"); [eauto | apply IH]. }
  unfold front_matter. destruct lines as [|first rest]; [eauto|].
  destruct (String.eqb (strip first) "---"); [|eauto].
  destruct (Hscan rest None) as [[url [body|]] ->]; cbn [bind]; eauto.
Qed.

Section Failing.

Variable create : provider.
Variable uuid4 : nat -> string.
Variable e : exn.
Hypothesis create_fails : forall texts, create texts = Raise e.

Lemma process_post_inert (p : post) : inert e (process_post create uuid4 p).
Proof.
  intros c. unfold process_post.
  destruct (chunk_text_default (content p)); [now left|].
  unfold bnd, lift, embed. rewrite create_fails. now right.
Qed.

Lemma flush_inert (file title : string) (url : option string)
  (buffer : string) :
  inert e (flush create uuid4 file title url buffer).
Proof.
  intros c. unfold flush, bnd, lift, embed. rewrite create_fails. now right.
Qed.

Lemma course_lines_inert (file : string) (url : option string)
  (lines : list string) :
  forall title buffer,
    inert e (course_lines create uuid4 file url lines title buffer).
Proof.
  induction lines as [|line lines IH]; intros title buffer;
    cbn [course_lines].
  - destruct (truthy (strip buffer)); [apply flush_inert | apply inert_ret].
  - destruct (startswith "#" (strip line)); [|apply IH].
    destruct (truthy (strip buffer)); [|apply IH].
    apply inert_bnd; [apply flush_inert | apply IH].
Qed.

Lemma process_course_md_inert (filepath content : string) :
  inert e (process_course_md create uuid4 filepath content).
Proof.
  intros c. unfold process_course_md, process_course_lines, bnd, lift.
  destruct (front_matter_total (splitlines content)) as [[url body] ->].
  apply course_lines_inert.
Qed.

Lemma process_forum_files_inert (files : list (list post)) :
  inert e (process_forum_files create uuid4 files).
Proof.
  induction files as [|posts files IH]; cbn [process_forum_files];
    [apply inert_ret|].
  apply inert_bnd; [|exact IH].
  unfold process_forum_json. induction posts as [|p posts IHp];
    cbn [process_posts]; [apply inert_ret|].
  apply inert_bnd; [apply process_post_inert | exact IHp].
Qed.

Lemma process_course_files_inert (files : list (string * string)) :
  inert e (process_course_files create uuid4 files).
Proof.
  induction files as [|[f content] files IH]; cbn [process_course_files];
    [apply inert_ret|].
  apply inert_bnd; [apply process_course_md_inert | exact IH].
Qed.

(** When every call of the embedding provider fails, [main] inserts no
    row at all: the store it leaves is the empty one that [create_db]
    made, and the run ends with the provider's error unless no file had
    any text to embed. *)
Theorem main_with_failing_provider (forum_files : list (list post))
  (course_files : list (string * string)) :
  main create uuid4 forum_files course_files = (Ok tt, create_db) \/
  main create uuid4 forum_files course_files = (Raise e, create_db).
Proof.
  unfold main. apply inert_bnd;
    [apply process_forum_files_inert | apply process_course_files_inert].
Qed.

End Failing.

Definition provider_down : provider := fun _ => Raise (APIError "down").

Lemma main_with_failing_provider_witness :
  main provider_down numbered [[two_chunk_post]]
    [("md/plain.md", "Plain notes.")%string] = (Ok tt, create_db) \/
  main provider_down numbered [[two_chunk_post]]
    [("md/plain.md", "Plain notes.")%string]
  = (Raise (APIError "down"), create_db).
Proof.
  apply (main_with_failing_provider provider_down numbered
           (APIError "down")).
  reflexivity.
Defined.

(** *** Posts and sections without text *)

(** A post whose content is white space only, or empty, is passed over:
    no row is inserted, and the answer of the embedding provider plays no
    part, so the step ends well even with a provider that fails. *)
Theorem blank_post_skipped (create : provider) (uuid4 : nat -> string)
  (p : post) (c : conn) :
  all isspace (content p) = true ->
  process_post create uuid4 p c = (Ok tt, c).
Proof.
  intros H. unfold process_post.
  now rewrite (chunk_text_default_blank _ H).
Qed.

Definition blank_post : post :=
  {| post_id := 2; post_number := 2; topic_id := 7; topic_title := "t";
     author := "a";
     content := String (ascii_of_nat 32) (String (ascii_of_nat 10) EmptyString) |}.

Lemma blank_post_skipped_witness :
  process_post provider_down numbered blank_post empty_db
  = (Ok tt, empty_db).
Proof.
  apply (blank_post_skipped provider_down numbered blank_post
           empty_db).
  reflexivity.
Defined.

(** *** Course documents: front matter left open, and sections *)

Lemma scan_front_matter_open (rest : list string) :
  forallb (fun l => negb (is_delimiter l)) rest = true ->
  forall url0,
    scan_front_matter rest url0 =
    Ok (match declared_url rest with Some u => Some u | None => url0 end,
        None).
Proof.
  induction rest as [|l rest IH]; intros Hb url0; [reflexivity|].
  cbn [forallb] in Hb. apply andb_true_iff in Hb. destruct Hb as [Hl Hb].
  cbn [scan_front_matter declared_url]. fold (is_url_field l).
  destruct (is_url_field l) eqn:El.
  - rewrite (url_field_has_colon l El). cbn [bind].
    rewrite (IH Hb). now destruct (declared_url rest).
  - fold (is_delimiter l). apply negb_true_iff in Hl. rewrite Hl.
    rewrite (IH Hb). now destruct (declared_url rest).
Qed.

(** A document that opens with the delimiter and never closes the block
    loses nothing to the front matter: all its lines are chunked, the
    opening delimiter first, which starts the text of the first section;
    and the URL is the value of the last [original_url] line found
    anywhere in the document. *)
Theorem open_front_matter_is_chunked (create : provider)
  (uuid4 : nat -> string) (filepath first : string) (rest : list string)
  (c : conn) :
  is_delimiter first = true ->
  forallb (fun l => negb (is_delimiter l)) rest = true ->
  process_course_lines create uuid4 filepath (first :: rest) c
  = course_lines create uuid4 (last_segment "/" filepath) (declared_url rest)
      rest EmptyString (first ++ String (ascii_of_nat 10) EmptyString) c.
Proof.
  intros Hfirst Hrest.
  unfold process_course_lines, front_matter, bnd, lift.
  fold (is_delimiter first). rewrite Hfirst.
  rewrite (scan_front_matter_open rest Hrest None). cbn [bind].
  replace (match declared_url rest with Some u => Some u | None => None end)
    with (declared_url rest) by now destruct (declared_url rest).
  cbn [course_lines].
  unfold is_delimiter in Hfirst. apply String.eqb_eq in Hfirst.
  rewrite Hfirst. reflexivity.
Qed.

Lemma open_front_matter_is_chunked_witness :
  process_course_lines one_vector numbered "md/doc.md"
    ("---"%string :: sample_block ++ sample_body) empty_db
  = course_lines one_vector numbered
      (last_segment "/" "md/doc.md") (declared_url (sample_block ++ sample_body))
      (sample_block ++ sample_body) EmptyString
      ("---" ++ String (ascii_of_nat 10) EmptyString) empty_db.
Proof.
  apply (open_front_matter_is_chunked one_vector numbered
           "md/doc.md" "---" (sample_block ++ sample_body) empty_db);
    reflexivity.
Defined.

Example open_front_matter_example :
  map (fun r => (c_section_title r, c_url r))
    (course_chunks
       (snd (process_course_lines one_vector numbered "md/doc.md"
               ("---"%string :: sample_block ++ sample_body) empty_db)))
  = [(EmptyString, Some "http://c/notes"%string);
     ("Head 1"%string, Some "http://c/notes"%string)].
Proof. reflexivity. Qed.

(** A line of the body is a heading when, trimmed, it starts with [#]. *)
Definition is_heading (line : string) : bool := startswith "#" (strip line).

(** The lines of a section as the buffer holds them: each followed by a
    line feed. *)
Definition unlines (lines : list string) : string :=
  fold_right
    (fun l acc => (l ++ String (ascii_of_nat 10) EmptyString ++ acc)%string)
    EmptyString lines.

Lemma course_lines_gather (create : provider) (uuid4 : nat -> string)
  (file : string) (url : option string) (sec rest : list string) :
  forallb (fun l => negb (is_heading l)) sec = true ->
  forall title buffer c,
    course_lines create uuid4 file url (sec ++ rest) title buffer c
    = course_lines create uuid4 file url rest title
        (buffer ++ unlines sec) c.
Proof.
  induction sec as [|l sec IH]; intros Hsec title buffer c.
  - cbn [app unlines fold_right]. now rewrite append_nil_r.
  - cbn [forallb] in Hsec. apply andb_true_iff in Hsec.
    destruct Hsec as [Hl Hsec]. apply negb_true_iff in Hl.
    cbn [app course_lines]. fold (is_heading l). rewrite Hl.
    rewrite (IH Hsec). cbn [unlines fold_right].
    now rewrite !append_assoc.
Qed.

(** The lines between two headings make one text, each line followed by a
    line feed, and a heading closes it: when the text is not blank it is
    chunked and stored under the title in force, and the next section
    starts empty under the title of the heading, which is the heading
    without its [#] marks and the white space around it; when the text is
    blank nothing is stored and the blank text stays at the head of the
    next section. The heading itself is part of no text. *)
Theorem heading_closes_section (create : provider) (uuid4 : nat -> string)
  (file : string) (url : option string) (sec : list string)
  (heading : string) (rest : list string) (title : string) (c : conn) :
  forallb (fun l => negb (is_heading l)) sec = true ->
  is_heading heading = true ->
  course_lines create uuid4 file url (sec ++ heading :: rest) title
    EmptyString c
  = if truthy (strip (unlines sec)) then
      bnd (flush create uuid4 file title url (unlines sec))
        (fun _ =>
           course_lines create uuid4 file url rest
             (strip (strip_chars "# " heading)) EmptyString) c
    else
      course_lines create uuid4 file url rest
        (strip (strip_chars "# " heading)) (unlines sec) c.
Proof.
  intros Hsec Hh. rewrite (course_lines_gather _ _ _ _ _ _ Hsec).
  cbn [append course_lines]. fold (is_heading heading). rewrite Hh.
  now destruct (truthy (strip (unlines sec))).
Qed.

Lemma heading_closes_section_witness :
  course_lines one_vector numbered "doc.md" None
    (["intro"; "more"]%string ++ "## Head 1 ##"%string :: ["body"]%string)
    EmptyString EmptyString empty_db
  = if truthy (strip (unlines ["intro"; "more"]%string)) then
      bnd (flush one_vector numbered "doc.md" EmptyString None
             (unlines ["intro"; "more"]%string))
        (fun _ =>
           course_lines one_vector numbered "doc.md" None
             ["body"]%string (strip (strip_chars "# " "## Head 1 ##"))
             EmptyString) empty_db
    else
      course_lines one_vector numbered "doc.md" None
        ["body"]%string (strip (strip_chars "# " "## Head 1 ##"))
        (unlines ["intro"; "more"]%string) empty_db.
Proof.
  apply (heading_closes_section one_vector numbered "doc.md"
           None ["intro"; "more"]%string "## Head 1 ##" ["body"]%string
           EmptyString empty_db); reflexivity.
Defined.

(** At the end of the document the text gathered since the last heading is
    chunked in the same way, if it is not blank. *)
Theorem last_section_flushed (create : provider) (uuid4 : nat -> string)
  (file : string) (url : option string) (sec : list string) (title : string)
  (c : conn) :
  forallb (fun l => negb (is_heading l)) sec = true ->
  course_lines create uuid4 file url sec title EmptyString c
  = if truthy (strip (unlines sec))
    then flush create uuid4 file title url (unlines sec) c
    else (Ok tt, c).
Proof.
  intros Hsec. rewrite <- (app_nil_r sec) at 1.
  rewrite (course_lines_gather _ _ _ _ _ _ Hsec).
  cbn [append course_lines].
  now destruct (truthy (strip (unlines sec))).
Qed.

Lemma last_section_flushed_witness :
  course_lines one_vector numbered "doc.md" None
    ["body"; ""]%string "Head 1" EmptyString empty_db
  = if truthy (strip (unlines ["body"; ""]%string))
    then flush one_vector numbered "doc.md" "Head 1" None
           (unlines ["body"; ""]%string) empty_db
    else (Ok tt, empty_db).
Proof.
  apply (last_section_flushed one_vector numbered "doc.md" None
           ["body"; ""]%string "Head 1" empty_db); reflexivity.
Defined.

(** *** A provider that answers in full *)

(** What a forum row keeps of its post and of its chunk. *)
Definition digest (r : forum_row) : Z * Z * Z * string :=
  (f_post_id r, f_topic_id r, f_post_number r, f_text r).

(** The rows of the chunks of a post. *)
Definition post_digests (p : post) : list (Z * Z * Z * string) :=
  map (fun chunk => (post_id p, topic_id p, post_number p, chunk))
    (chunk_text_default (content p)).

Lemma map_fst_combine {A B : Type} (l : list A) (l' : list B) :
  List.length l = List.length l' -> map fst (combine l l') = l.
Proof.
  revert l'. induction l as [|x l IH]; intros [|y l'] H;
    cbn in *; try discriminate; [reflexivity|].
  now rewrite IH by lia.
Qed.

Section Full.

Variable create : provider.
Variable uuid4 : nat -> string.

(** The provider answers every request with as many vectors as it was
    sent texts, and no two draws of [uuid.uuid4] are equal. *)
Hypothesis create_full : forall texts,
  exists data,
    create texts = Ok data /\ List.length data = List.length texts.
Hypothesis uuid4_distinct : forall i j, uuid4 i = uuid4 j -> i = j.

(** A step that ends well and adds the forum rows [rows], in order. *)
Definition adds (m : SM conn unit) (rows : list (Z * Z * Z * string))
  : Prop :=
  forall c, ids_ok uuid4 c ->
    exists c',
      m c = (Ok tt, c') /\ ids_ok uuid4 c' /\
      map digest (forum_chunks c')
      = (map digest (forum_chunks c) ++ rows)%list.

Lemma adds_ret : adds (ret tt) [].
Proof. intros c Hc. exists c. now rewrite app_nil_r. Qed.

Lemma adds_bnd (m : SM conn unit) (f : unit -> SM conn unit)
  (a b : list (Z * Z * Z * string)) :
  adds m a -> adds (f tt) b -> adds (bnd m f) (a ++ b).
Proof.
  intros Hm Hf c Hc. unfold bnd. destruct (Hm c Hc) as (c1 & -> & Hc1 & H1).
  destruct (Hf c1 Hc1) as (c2 & -> & Hc2 & H2). exists c2.
  split; [reflexivity|]. split; [exact Hc2|]. now rewrite H2, H1, app_assoc.
Qed.

(** The identifier of the next draw is in neither table. *)
Lemma next_id_is_new (c : conn) :
  ids_ok uuid4 c ->
  ~ In (uuid4 (uuids_drawn c)) (map f_chunk_id (forum_chunks c)) /\
  ~ In (uuid4 (uuids_drawn c)) (map c_chunk_id (course_chunks c)).
Proof.
  intros (_ & _ & H & _).
  split; intros Hin;
    [destruct (H _ (or_introl Hin)) as (i & Hi & E)
    |destruct (H _ (or_intror Hin)) as (i & Hi & E)];
    apply uuid4_distinct in E; lia.
Qed.

Lemma insert_all_forum_adds (p : post) (pairs : list (string * vector)) :
  post_fits p = true ->
  adds (insert_all (insert_forum uuid4 p) pairs)
    (map (fun ce => (post_id p, topic_id p, post_number p, fst ce)) pairs).
Proof.
  intros Hfit. induction pairs as [|[chunk emb] pairs IH];
    cbn [insert_all map]; [apply adds_ret|].
  apply (adds_bnd _ _ [_]); [|exact IH].
  intros c Hc. destruct (next_id_is_new c Hc) as [Hnew _].
  pose proof (insert_forum_ids uuid4 p chunk emb c Hc) as Hc'.
  destruct (insert_forum_cases uuid4 p chunk emb c)
    as [[H _]|[(_ & H & _)|(_ & _ & E)]];
    [congruence | contradiction |].
  rewrite E in *. eexists. split; [reflexivity|]. split; [exact Hc'|].
  cbn [with_forum_row forum_chunks]. now rewrite map_app.
Qed.

Lemma insert_all_course_adds (file title : string) (url : option string)
  (pairs : list (string * vector)) :
  adds (insert_all (insert_course uuid4 file title url) pairs) [].
Proof.
  induction pairs as [|[chunk emb] pairs IH]; cbn [insert_all];
    [apply adds_ret|].
  apply (adds_bnd _ _ [] []); [|exact IH].
  intros c Hc. destruct (next_id_is_new c Hc) as [_ Hnew].
  pose proof (insert_course_ids uuid4 file title url chunk emb c Hc) as Hc'.
  destruct (insert_course_cases uuid4 file title url chunk emb c)
    as [[H _]|[_ E]]; [contradiction|].
  rewrite E in *. eexists. split; [reflexivity|]. split; [exact Hc'|].
  cbn [with_course_row forum_chunks]. now rewrite app_nil_r.
Qed.

Lemma process_post_adds (p : post) :
  post_fits p = true ->
  adds (process_post create uuid4 p) (post_digests p).
Proof.
  intros Hfit. unfold process_post, post_digests.
  destruct (chunk_text_default (content p)) as [|ch chunks] eqn:E;
    [apply adds_ret|].
  intros c Hc. unfold bnd, lift, embed.
  destruct (create_full (ch :: chunks)) as (data & -> & Hlen). cbn [bind].
  destruct (insert_all_forum_adds p
              (combine (ch :: chunks) (map embedding data)) Hfit c Hc)
    as (c' & -> & Hc' & H).
  exists c'. split; [reflexivity|]. split; [exact Hc'|]. rewrite H. f_equal.
  rewrite <- (map_map fst (fun chunk =>
                (post_id p, topic_id p, post_number p, chunk))).
  rewrite map_fst_combine; [reflexivity|]. now rewrite length_map.
Qed.

Lemma flush_adds (file title : string) (url : option string)
  (buffer : string) :
  adds (flush create uuid4 file title url buffer) [].
Proof.
  intros c Hc. unfold flush, bnd, lift, embed.
  destruct (create_full (chunk_text_default buffer)) as (data & -> & _).
  cbn [bind]. now apply insert_all_course_adds.
Qed.

Lemma course_lines_adds (file : string) (url : option string)
  (lines : list string) :
  forall title buffer,
    adds (course_lines create uuid4 file url lines title buffer) [].
Proof.
  induction lines as [|line lines IH]; intros title buffer;
    cbn [course_lines].
  - destruct (truthy (strip buffer)); [apply flush_adds | apply adds_ret].
  - destruct (startswith "#" (strip line)); [|apply IH].
    destruct (truthy (strip buffer)); [|apply IH].
    apply (adds_bnd _ _ [] []); [apply flush_adds | apply IH].
Qed.

Lemma process_course_files_adds (files : list (string * string)) :
  adds (process_course_files create uuid4 files) [].
Proof.
  induction files as [|[f content] files IH]; cbn [process_course_files];
    [apply adds_ret|].
  apply (adds_bnd _ _ [] []); [|exact IH].
  intros c Hc. unfold process_course_md, process_course_lines, bnd, lift.
  destruct (front_matter_total (splitlines content)) as [[url body] ->].
  now apply course_lines_adds.
Qed.

Lemma process_forum_files_adds (files : list (list post)) :
  Forall (fun p => post_fits p = true) (List.concat files) ->
  adds (process_forum_files create uuid4 files)
    (flat_map post_digests (List.concat files)).
Proof.
  induction files as [|posts files IH]; intros Hfit;
    cbn [process_forum_files List.concat flat_map]; [apply adds_ret|].
  cbn [List.concat] in Hfit. apply Forall_app in Hfit.
  destruct Hfit as [Hposts Hfiles].
  rewrite flat_map_app. apply adds_bnd; [|now apply IH].
  unfold process_forum_json. clear IH Hfiles.
  induction posts as [|p posts IHp];
    cbn [process_posts flat_map]; [apply adds_ret|].
  apply Forall_cons_iff in Hposts. destruct Hposts as [Hp Hposts].
  apply adds_bnd; [now apply process_post_adds | now apply IHp].
Qed.

(** When the provider answers every request in full, no two draws of
    [uuid.uuid4] are equal and the numbers of every post are within the
    64-bit range, [main] ends well and the forum table holds one row for
    every chunk of every post, in the order of the files, of the posts in
    a file and of the chunks in a post, each with the numbers of its post
    and the text of its chunk. *)
Theorem main_stores_every_chunk (forum_files : list (list post))
  (course_files : list (string * string)) :
  Forall (fun p => post_fits p = true) (List.concat forum_files) ->
  fst (main create uuid4 forum_files course_files) = Ok tt /\
  map digest (forum_chunks (snd (main create uuid4 forum_files course_files)))
  = flat_map post_digests (List.concat forum_files).
Proof.
  intros Hfit. unfold main.
  assert (Hstart : ids_ok uuid4 create_db).
  { repeat split; try constructor. intros id [[]|[]]. }
  destruct (adds_bnd _ (fun _ => process_course_files create uuid4 course_files)
              _ [] (process_forum_files_adds forum_files Hfit)
              (process_course_files_adds course_files) create_db Hstart)
    as (c' & -> & _ & H).
  split; [reflexivity|]. cbn [fst snd]. rewrite H, app_nil_r. reflexivity.
Qed.

End Full.

(** A provider that sends a vector for every text. *)
Definition full_provider : provider :=
  fun texts =>
    Ok (map (fun _ => {| index := 0; embedding := [1%float] |}) texts).

Lemma length_copies (n : nat) : String.length (copies n "+") = n.
Proof. induction n as [|n IH]; cbn; [reflexivity | now rewrite IH]. Qed.

Lemma numbered_distinct (i j : nat) : numbered i = numbered j -> i = j.
Proof.
  unfold numbered. intros H. apply (f_equal String.length) in H.
  rewrite !length_append, !length_copies in H. lia.
Qed.

Lemma main_stores_every_chunk_witness :
  fst (main full_provider numbered [[two_chunk_post; long_post]]
         [("md/plain.md", "Plain notes.")%string]) = Ok tt /\
  map digest
    (forum_chunks
       (snd (main full_provider numbered [[two_chunk_post; long_post]]
               [("md/plain.md", "Plain notes.")%string])))
  = flat_map post_digests (List.concat [[two_chunk_post; long_post]]).
Proof.
  apply (main_stores_every_chunk full_provider numbered).
  - intros texts. eexists. split; [reflexivity|]. apply length_map.
  - exact numbered_distinct.
  - repeat constructor.
Defined.

End IngestStore.

(** ** From the store that [main] builds to the ranking *)

Module StoreRetrieval.

Import PyStr PyStrFacts PyStrNumbers Embedding Ingest IngestFacts IngestStore.
Import Retrieval RetrievalFacts.

Lemma str_shape (n : Z) : truthy (str n) = true /\ mem "/" (str n) = false.
Proof.
  destruct (Z.lt_ge_cases n 0) as [Hn|Hn].
  - destruct n as [|p|p]; try lia. unfold str.
    cbn [Z.to_int NilZero.string_of_int]. split; [reflexivity|].
    cbn [mem]. change (Ascii.eqb "/" "-") with false. cbn [orb].
    destruct (str_nonneg (Z.pos p)) as (_ & _ & H & _); [lia|]. exact H.
  - destruct (str_nonneg n Hn) as (H1 & _ & H2 & _). auto.
Qed.

Lemma no_sep_all (sep : ascii) (s : string) :
  mem sep s = false ->
  all (fun c => negb (mem c (String sep EmptyString))) s = true.
Proof.
  induction s as [|c s IH]; [reflexivity|].
  intros H. cbn [mem] in H. apply orb_false_iff in H. destruct H as [Hc Hs].
  cbn [all]. rewrite (IH Hs). cbn [mem].
  rewrite Ascii.eqb_sym, Hc. reflexivity.
Qed.

(** The tie-break key that the ranking reads from the address of a forum
    chunk is the number of its post, or zero for a negative number. *)
Lemma forum_url_key (topic post : Z) :
  tie_break_key (Some (forum_url topic post)) = Ok (Z.max 0 post).
Proof.
  destruct (str_shape post) as [Ht Hm].
  unfold tie_break_key, trailing_segment, forum_url. cbn [bind].
  set (prefix := "https://discourse.onlinedegree.iitm.ac.in/t/"%string).
  change ("/" ++ str post)%string with (String "/" (str post)).
  assert (Hr : rstrip_chars "/" (prefix ++ str topic ++ String "/" (str post))
               = ((prefix ++ str topic) ++ String "/" (str post))%string).
  { rewrite <- append_assoc.
    change (String "/" (str post)) with ("/" ++ str post)%string.
    rewrite <- append_assoc. unfold rstrip_chars.
    apply rstrip_by_append; [exact Ht|].
    apply rstrip_by_none. now apply no_sep_all. }
  rewrite Hr, (last_segment_append "/" _ _ Hm).
  destruct (Z.lt_ge_cases post 0) as [Hn|Hn].
  - rewrite (str_negative _ Hn). f_equal. lia.
  - destruct (str_nonneg post Hn) as (_ & Hd & _ & Hi).
    unfold isdigit. rewrite Ht, (all_digits_isdigit _ Hd), Hi.
    cbn [andb]. f_equal. lia.
Qed.

(** Every forum row of the store that [main] builds, whatever the files
    and the provider, carries an address from which the ranking reads the
    number of the post as its tie-break key (zero for a negative number):
    what [process_forum_json] writes, [retrieve_similar_chunks] reads
    back. *)
Theorem forum_row_key_is_post_number (create : provider)
  (uuid4 : nat -> string) (forum_files : list (list post))
  (course_files : list (string * string)) (r : forum_row) :
  In r (forum_chunks (snd (main create uuid4 forum_files course_files))) ->
  tie_break_key (f_url r) = Ok (Z.max 0 (f_post_number r)).
Proof.
  intros Hr.
  destruct (main_store_rows create uuid4 forum_files course_files) as [Hf _].
  rewrite Forall_forall in Hf. destruct (Hf r Hr) as (_ & _ & ->).
  apply forum_url_key.
Qed.

Definition one_post_store : conn :=
  snd (main one_vector numbered [[two_chunk_post]] []).

Definition one_post_row : forum_row :=
  {| f_chunk_id := "id"; f_post_id := 1; f_post_number := 1;
     f_topic_id := 7; f_topic_title := "t"; f_author := "a";
     f_url := Some "https://discourse.onlinedegree.iitm.ac.in/t/7/1"%string;
     f_text := "first window  second window";
     f_embedding := Encoded [1%float] |}.

Lemma forum_row_key_is_post_number_witness :
  tie_break_key (f_url one_post_row) = Ok (Z.max 0 (f_post_number one_post_row)).
Proof.
  apply (forum_row_key_is_post_number one_vector numbered
           [[two_chunk_post]] [] one_post_row).
  vm_compute. left. reflexivity.
Defined.

(** A forum row of the store that [main] builds is never passed over by
    the scan for its address or its stored vector: as soon as the vector
    has the dimension of the question and the similarity reaches the
    threshold, the sorted list holds its entry, with the text and the
    address of the row and the number of its post as tie-break key. *)
Theorem built_forum_row_is_ranked (create : provider)
  (uuid4 : nat -> string) (forum_files : list (list post))
  (course_files : list (string * string)) (q : vector) (r : forum_row) :
  In r (forum_chunks (snd (main create uuid4 forum_files course_files))) ->
  exists emb,
    f_embedding r = Encoded emb /\
    (List.length emb = List.length q ->
     (SIMILARITY_THRESHOLD <=? cosine_similarity q emb)%float = true ->
     In {| source := "forum"; text := f_text r; url := f_url r;
           similarity := cosine_similarity q emb;
           post_number := Z.max 0 (f_post_number r) |}
        (sorted sort_key tuple_lt
           (scan_tables (snd (main create uuid4 forum_files course_files))
              q))).
Proof.
  intros Hr.
  destruct (main_store_rows create uuid4 forum_files course_files) as [Hf _].
  rewrite Forall_forall in Hf. destruct (Hf r Hr) as (_ & He & Hu).
  destruct (f_embedding r) as [emb|] eqn:Ee; [|contradiction].
  exists emb. split; [reflexivity|]. intros Hl Hs.
  apply ranked_membership.
  exists forum_table,
    {| row_url := f_url r; row_text := f_text r;
       row_embedding := f_embedding r |}, emb, (Z.max 0 (f_post_number r)).
  cbn [row_url row_text row_embedding source_of select].
  repeat split; auto.
  - apply in_map_iff. exists r. auto.
  - rewrite Hu. apply forum_url_key.
Qed.

Lemma built_forum_row_is_ranked_witness :
  exists emb,
    f_embedding one_post_row = Encoded emb /\
    (List.length emb = List.length [1%float] ->
     (SIMILARITY_THRESHOLD <=? cosine_similarity [1%float] emb)%float = true ->
     In {| source := "forum"; text := f_text one_post_row;
           url := f_url one_post_row;
           similarity := cosine_similarity [1%float] emb;
           post_number := Z.max 0 (f_post_number one_post_row) |}
        (sorted sort_key tuple_lt
           (scan_tables
              (snd (main one_vector numbered
                      [[two_chunk_post]] [])) [1%float]))).
Proof.
  apply (built_forum_row_is_ranked one_vector numbered
           [[two_chunk_post]] [] [1%float] one_post_row).
  vm_compute. left. reflexivity.
Defined.

End StoreRetrieval.

(** ** More about the ranking *)

Module RetrievalCoverage.

Import PyStr PyStrNumbers Embedding Ingest Retrieval FloatOrder RetrievalFacts.

(** *** What a result can hold *)

Lemma tie_break_key_ok (u : option string) (key : Z) :
  tie_break_key u = Ok key -> (exists a, u = Some a) /\ 0 <= key.
Proof.
  unfold tie_break_key, trailing_segment.
  destruct u as [a|]; cbn [bind]; [|discriminate].
  intros H. split; [eauto|].
  destruct (isdigit _).
  - unfold int in H. destruct (truthy _); [|discriminate].
    apply (int_digits_nonneg _ 0 key) in H; lia.
  - injection H as <-. lia.
Qed.

Lemma in_up_to {A : Type} (k : Z) (l : list A) (x : A) :
  In x (up_to k l) -> In x l.
Proof.
  destruct (up_to_prefix k l) as [rest E]. intros H. rewrite E.
  apply in_or_app. now left.
Qed.

(** Every entry of a result, whatever the count asked for, comes from a
    row of one of the two tables and has an address: a row without one is
    never returned. Its similarity is at or above the threshold, its
    source is [forum] or [course], and its tie-break key is not
    negative. *)
Theorem retrieved_entries_sound (get_embedding : string -> res vector)
  (c : conn) (question : string) (top_k : Z) (out : list chunk) (x : chunk) :
  retrieve_similar_chunks get_embedding c question top_k = Ok out ->
  In x out ->
  (exists t r a,
     In r (select c t) /\ row_url r = Some a /\
     url x = Some a /\ text x = row_text r /\ source x = source_of t) /\
  (SIMILARITY_THRESHOLD <=? similarity x)%float = true /\
  (source x = "forum"%string \/ source x = "course"%string) /\
  0 <= post_number x.
Proof.
  unfold retrieve_similar_chunks.
  destruct (get_embedding question) as [q|e]; cbn [bind]; [|discriminate].
  intros H Hx. injection H as <-. unfold rank in Hx.
  apply in_up_to, ranked_membership in Hx.
  destruct Hx as (t & r & emb & key & Hr & _ & _ & Hs & Hk & ->).
  apply tie_break_key_ok in Hk. destruct Hk as [[a Ha] Hk].
  cbn [url text source similarity post_number].
  repeat split; auto.
  - exists t, r, a. rewrite Ha. auto.
  - destruct t; auto.
Qed.

Lemma retrieved_entries_sound_witness :
  (exists t r a,
     In r (select sample_db t) /\ row_url r = Some a /\
     url tie_sample = Some a /\ text tie_sample = row_text r /\
     source tie_sample = source_of t) /\
  (SIMILARITY_THRESHOLD <=? similarity tie_sample)%float = true /\
  (source tie_sample = "forum"%string \/ source tie_sample = "course"%string) /\
  0 <= post_number tie_sample.
Proof.
  apply (retrieved_entries_sound sample_embedding sample_db "which post?" 2
           (rank sample_db [1; 0]%float 2) tie_sample).
  - reflexivity.
  - vm_compute. auto.
Defined.

(** *** How many entries, and which *)

Lemma length_up_to {A : Type} (k : Z) (l : list A) :
  Z.of_nat (List.length (up_to k l)) =
  if k <? 0 then Z.max (k + Z.of_nat (List.length l)) 0
  else Z.min k (Z.of_nat (List.length l)).
Proof.
  unfold up_to, clamp. rewrite length_firstn.
  destruct (k <? 0) eqn:E; [apply Z.ltb_lt in E | apply Z.ltb_ge in E]; lia.
Qed.

(** The number of entries returned: the count asked for, or the number of
    entries that passed the filter when there are fewer; a negative count
    is Python's index from the end, and leaves out that many entries at
    the end of the sorted list. *)
Theorem retrieve_count (get_embedding : string -> res vector) (c : conn)
  (question : string) (q : vector) (top_k : Z) :
  get_embedding question = Ok q ->
  exists out,
    retrieve_similar_chunks get_embedding c question top_k = Ok out /\
    let passed := Z.of_nat (List.length (scan_tables c q)) in
    Z.of_nat (List.length out) =
    if top_k <? 0 then Z.max (top_k + passed) 0 else Z.min top_k passed.
Proof.
  intros Hq. unfold retrieve_similar_chunks. rewrite Hq. cbn [bind].
  eexists. split; [reflexivity|]. cbv zeta. unfold rank.
  rewrite length_up_to.
  now rewrite (Permutation_length (sorted_perm sort_key tuple_lt _)).
Qed.

Lemma retrieve_count_witness :
  exists out,
    retrieve_similar_chunks sample_embedding sample_db "which post?" (-1)
    = Ok out /\
    let passed := Z.of_nat (List.length (scan_tables sample_db [1; 0]%float)) in
    Z.of_nat (List.length out) =
    if -1 <? 0 then Z.max (-1 + passed) 0 else Z.min (-1) passed.
Proof.
  apply (retrieve_count sample_embedding sample_db "which post?"
           [1; 0]%float (-1)).
  reflexivity.
Defined.

(** The entries left out by the count are the last of the order: none of
    them has a larger similarity than an entry that is returned, nor the
    same similarity and a larger tie-break key. *)
Theorem truncation_keeps_best (get_embedding : string -> res vector)
  (c : conn) (question : string) (top_k : Z) (out : list chunk) :
  retrieve_similar_chunks get_embedding c question top_k = Ok out ->
  exists q dropped,
    get_embedding question = Ok q /\
    sorted sort_key tuple_lt (scan_tables c q) = out ++ dropped /\
    forall x y, In x out -> In y dropped ->
      (similarity y <? similarity x)%float = true \/
      ((similarity x =? similarity y)%float = true /\
       post_number y <= post_number x).
Proof.
  unfold retrieve_similar_chunks.
  destruct (get_embedding question) as [q|e]; cbn [bind]; [|discriminate].
  intros H. injection H as <-. unfold rank.
  set (ranked := sorted sort_key tuple_lt (scan_tables c q)).
  destruct (up_to_prefix top_k ranked) as [dropped E].
  exists q, dropped. split; [reflexivity|]. split; [exact E|].
  intros x y Hx Hy.
  assert (Hin : forall z, In z ranked -> above_threshold z).
  { intros z Hz. pose proof (scan_tables_above c q) as Hall.
    rewrite Forall_forall in Hall. apply Hall.
    now apply (Permutation_in _ (sorted_perm sort_key tuple_lt _)). }
  apply in_split in Hx. destruct Hx as (l1 & l2 & Hx).
  apply in_split in Hy. destruct Hy as (l3 & l4 & Hy).
  assert (Hr : ranked = l1 ++ x :: (l2 ++ l3) ++ y :: l4).
  { rewrite E, Hx, Hy, <- !app_assoc. reflexivity. }
  apply may_precede_order.
  - apply Hin. rewrite Hr. apply in_or_app. right. now left.
  - apply Hin. rewrite Hr. apply in_or_app. right. right.
    apply in_or_app. right. now left.
  - exact (sorted_precedes sort_key tuple_lt ranked _ _ _ _ _
             (ranked_sorted c q) Hr).
Qed.

Lemma truncation_keeps_best_witness :
  exists q dropped,
    sample_embedding "which post?" = Ok q /\
    sorted sort_key tuple_lt (scan_tables sample_db q)
    = rank sample_db [1; 0]%float 2 ++ dropped /\
    forall x y, In x (rank sample_db [1; 0]%float 2) -> In y dropped ->
      (similarity y <? similarity x)%float = true \/
      ((similarity x =? similarity y)%float = true /\
       post_number y <= post_number x).
Proof.
  apply (truncation_keeps_best sample_embedding sample_db "which post?" 2
           (rank sample_db [1; 0]%float 2)).
  reflexivity.
Defined.

(** *** Vectors of zeros *)

(** A binary64 number that is a zero or not a number. *)
Definition zero_or_nan (x : spec_float) : bool :=
  match x with
  | S754_zero _ | S754_nan => true
  | _ => false
  end.

Lemma mul_zero_r (x y : spec_float) :
  zero_or_nan y = true -> zero_or_nan (SF64mul x y) = true.
Proof. destruct x, y; cbn; auto; discriminate. Qed.

Lemma mul_zero_l (x y : spec_float) :
  zero_or_nan x = true -> zero_or_nan (SF64mul x y) = true.
Proof. destruct x, y; cbn; auto; discriminate. Qed.

Lemma add_zero (x y : spec_float) :
  zero_or_nan x = true -> zero_or_nan y = true ->
  zero_or_nan (SF64add x y) = true.
Proof.
  destruct x as [[|]| | |], y as [[|]| | |]; cbn; auto; discriminate.
Qed.

Lemma sqrt_zero (x : spec_float) :
  zero_or_nan x = true -> zero_or_nan (SF64sqrt x) = true.
Proof. destruct x; cbn; auto; discriminate. Qed.

Lemma div_zero (x y : spec_float) :
  zero_or_nan x = true -> zero_or_nan y = true -> SF64div x y = S754_nan.
Proof. destruct x, y; cbn; auto; discriminate. Qed.

(** [x == 0] on binary64 numbers: the two zeros. *)
Definition is_zero (x : float) : bool := (x =? 0)%float.

Lemma is_zero_spec (x : float) :
  is_zero x = true -> zero_or_nan (Prim2SF x) = true.
Proof.
  unfold is_zero. rewrite eqb_spec.
  change (Prim2SF 0) with (S754_zero false).
  destruct (Prim2SF x) as [s|s| |s m e]; cbn; auto; try discriminate;
    destruct s; discriminate.
Qed.

Lemma fold_zero (l : list (float * float)) :
  Forall (fun xy => zero_or_nan (Prim2SF (fst xy)) = true
                    \/ zero_or_nan (Prim2SF (snd xy)) = true) l ->
  forall acc,
    zero_or_nan (Prim2SF acc) = true ->
    zero_or_nan
      (Prim2SF
         (fold_left (fun acc xy => (acc + fst xy * snd xy)%float) l acc))
    = true.
Proof.
  induction 1 as [|xy l Hxy Hl IH]; intros acc Hacc; cbn [fold_left];
    [exact Hacc|].
  apply IH. rewrite add_spec, mul_spec. apply add_zero; [exact Hacc|].
  destruct Hxy; [now apply mul_zero_l | now apply mul_zero_r].
Qed.

Lemma combine_zero_l (a b : vector) :
  forallb is_zero a = true ->
  Forall (fun xy => zero_or_nan (Prim2SF (fst xy)) = true
                    \/ zero_or_nan (Prim2SF (snd xy)) = true) (combine a b).
Proof.
  revert b. induction a as [|x a IH]; intros b H; cbn [combine];
    [constructor|].
  cbn [forallb] in H. apply andb_true_iff in H. destruct H as [Hx Ha].
  destruct b as [|y b]; constructor; [|now apply IH].
  left. now apply is_zero_spec.
Qed.

Lemma combine_zero_r (a b : vector) :
  forallb is_zero b = true ->
  Forall (fun xy => zero_or_nan (Prim2SF (fst xy)) = true
                    \/ zero_or_nan (Prim2SF (snd xy)) = true) (combine a b).
Proof.
  revert a. induction b as [|y b IH]; intros a H.
  - destruct a; constructor.
  - cbn [forallb] in H. apply andb_true_iff in H. destruct H as [Hy Hb].
    destruct a as [|x a]; cbn [combine]; constructor; [|now apply IH].
    right. now apply is_zero_spec.
Qed.

Lemma dot_zero (a b : vector) :
  forallb is_zero a = true \/ forallb is_zero b = true ->
  zero_or_nan (Prim2SF (dot a b)) = true.
Proof.
  intros H. unfold dot. apply fold_zero; [|reflexivity].
  destruct H; [now apply combine_zero_l | now apply combine_zero_r].
Qed.

(** The similarity of two vectors of which one holds zeros only, or is
    empty, is not a number: numpy divides zero by zero. No comparison with
    it holds. *)
Lemma cosine_of_zero (a b : vector) :
  forallb is_zero a = true \/ forallb is_zero b = true ->
  Prim2SF (cosine_similarity a b) = S754_nan /\
  (SIMILARITY_THRESHOLD <=? cosine_similarity a b)%float = false.
Proof.
  intros H.
  assert (E : Prim2SF (cosine_similarity a b) = S754_nan).
  { unfold cosine_similarity. rewrite div_spec.
    apply div_zero; [now apply dot_zero|].
    rewrite mul_spec. unfold norm.
    destruct H as [H|H];
      [apply mul_zero_l | apply mul_zero_r];
      rewrite sqrt_spec; apply sqrt_zero, dot_zero; auto. }
  split; [exact E|]. rewrite leb_spec, E. unfold SFleb.
  now destruct (Prim2SF SIMILARITY_THRESHOLD).
Qed.

Lemma zero_question_no_entry (t : table) (q : vector) (r : row) :
  forallb is_zero q = true -> entries t q r = [].
Proof.
  intros Hq. unfold entries, score_row.
  destruct (row_embedding r) as [emb|]; cbn [json_loads bind];
    [|reflexivity].
  destruct (negb _); [reflexivity|].
  destruct (cosine_of_zero q emb (or_introl Hq)) as [_ E]. now rewrite E.
Qed.

Lemma flat_map_nil {A B : Type} (f : A -> list B) (l : list A) :
  (forall x, f x = []) -> flat_map f l = [].
Proof.
  intros H. induction l as [|x l IH]; cbn [flat_map]; [reflexivity|].
  now rewrite H, IH.
Qed.

(** A question whose embedding holds zeros only, or is empty, retrieves
    nothing, whatever the store holds and whatever count is asked for:
    every similarity is not a number, and fails the test against the
    threshold. *)
Theorem zero_question_retrieves_nothing
  (get_embedding : string -> res vector) (c : conn) (question : string)
  (q : vector) (top_k : Z) :
  get_embedding question = Ok q ->
  forallb is_zero q = true ->
  retrieve_similar_chunks get_embedding c question top_k = Ok [].
Proof.
  intros Hq Hz. unfold retrieve_similar_chunks. rewrite Hq. cbn [bind].
  unfold rank. rewrite scan_tables_entries.
  rewrite !flat_map_nil by (intros r; now apply zero_question_no_entry).
  cbn [app sorted]. unfold up_to. now rewrite firstn_nil.
Qed.

Lemma zero_question_retrieves_nothing_witness :
  retrieve_similar_chunks (fun _ => Ok [0; -0]%float) sample_db "anything" 50
  = Ok [].
Proof.
  apply (zero_question_retrieves_nothing (fun _ => Ok [0; -0]%float)
           sample_db "anything" [0; -0]%float 50); reflexivity.
Defined.

(** *** Rows the scan passes over *)

(** Whether the scan can use a stored vector: it reads back, has the
    dimension of the question, and does not hold zeros only. *)
Definition usable (q : vector) (e : stored) : bool :=
  match e with
  | Malformed => false
  | Encoded emb =>
      Nat.eqb (List.length emb) (List.length q) && negb (forallb is_zero emb)
  end.

Lemma unusable_no_entry (t : table) (q : vector) (r : row) :
  usable q (row_embedding r) = false -> entries t q r = [].
Proof.
  unfold usable, entries, score_row.
  destruct (row_embedding r) as [emb|]; cbn [json_loads bind];
    [|reflexivity].
  destruct (Nat.eqb _ _); cbn [negb andb]; [|reflexivity].
  intros H. apply negb_false_iff in H.
  destruct (cosine_of_zero q emb (or_intror H)) as [_ E]. now rewrite E.
Qed.

Lemma entries_of_usable {A : Type} (t : table) (q : vector)
  (as_row : A -> row) (rows : list A) :
  flat_map (entries t q)
    (map as_row (filter (fun r => usable q (row_embedding (as_row r))) rows))
  = flat_map (entries t q) (map as_row rows).
Proof.
  induction rows as [|r rows IH]; [reflexivity|]. cbn [filter map flat_map].
  destruct (usable q (row_embedding (as_row r))) eqn:E.
  - cbn [map flat_map]. now rewrite IH.
  - now rewrite IH, (unusable_no_entry t q (as_row r) E).
Qed.

(** The rows whose stored vector does not read back, has another dimension
    than the question or holds zeros only change nothing to a result: the
    ranking is the one of the store without them, and none of them stops
    the scan. *)
Theorem unusable_rows_are_skipped (c : conn) (q : vector) (top_k : Z) :
  rank c q top_k =
  rank {| forum_chunks :=
            filter (fun r => usable q (f_embedding r)) (forum_chunks c);
          course_chunks :=
            filter (fun r => usable q (c_embedding r)) (course_chunks c);
          uuids_drawn := uuids_drawn c |} q top_k.
Proof.
  unfold rank. f_equal. f_equal.
  rewrite !scan_tables_entries. cbn [select forum_chunks course_chunks].
  rewrite (entries_of_usable forum_table q
             (fun r => {| row_url := f_url r; row_text := f_text r;
                          row_embedding := f_embedding r |})).
  rewrite (entries_of_usable course_table q
             (fun r => {| row_url := c_url r; row_text := c_text r;
                          row_embedding := c_embedding r |})).
  reflexivity.
Qed.

Definition bad_row (e : stored) : forum_row :=
  {| f_chunk_id := "bad"; f_post_id := 9; f_post_number := 9;
     f_topic_id := 7; f_topic_title := "topic"; f_author := "author";
     f_url := Some "https://d/t/7/9"%string; f_text := "bad row";
     f_embedding := e |}.

Example unusable_rows_example :
  rank {| forum_chunks :=
            [bad_row Malformed; forum_sample 1 [1; 0]%float;
             bad_row (Encoded [1; 0; 0]%float); bad_row (Encoded [0; 0]%float)];
          course_chunks := []; uuids_drawn := 4 |} [1; 0]%float 50
  = rank {| forum_chunks := [forum_sample 1 [1; 0]%float];
            course_chunks := []; uuids_drawn := 4 |} [1; 0]%float 50.
Proof. reflexivity. Qed.

End RetrievalCoverage.

(** ** More about the query endpoint *)

Module EndpointCoverage.

Import PyStr PyStrFacts SegmenterCoverage Embedding Ingest Retrieval Regex.
Import Endpoint RetrievalFacts RegexFacts EndpointFacts.

Local Open Scope string_scope.

(** *** The image of a request *)

(** An image from which no text is read, because the recognition fails or
    finds white space only, does not change the answer: the request is
    answered as the same question without image, in every case, errors
    included. *)
Theorem image_without_text_is_ignored (sv : services) (db : conn)
  (req : QueryRequest) (img : string) (made : list call) :
  image req = Some img ->
  (forall t, image_to_string sv img = Ok t -> all isspace t = true) ->
  fst (query_virtual_ta sv db req made)
  = fst (query_virtual_ta sv db
           {| question := question req; image := None |} made).
Proof.
  intros Hi Hblank.
  unfold query_virtual_ta, retrieve, generate_llm_answer,
    extract_text_from_base64_image, bnd, ret, lift, throw, log_call.
  rewrite Hi. cbn [question image].
  destruct (truthy img); [|reflexivity].
  assert (Ht : match image_to_string sv img with
               | Ok t => strip t
               | Raise _ => ""
               end = "").
  { destruct (image_to_string sv img) as [t|e] eqn:E; [|reflexivity].
    apply strip_by_all. now apply Hblank. }
  destruct (image_to_string sv img) as [t|e]; cbn [fst snd]; try rewrite Ht;
    destruct (retrieve_similar_chunks _ _ _ _) as [[|x chunks]|e'];
    cbn [fst snd]; try reflexivity;
    change (prompt_of (question req) (x :: chunks) (Some ""))
      with (prompt_of (question req) (x :: chunks) None);
    match goal with |- context [chat_completions sv ?p] =>
      destruct (chat_completions sv p) as [resp|];
      [destruct (negb (status resp =? 200)%Z);
       [destruct (body resp) | destruct (message_content resp)]|] end;
    reflexivity.
Qed.

Definition blind_services : services :=
  {| embeddings_create := embeddings_create sample_services;
     image_to_string := fun _ => Raise ValueError;
     chat_completions := chat_completions sample_services |}.

Lemma image_without_text_is_ignored_witness :
  fst (query_virtual_ta blind_services sample_db
         {| question := "which post?"; image := Some "AAAA" |} [])
  = fst (query_virtual_ta blind_services sample_db
           {| question := "which post?"; image := None |} []).
Proof.
  apply (image_without_text_is_ignored blind_services sample_db
           {| question := "which post?"; image := Some "AAAA" |} "AAAA" []).
  - reflexivity.
  - intros t H. discriminate H.
Defined.

(** *** How a request fails *)

(** The errors of the services reach the caller as they are, but for the
    recognition of the image. When the embedding service raises, the
    request fails with its error and the completion service is not called.
    When retrieval returns chunks, the completion service is called once,
    with a prompt, and its answer decides: no response, and the request
    fails with the error of the transport; a status other than 200, and
    the request fails with an HTTP error of that status whose detail is
    the body of the response (or with the error of reading the body); the
    status 200, and the request fails with the error of reading the
    message out of the body, if there is one, and is answered with the
    parsed message otherwise. *)
Theorem query_failures_propagate (sv : services) (db : conn)
  (req : QueryRequest) (made : list call) :
  (forall e,
     embeddings_create sv (question req) = Raise e ->
     fst (query_virtual_ta sv db req made) = Raise e /\
     completion_calls (snd (query_virtual_ta sv db req made))
     = completion_calls made) /\
  (forall x chunks,
     retrieve_similar_chunks (embeddings_create sv) db (question req)
       MAX_RESULTS = Ok (x :: chunks) ->
     exists extracted_text,
       let prompt := prompt_of (question req) (x :: chunks) extracted_text in
       In (CompletionCall prompt) (snd (query_virtual_ta sv db req made)) /\
       fst (query_virtual_ta sv db req made)
       = match chat_completions sv prompt with
         | Raise e => Raise e
         | Ok resp =>
             if (status resp =? 200)%Z then
               match message_content resp with
               | Ok llm_output => Ok (parse_response llm_output)
               | Raise e => Raise e
               end
             else
               match body resp with
               | Ok detail => Raise (HTTPException (status resp) detail)
               | Raise e => Raise e
               end
         end).
Proof.
  split.
  - intros e He.
    unfold query_virtual_ta, retrieve, extract_text_from_base64_image, bnd,
      ret, lift, throw, log_call, retrieve_similar_chunks.
    rewrite He.
    destruct (image req) as [img|]; [destruct (truthy img)|];
      [destruct (image_to_string sv img)| |];
      cbn [bind fst snd]; (split; [reflexivity|]);
      rewrite ?completion_calls_app; cbn; lia.
  - intros x chunks Hq.
    unfold query_virtual_ta, retrieve, generate_llm_answer,
      extract_text_from_base64_image, bnd, ret, lift, throw, log_call.
    rewrite Hq.
    destruct (image req) as [img|]; [destruct (truthy img)|];
      [destruct (image_to_string sv img) as [t|]| |];
      cbn [fst snd];
      [exists (Some (strip t)) | exists (Some EmptyString)
      | exists None | exists None];
      cbv zeta;
      match goal with |- context [chat_completions sv ?p] =>
        destruct (chat_completions sv p) as [resp|];
        [destruct (status resp =? 200)%Z; cbn [negb];
         [destruct (message_content resp) | destruct (body resp)]|]
      end;
      cbn [fst snd]; (split; [|reflexivity]);
      apply in_or_app; right; now left.
Qed.

Definition failing_completion : services :=
  {| embeddings_create := embeddings_create sample_services;
     image_to_string := image_to_string sample_services;
     chat_completions := fun _ =>
       Ok {| status := 429; body := Ok "slow down";
             message_content := Raise KeyError |} |}.

Example query_status_429 :
  fst (query_virtual_ta failing_completion sample_db
         {| question := "which post?"; image := None |} [])
  = Raise (HTTPException 429 "slow down").
Proof. reflexivity. Qed.

Definition no_response : services :=
  {| embeddings_create := embeddings_create sample_services;
     image_to_string := image_to_string sample_services;
     chat_completions := fun _ => Raise (APIError "connection reset") |}.

Example query_no_response :
  query_virtual_ta no_response sample_db
    {| question := "which post?"; image := None |} []
  = (Raise (APIError "connection reset"),
     [EmbeddingCall "which post?";
      CompletionCall
        (prompt_of "which post?" (rank sample_db [1; 0]%float MAX_RESULTS)
           None)]).
Proof. reflexivity. Qed.

Definition no_embedding : services :=
  {| embeddings_create := fun _ => Raise (APIError "quota");
     image_to_string := image_to_string sample_services;
     chat_completions := chat_completions sample_services |}.

Lemma query_failures_propagate_witness :
  (fst (query_virtual_ta no_embedding sample_db
          {| question := "which post?"; image := None |} [])
   = Raise (APIError "quota") /\
   completion_calls
     (snd (query_virtual_ta no_embedding sample_db
             {| question := "which post?"; image := None |} []))
   = completion_calls []) /\
  fst (query_virtual_ta failing_completion sample_db
         {| question := "which post?"; image := None |} [])
  = Raise (HTTPException 429 "slow down").
Proof.
  split.
  - apply (proj1 (query_failures_propagate no_embedding sample_db
                    {| question := "which post?"; image := None |} [])).
    reflexivity.
  - pose proof (proj2 (query_failures_propagate failing_completion sample_db
                         {| question := "which post?"; image := None |} []))
      as H.
    destruct (retrieve_similar_chunks (embeddings_create failing_completion)
                sample_db
                (question {| question := "which post?"; image := None |})
                MAX_RESULTS) as [[|x chunks]|e] eqn:E;
      [vm_compute in E; discriminate E | | vm_compute in E; discriminate E].
    destruct (H x chunks eq_refl) as (t & _ & Hfst). exact Hfst.
Defined.

(** *** What the matcher captures *)

Lemma rep_sound {R : Type} (cls : ascii -> bool) (least : nat)
  (k : string -> string -> option R) (s : string) :
  forall n acc r,
    rep cls least k n acc s = Some r ->
    exists w rest,
      s = w ++ rest /\ all cls w = true /\
      (least <= n + String.length w)%nat /\ k (acc ++ w) rest = Some r.
Proof.
  induction s as [|c s IH]; intros n acc r; cbn [rep].
  - destruct (least <=? n)%nat eqn:E; [|discriminate].
    apply Nat.leb_le in E. intros H. exists "", "".
    rewrite (append_nil_r acc). cbn. repeat split; auto; lia.
  - assert (Hstop : (if (least <=? n)%nat then k acc (String c s) else None)
                    = Some r ->
                    exists w rest,
                      String c s = w ++ rest /\ all cls w = true /\
                      (least <= n + String.length w)%nat /\
                      k (acc ++ w) rest = Some r).
    { destruct (least <=? n)%nat eqn:E; [|discriminate].
      apply Nat.leb_le in E. intros H. exists "", (String c s).
      rewrite (append_nil_r acc). cbn. repeat split; auto; lia. }
    destruct (cls c) eqn:Hc; [|exact Hstop].
    destruct (rep cls least k (S n) (acc ++ String c "") s) as [r'|] eqn:Er;
      [|exact Hstop].
    intros H. injection H as ->.
    apply IH in Er. destruct Er as (w & rest & -> & Hw & Hn & Hk).
    exists (String c w), rest. cbn [append all String.length].
    rewrite Hc, Hw. repeat split; auto; [lia|].
    rewrite append_assoc in Hk. exact Hk.
Qed.

(** The two groups of a match of the citation pattern: a text without
    white space, not empty, and a text without line feed. *)
Definition citation_groups (caps : list string) : Prop :=
  exists u t,
    caps = [u; t] /\ truthy u = true /\ all nonspace u = true /\
    all dot_char t = true.

Lemma match_citation_sound (s : string) (caps : list string)
  (rest : string) :
  match_here citation_pattern [] s = Some (caps, rest) ->
  citation_groups caps.
Proof.
  unfold citation_pattern. cbn [match_here].
  destruct (startswith "URL:" s); [|discriminate].
  intros H.
  apply rep_sound in H. destruct H as (w1 & r1 & _ & _ & _ & H).
  apply rep_sound in H. destruct H as (u & r2 & _ & Hu & Hlen & H).
  destruct (startswith "," r2); [|discriminate].
  apply rep_sound in H. destruct H as (w3 & r3 & _ & _ & _ & H).
  destruct (startswith "Text:" r3); [|discriminate].
  apply rep_sound in H. destruct H as (w4 & r4 & _ & _ & _ & H).
  apply rep_sound in H. destruct H as (t & r5 & _ & Ht & _ & H).
  injection H as <- _. exists u, t. cbn [app append].
  repeat split; auto.
  destruct u; [cbn in Hlen; lia | reflexivity].
Qed.

Lemma finditer_from_sound (fuel : nat) (s : string) (caps : list string) :
  In caps (finditer_from fuel citation_pattern s) -> citation_groups caps.
Proof.
  revert s. induction fuel as [|fuel IH]; intros s; cbn [finditer_from];
    [contradiction|].
  destruct (match_here citation_pattern [] s) as [[caps' rest]|] eqn:E.
  - intros [<-|H]; [now apply match_citation_sound in E | now apply IH in H].
  - destruct s as [|c s]; [contradiction | apply IH].
Qed.

Lemma all_lstrip_by (p q : ascii -> bool) (s : string) :
  all p s = true -> all p (lstrip_by q s) = true.
Proof.
  intros H. destruct (lstrip_by_drop q s) as (j & _ & ->).
  now apply all_drop.
Qed.

Lemma all_rstrip_by (p q : ascii -> bool) (s : string) :
  all p s = true -> all p (rstrip_by q s) = true.
Proof.
  intros H. destruct (rstrip_by_take q s) as (j & _ & ->).
  now apply all_take.
Qed.

(** Whatever the model answers, a citation of the response has an address
    that is not empty and holds no white space, and a text that holds no
    line feed and has no white space at either end; the answer has no
    white space at either end. *)
Theorem links_are_clean (llm_output : string) (l : Link) :
  In l (links (parse_response llm_output)) ->
  truthy (link_url l) = true /\ all nonspace (link_url l) = true /\
  all dot_char (link_text l) = true /\
  strip (link_text l) = link_text l /\
  strip (answer (parse_response llm_output))
  = answer (parse_response llm_output).
Proof.
  unfold parse_response.
  destruct (match split_once "Sources:" llm_output with
            | Some (a, b) => (a, b)
            | None => (llm_output, "")
            end) as [answer_part sources_part].
  cbn [links answer]. unfold links_of. intros H.
  apply in_flat_map in H. destruct H as (caps & Hcaps & Hl).
  apply finditer_from_sound in Hcaps.
  destruct Hcaps as (u & t & -> & Hu & Hns & Ht).
  cbn [link_of] in Hl. destruct Hl as [<-|[]]. cbn [link_url link_text].
  assert (Es : strip u = u) by (apply strip_by_none; exact Hns).
  rewrite Es. repeat split; auto.
  - unfold strip, strip_by. now apply all_rstrip_by, all_lstrip_by.
  - apply strip_idem.
  - apply strip_idem.
Qed.

Lemma links_are_clean_witness :
  let out := "See the notes.  Sources: 1. URL: https://c/2, Text:  notes, p. 2  " in
  let l := {| link_url := "https://c/2"; link_text := "notes, p. 2" |} in
  truthy (link_url l) = true /\ all nonspace (link_url l) = true /\
  all dot_char (link_text l) = true /\
  strip (link_text l) = link_text l /\
  strip (answer (parse_response out)) = answer (parse_response out).
Proof.
  apply (links_are_clean
           "See the notes.  Sources: 1. URL: https://c/2, Text:  notes, p. 2  "
           {| link_url := "https://c/2"; link_text := "notes, p. 2" |}).
  vm_compute. auto.
Defined.

End EndpointCoverage.

(** ** The repair of the forum addresses *)

Module UpdateLinksFacts.

Import PyStr PyStrFacts PyStrNumbers Embedding Ingest IngestFacts IngestStore.
Import Retrieval RetrievalFacts StoreRetrieval UpdateLinks.

Local Open Scope string_scope.

(** *** The pieces of an address *)

Lemma split_no_sep (sep : ascii) (s : string) :
  mem sep s = false -> split sep s = [s].
Proof.
  induction s as [|c s IH]; cbn [mem split]; [reflexivity|].
  intros H. apply orb_false_iff in H. destruct H as [Hc Hs].
  rewrite Ascii.eqb_sym, Hc, (IH Hs). reflexivity.
Qed.

Lemma split_not_nil (sep : ascii) (s : string) : split sep s <> [].
Proof.
  destruct s as [|c s]; cbn [split]; [discriminate|].
  destruct (Ascii.eqb c sep); [discriminate|].
  destruct (split sep s); discriminate.
Qed.

Lemma split_with_sep (sep : ascii) (s : string) :
  mem sep s = true -> exists p q r, split sep s = p :: q :: r.
Proof.
  induction s as [|c s IH]; cbn [mem split]; [discriminate|].
  rewrite Ascii.eqb_sym. destruct (Ascii.eqb c sep); cbn [orb].
  - intros _. destruct (split sep s) as [|q r] eqn:E;
      [now apply split_not_nil in E | eauto].
  - intros H. destruct (IH H) as (p & q & r & ->). eauto.
Qed.

Lemma last_split (sep : ascii) (s : string) :
  last (split sep s) EmptyString = last_segment sep s.
Proof.
  induction s as [|c s IH]; cbn [split last_segment]; [reflexivity|].
  destruct (Ascii.eqb c sep).
  - destruct (split sep s) as [|q r] eqn:E;
      [now apply split_not_nil in E | exact IH].
  - destruct (mem sep s) eqn:Hm.
    + destruct (split_with_sep sep s Hm) as (p & q & r & E).
      rewrite E in *. exact IH.
    + rewrite (split_no_sep sep s Hm). reflexivity.
Qed.

Lemma from_end_last {A : Type} (l : list A) (d x : A) :
  from_end l 1 = Ok x -> x = last l d.
Proof.
  unfold from_end. cbn [Nat.sub].
  destruct l as [|a l] using rev_ind; [discriminate|].
  rewrite rev_app_distr, last_last. cbn. congruence.
Qed.

Lemma from_end_second {A : Type} (l : list A) (x : A) :
  from_end l 2 = Ok x -> exists l' y, l = (l' ++ [x; y])%list.
Proof.
  unfold from_end. cbn [Nat.sub].
  destruct l as [|y l _] using rev_ind; [discriminate|].
  destruct l as [|z l _] using rev_ind; [discriminate|].
  rewrite !rev_app_distr. cbn. intros H. injection H as ->.
  exists l, y. now rewrite <- app_assoc.
Qed.

Definition is_slash (c : ascii) : bool := mem c "/".

Lemma is_slash_spec (c : ascii) : is_slash c = Ascii.eqb c "/".
Proof. unfold is_slash. cbn [mem]. apply orb_false_r. Qed.

(** The leading separators of a text play no part in its last piece. *)
Lemma last_segment_lstrip (s : string) :
  last_segment "/" (rstrip_by is_slash (lstrip_by is_slash s))
  = last_segment "/" (rstrip_by is_slash s).
Proof.
  induction s as [|c s IH]; [reflexivity|]. cbn [lstrip_by].
  destruct (is_slash c) eqn:Hc; [|reflexivity].
  rewrite IH. cbn [rstrip_by].
  destruct (rstrip_by is_slash s) as [|d r] eqn:E; [now rewrite Hc|].
  rewrite is_slash_spec in Hc. cbn [last_segment]. now rewrite Hc.
Qed.

Lemma last_segment_no_sep (sep : ascii) (s : string) :
  mem sep (last_segment sep s) = false.
Proof.
  induction s as [|c s IH]; cbn [last_segment]; [reflexivity|].
  destruct (Ascii.eqb c sep) eqn:Hc; [exact IH|].
  destruct (mem sep s) eqn:Hm; [exact IH|].
  cbn [mem]. now rewrite Ascii.eqb_sym, Hc, Hm.
Qed.

(** A text without separator at its end has a last piece that is not
    empty, unless it is empty. *)
Lemma last_segment_of_stripped (s : string) :
  rstrip_by is_slash s = s -> last_segment "/" s = EmptyString ->
  s = EmptyString.
Proof.
  induction s as [|c s IH]; [reflexivity|]. intros Hr Hl. exfalso.
  cbn [rstrip_by] in Hr. cbn [last_segment] in Hl.
  rewrite <- is_slash_spec in Hl.
  assert (Hs : s = EmptyString /\ is_slash c = false
               \/ s <> EmptyString /\ rstrip_by is_slash s = s).
  { destruct (rstrip_by is_slash s) as [|d r] eqn:E in Hr.
    - destruct (is_slash c); [discriminate|]. injection Hr as <-. auto.
    - injection Hr as Hr. right. split; [congruence|].
      rewrite <- Hr at 2. exact E. }
  destruct Hs as [[-> Hc]|[Hne Hs]].
  - rewrite Hc in Hl. discriminate.
  - destruct (is_slash c); [now apply Hne, IH|].
    destruct (mem "/" s); [now apply Hne, IH | discriminate].
Qed.

(** What the script reads as the number of the post is the piece from
    which the ranking reads its tie-break key; it is not empty and holds
    no separator. *)
Lemma post_number_is_trailing_segment (old topic post : string) :
  topic_and_post (Some old) = Ok (Some (topic, post)) ->
  trailing_segment (Some old) = Ok post /\
  truthy post = true /\ mem "/" post = false.
Proof.
  unfold topic_and_post.
  destruct (second_piece "/t/" old) as [piece|e]; cbn [bind]; [|discriminate].
  destruct (mem "-" piece); [discriminate|].
  destruct (from_end _ 2) as [t|e] eqn:E2; cbn [bind]; [|discriminate].
  destruct (from_end _ 1) as [p|e] eqn:E1; cbn [bind]; [|discriminate].
  intros H. injection H as <- <-.
  apply (from_end_last _ EmptyString) in E1. rewrite last_split in E1.
  unfold strip_chars, strip_by in E1, E2. fold is_slash in E1, E2.
  rewrite last_segment_lstrip in E1.
  unfold trailing_segment, rstrip_chars. fold is_slash.
  split; [now rewrite E1|]. subst p.
  split; [|apply last_segment_no_sep].
  destruct (last_segment "/" (rstrip_by is_slash old)) eqn:El; [|reflexivity].
  exfalso. rewrite <- last_segment_lstrip in El.
  apply last_segment_of_stripped in El; [|apply rstrip_by_idem].
  rewrite El in E2. discriminate.
Qed.

(** The address the script writes ends with the same piece. *)
Lemma new_url_trailing_segment (base post : string) :
  truthy post = true -> mem "/" post = false ->
  trailing_segment (Some (base ++ "/" ++ post)) = Ok post.
Proof.
  intros Ht Hm. unfold trailing_segment, rstrip_chars.
  assert (Hr : rstrip_by (fun c => mem c "/") (base ++ "/" ++ post)
               = base ++ String "/" post).
  { change (String "/" post) with ("/" ++ post).
    rewrite <- append_assoc.
    apply rstrip_by_append; [exact Ht|].
    apply rstrip_by_none. now apply no_sep_all. }
  rewrite Hr, (last_segment_append "/" _ _ Hm). reflexivity.
Qed.

Lemma tie_break_key_of_segment (u v : option string) :
  trailing_segment u = trailing_segment v ->
  tie_break_key u = tie_break_key v.
Proof. unfold tie_break_key. now intros ->. Qed.

(** *** One row *)

(** Two rows that differ by their address at most, and whose addresses
    give the same tie-break key. *)
Definition same_but_url (r r' : forum_row) : Prop :=
  f_chunk_id r' = f_chunk_id r /\ f_post_id r' = f_post_id r /\
  f_post_number r' = f_post_number r /\ f_topic_id r' = f_topic_id r /\
  f_topic_title r' = f_topic_title r /\ f_author r' = f_author r /\
  f_text r' = f_text r /\ f_embedding r' = f_embedding r /\
  tie_break_key (f_url r') = tie_break_key (f_url r).

Lemma same_but_url_refl (r : forum_row) : same_but_url r r.
Proof. repeat split. Qed.

(** A store that is [c0] but for the addresses of its forum rows. *)
Definition repaired (c0 c : conn) : Prop :=
  Forall2 same_but_url (forum_chunks c0) (forum_chunks c) /\
  course_chunks c = course_chunks c0.

Lemma update_url_repaired (c0 c : conn) (r0 : forum_row) (old new_url : string) :
  NoDup (map f_chunk_id (forum_chunks c0)) ->
  In r0 (forum_chunks c0) -> f_url r0 = Some old ->
  trailing_segment (Some new_url) = trailing_segment (Some old) ->
  repaired c0 c ->
  repaired c0 (update_url new_url (f_chunk_id r0) c).
Proof.
  intros Hnd Hin Hold Hseg [Hrows Hcourse]. split; [|exact Hcourse].
  cbn [update_url forum_chunks].
  revert Hnd Hin. induction Hrows as [|r r' l l' Hr Hl IH];
    intros Hnd Hin; cbn [map]; constructor.
  - destruct (String.eqb (f_chunk_id r') (f_chunk_id r0)) eqn:E; [|exact Hr].
    apply String.eqb_eq in E.
    destruct Hr as (H1 & H2 & H3 & H4 & H5 & H6 & H7 & H8 & H9).
    repeat split; auto. cbn [f_url].
    assert (Hsame : r = r0).
    { destruct Hin as [Hin|Hin]; [exact Hin|]. exfalso.
      cbn [map] in Hnd. apply NoDup_cons_iff in Hnd. apply (proj1 Hnd).
      rewrite <- H1, E. now apply in_map. }
    subst r. rewrite Hold. now apply tie_break_key_of_segment.
  - cbn [map] in Hnd. apply NoDup_cons_iff in Hnd.
    destruct Hin as [->|Hin].
    + (* the other rows have other identifiers *)
      clear IH. destruct Hnd as [Hnot _].
      assert (Hfix : map (fun r1 =>
                 if String.eqb (f_chunk_id r1) (f_chunk_id r0)
                 then {| f_chunk_id := f_chunk_id r1;
                         f_post_id := f_post_id r1;
                         f_post_number := f_post_number r1;
                         f_topic_id := f_topic_id r1;
                         f_topic_title := f_topic_title r1;
                         f_author := f_author r1;
                         f_url := Some new_url;
                         f_text := f_text r1;
                         f_embedding := f_embedding r1 |}
                 else r1) l' = l').
      { clear Hr. induction Hl as [|a a' l l' Ha Hl IH]; [reflexivity|].
        cbn [map]. rewrite IH.
        - destruct (String.eqb (f_chunk_id a') (f_chunk_id r0)) eqn:E;
            [|reflexivity].
          exfalso. apply Hnot. apply String.eqb_eq in E.
          cbn [map]. left. destruct Ha as (H1 & _). congruence.
        - intros H. apply Hnot. cbn [map]. now right. }
      rewrite Hfix. exact Hl.
    + apply IH; [apply Hnd | exact Hin].
Qed.

Section Repair.

Variable expand_discourse_link : nat -> string -> res string.

Lemma write_url_repaired (c0 c : conn) (r0 : forum_row)
  (old base post topic : string) :
  NoDup (map f_chunk_id (forum_chunks c0)) ->
  In r0 (forum_chunks c0) -> f_url r0 = Some old ->
  topic_and_post (Some old) = Ok (Some (topic, post)) ->
  repaired c0 c ->
  repaired c0 (write_url old (base ++ "/" ++ post) (f_chunk_id r0) c).
Proof.
  intros Hnd Hin Hold Htp Hc. unfold write_url.
  destruct (String.eqb _ old); [exact Hc|].
  apply (update_url_repaired c0 c r0 old); auto.
  destruct (post_number_is_trailing_segment old topic post Htp)
    as (Hseg & Ht & Hm).
  now rewrite Hseg, new_url_trailing_segment.
Qed.

Lemma fix_row_repaired (c0 : conn) (st : run) (r0 : forum_row) :
  NoDup (map f_chunk_id (forum_chunks c0)) ->
  In r0 (forum_chunks c0) ->
  repaired c0 (store st) ->
  repaired c0
    (store (fix_row expand_discourse_link st (f_chunk_id r0, f_url r0))).
Proof.
  intros Hnd Hin Hc. unfold fix_row.
  destruct (f_url r0) as [old|] eqn:Hold; [|exact Hc].
  destruct (topic_and_post (Some old)) as [[[topic post]|]|e] eqn:Htp;
    try exact Hc.
  destruct (lookup _ _) as [base|].
  - cbn [store]. now apply (write_url_repaired c0 _ r0 old base post topic).
  - destruct (expand_discourse_link _ _) as [full|e]; cbn [store];
      [|exact Hc].
    now apply (write_url_repaired c0 _ r0 old _ post topic).
Qed.

Lemma fix_rows_repaired (c0 : conn) (rows : list forum_row) :
  NoDup (map f_chunk_id (forum_chunks c0)) ->
  (forall r, In r rows -> In r (forum_chunks c0)) ->
  forall st,
    repaired c0 (store st) ->
    repaired c0
      (store (fold_left (fix_row expand_discourse_link)
                (map (fun r => (f_chunk_id r, f_url r)) rows) st)).
Proof.
  intros Hnd. induction rows as [|r rows IH]; intros Hin st Hst;
    cbn [map fold_left]; [exact Hst|].
  apply IH; [intros r' Hr'; apply Hin; now right|].
  apply fix_row_repaired; auto. apply Hin. now left.
Qed.

Lemma repaired_refl (c : conn) : repaired c c.
Proof.
  split; [|reflexivity].
  induction (forum_chunks c); constructor; auto using same_but_url_refl.
Qed.

(** The repair changes addresses only, and no tie-break key: whatever the
    expansion answers and whatever the cache holds, the forum rows are the
    same after the run, in the same order, but for their addresses, the
    ranking reads the same tie-break key from the new address of a row as
    from its old one, and the course rows are untouched. The identifiers
    of the rows are distinct, as the primary key of the table makes
    them. *)
Theorem fix_forum_urls_keeps_keys (st : run) :
  NoDup (map f_chunk_id (forum_chunks (store st))) ->
  Forall2 same_but_url (forum_chunks (store st))
    (forum_chunks (store (fix_forum_urls expand_discourse_link st))) /\
  course_chunks (store (fix_forum_urls expand_discourse_link st))
  = course_chunks (store st).
Proof.
  intros Hnd. unfold fix_forum_urls.
  apply (fix_rows_repaired (store st)); auto using repaired_refl.
Qed.

End Repair.

Definition slugged : nat -> string -> res string :=
  fun _ _ => Ok "https://discourse.onlinedegree.iitm.ac.in/t/project-1/7/1".

Definition plain_store : conn :=
  {| forum_chunks :=
       [{| f_chunk_id := "a"; f_post_id := 11; f_post_number := 3;
           f_topic_id := 7; f_topic_title := "topic"; f_author := "author";
           f_url := Some (forum_url 7 3); f_text := "third post";
           f_embedding := Encoded [1; 0]%float |};
        {| f_chunk_id := "b"; f_post_id := 12; f_post_number := 4;
           f_topic_id := 7; f_topic_title := "topic"; f_author := "author";
           f_url := Some (forum_url 7 4); f_text := "fourth post";
           f_embedding := Encoded [1; 0]%float |}];
     course_chunks := [];
     uuids_drawn := 2 |}.

Definition plain_run : run :=
  {| store := plain_store; url_cache := []; expansions := 0 |}.

Example fix_forum_urls_example :
  map f_url (forum_chunks (store (fix_forum_urls slugged plain_run)))
  = [Some "https://discourse.onlinedegree.iitm.ac.in/t/project-1/7/3";
     Some "https://discourse.onlinedegree.iitm.ac.in/t/project-1/7/4"]
  /\ url_cache (fix_forum_urls slugged plain_run)
     = [("https://discourse.onlinedegree.iitm.ac.in/t/7/1",
         "https://discourse.onlinedegree.iitm.ac.in/t/project-1/7")]
  /\ expansions (fix_forum_urls slugged plain_run) = 1%nat.
Proof. repeat split; reflexivity. Qed.

Lemma fix_forum_urls_keeps_keys_witness :
  Forall2 same_but_url (forum_chunks (store plain_run))
    (forum_chunks (store (fix_forum_urls slugged plain_run))) /\
  course_chunks (store (fix_forum_urls slugged plain_run))
  = course_chunks (store plain_run).
Proof.
  apply (fix_forum_urls_keeps_keys slugged plain_run).
  repeat constructor; cbn; intuition discriminate.
Defined.

(** *** The ranking after the repair *)

(** Two entries that differ by their address at most. *)
Definition same_entry_but_url (x x' : chunk) : Prop :=
  source x' = source x /\ text x' = text x /\
  similarity x' = similarity x /\ post_number x' = post_number x.

Lemma entries_same (t : table) (q : vector) (r r' : row) :
  row_text r' = row_text r -> row_embedding r' = row_embedding r ->
  tie_break_key (row_url r') = tie_break_key (row_url r) ->
  Forall2 same_entry_but_url (entries t q r) (entries t q r').
Proof.
  intros Ht He Hk. unfold entries, score_row. rewrite He, Hk, Ht.
  destruct (json_loads (row_embedding r)) as [emb|e]; cbn [bind];
    [|constructor].
  destruct (negb _); [constructor|].
  destruct (_ <=? _)%float; [|constructor].
  destruct (tie_break_key (row_url r)) as [key|e]; cbn [bind];
    repeat constructor.
Qed.

Lemma flat_map_Forall2 {A B : Type} (R : A -> A -> Prop)
  (S : B -> B -> Prop) (f : A -> list B) (l l' : list A) :
  (forall a a', R a a' -> Forall2 S (f a) (f a')) ->
  Forall2 R l l' -> Forall2 S (flat_map f l) (flat_map f l').
Proof.
  intros Hf. induction 1; cbn [flat_map]; [constructor|].
  apply Forall2_app; auto.
Qed.

Lemma insert_Forall2 (x x' : chunk) (l l' : list chunk) :
  same_entry_but_url x x' -> Forall2 same_entry_but_url l l' ->
  Forall2 same_entry_but_url (insert sort_key tuple_lt x l)
    (insert sort_key tuple_lt x' l').
Proof.
  intros Hx. induction 1 as [|y y' l l' Hy Hl IH]; cbn [insert].
  - constructor; [exact Hx | constructor].
  - assert (E : tuple_lt (sort_key y') (sort_key x')
                = tuple_lt (sort_key y) (sort_key x)).
    { destruct Hx as (_ & _ & Hs & Hp), Hy as (_ & _ & Hs' & Hp').
      unfold sort_key. now rewrite Hs, Hp, Hs', Hp'. }
    rewrite E. clear E.
    destruct (tuple_lt (sort_key y) (sort_key x)); constructor; auto.
Qed.

Lemma sorted_Forall2 (l l' : list chunk) :
  Forall2 same_entry_but_url l l' ->
  Forall2 same_entry_but_url (sorted sort_key tuple_lt l)
    (sorted sort_key tuple_lt l').
Proof.
  induction 1; cbn [sorted]; [constructor|]. now apply insert_Forall2.
Qed.

Lemma firstn_Forall2 {A : Type} (R : A -> A -> Prop) (n : nat)
  (l l' : list A) :
  Forall2 R l l' -> Forall2 R (firstn n l) (firstn n l').
Proof.
  intros H. revert n. induction H; intros [|n]; cbn [firstn];
    constructor; auto.
Qed.

Lemma same_entry_refl (l : list chunk) : Forall2 same_entry_but_url l l.
Proof. induction l; constructor; auto. repeat split. Qed.

(** The repair changes no ranking: for every question and every count,
    the result after the run holds the entries of the result before it,
    in the same order, with the same texts, similarities and tie-break
    keys; only their addresses may differ. *)
Theorem repair_keeps_ranking
  (expand_discourse_link : nat -> string -> res string) (st : run)
  (q : vector) (top_k : Z) :
  NoDup (map f_chunk_id (forum_chunks (store st))) ->
  Forall2 same_entry_but_url (rank (store st) q top_k)
    (rank (store (fix_forum_urls expand_discourse_link st)) q top_k).
Proof.
  intros Hnd.
  destruct (fix_rows_repaired expand_discourse_link (store st)
              (forum_chunks (store st)) Hnd (fun r H => H) st
              (repaired_refl _)) as [Hrows Hcourse].
  fold (fix_forum_urls expand_discourse_link st) in Hrows, Hcourse.
  set (c' := store (fix_forum_urls expand_discourse_link st)) in *.
  assert (Hscan : Forall2 same_entry_but_url (scan_tables (store st) q)
                    (scan_tables c' q)).
  { rewrite !scan_tables_entries. apply Forall2_app.
    - cbn [select]. rewrite !flat_map_concat_map, !map_map,
        <- !flat_map_concat_map.
      apply (flat_map_Forall2 same_but_url); [|exact Hrows].
      intros r r' (_ & _ & _ & _ & _ & _ & Ht & He & Hk).
      now apply entries_same.
    - cbn [select]. rewrite Hcourse. apply same_entry_refl. }
  unfold rank, up_to. apply sorted_Forall2 in Hscan.
  rewrite (Forall2_length Hscan). now apply firstn_Forall2.
Qed.

Lemma repair_keeps_ranking_witness :
  Forall2 same_entry_but_url (rank (store plain_run) [1; 0]%float 50)
    (rank (store (fix_forum_urls slugged plain_run)) [1; 0]%float 50).
Proof.
  apply (repair_keeps_ranking slugged plain_run [1; 0]%float 50).
  repeat constructor; cbn; intuition discriminate.
Defined.

Example repair_keeps_ranking_example :
  map url (rank (store plain_run) [1; 0]%float 50)
  = [Some "https://discourse.onlinedegree.iitm.ac.in/t/7/4";
     Some "https://discourse.onlinedegree.iitm.ac.in/t/7/3"] /\
  map url (rank (store (fix_forum_urls slugged plain_run)) [1; 0]%float 50)
  = [Some "https://discourse.onlinedegree.iitm.ac.in/t/project-1/7/4";
     Some "https://discourse.onlinedegree.iitm.ac.in/t/project-1/7/3"].
Proof. split; reflexivity. Qed.

(** *** The addresses that [process_forum_json] writes, read back *)

Lemma str_chars (n : Z) :
  all (fun c => is_ascii_digit c || Ascii.eqb c "-") (str n) = true.
Proof.
  assert (Hd : forall s, all is_ascii_digit s = true ->
                 all (fun c => is_ascii_digit c || Ascii.eqb c "-") s = true).
  { induction s as [|c s IH]; cbn [all]; [reflexivity|].
    intros H. apply andb_true_iff in H. destruct H as [Hc Hs].
    now rewrite Hc, IH. }
  destruct n as [|p|p].
  - reflexivity.
  - apply Hd. now destruct (str_nonneg (Z.pos p)) as (_ & H & _).
  - unfold str. cbn [Z.to_int NilZero.string_of_int all].
    change (is_ascii_digit "-" || Ascii.eqb "-" "-") with true.
    apply Hd. now destruct (str_nonneg (Z.pos p)) as (_ & H & _).
Qed.

Lemma all_not_mem (p : ascii -> bool) (c : ascii) (s : string) :
  all p s = true -> p c = false -> mem c s = false.
Proof.
  intros Hs Hc. induction s as [|d s IH]; cbn [mem]; [reflexivity|].
  cbn [all] in Hs. apply andb_true_iff in Hs. destruct Hs as [Hd Hs].
  rewrite (IH Hs), orb_false_r.
  destruct (Ascii.eqb_spec c d); [congruence | reflexivity].
Qed.

Lemma no_marker_without_t (s : string) :
  mem "t" s = false -> split_once "/t/" s = None.
Proof.
  induction s as [|c s IH]; [reflexivity|].
  intros H. cbn [mem] in H. apply orb_false_iff in H. destruct H as [Hc Hs].
  rewrite EndpointFacts.split_once_unfold, (IH Hs).
  destruct s as [|d s]; cbn [startswith];
    [now rewrite andb_false_r|].
  cbn [mem] in Hs. apply orb_false_iff in Hs. destruct Hs as [Hd _].
  now rewrite Hd, andb_false_r.
Qed.

Lemma split_append (sep : ascii) (a b : string) :
  split sep (a ++ String sep b) = (split sep a ++ split sep b)%list.
Proof.
  induction a as [|c a IH]; cbn [append split].
  - now rewrite Ascii.eqb_refl.
  - rewrite IH. destruct (Ascii.eqb c sep); [reflexivity|].
    destruct (split sep a) as [|p ps] eqn:E;
      [now apply split_not_nil in E | reflexivity].
Qed.

Lemma first_marker (b : string) :
  split_once "/t/" ("https://discourse.onlinedegree.iitm.ac.in/t/" ++ b)
  = Some ("https://discourse.onlinedegree.iitm.ac.in", b).
Proof. reflexivity. Qed.

Lemma mem_str_sign (n : Z) : mem "-" (str n) = negb (0 <=? n)%Z.
Proof.
  destruct n as [|p|p]; [reflexivity| |reflexivity].
  apply (all_not_mem is_ascii_digit); [|reflexivity].
  now destruct (str_nonneg (Z.pos p)) as (_ & H & _).
Qed.

(** The script reads back from an address written by
    [process_forum_json] the numbers of the topic and of the post, as
    they are printed; and it passes the address over, as one that has a
    dash after [/t/], when one of the two numbers is negative. *)
Lemma topic_and_post_forum_url (topic post : Z) :
  topic_and_post (Some (forum_url topic post))
  = if ((0 <=? topic) && (0 <=? post))%Z
    then Ok (Some (str topic, str post))
    else Ok None.
Proof.
  unfold topic_and_post, second_piece, forum_url.
  rewrite first_marker.
  assert (Hnot : forall n, mem "t" (str n) = false).
  { intros n. now apply (all_not_mem _ _ _ (str_chars n)). }
  rewrite no_marker_without_t
    by (rewrite !mem_append, !Hnot; reflexivity).
  cbn [bind]. rewrite !mem_append, !mem_str_sign.
  change (mem "-" "/") with false. rewrite orb_false_l.
  rewrite <- negb_andb.
  destruct ((0 <=? topic) && (0 <=? post))%Z; cbn [negb]; [|reflexivity].
  destruct (str_shape topic) as [Ht Hmt], (str_shape post) as [Hp Hmp].
  set (url := "https://discourse.onlinedegree.iitm.ac.in/t/"
                ++ str topic ++ "/" ++ str post).
  assert (Hs : strip_chars "/" url = url).
  { unfold strip_chars, strip_by.
    change (lstrip_by (fun c => mem c "/") url) with url.
    replace url
      with (("https://discourse.onlinedegree.iitm.ac.in/t/"
               ++ str topic ++ "/") ++ str post)
      by (unfold url; now rewrite !append_assoc).
    apply rstrip_by_append; [exact Hp|].
    apply rstrip_by_none. now apply no_sep_all. }
  rewrite Hs.
  change url
    with ("https://discourse.onlinedegree.iitm.ac.in/t"
            ++ String "/" (str topic ++ String "/" (str post))).
  rewrite !split_append, (split_no_sep "/" _ Hmt), (split_no_sep "/" _ Hmp).
  unfold from_end. rewrite !rev_app_distr. reflexivity.
Qed.

(** Every forum row of the store that [main] builds has an address from
    which the repair reads back the numbers of its topic and of its post,
    and the address it asks the expansion of is the one of the first post
    of the topic; a row with a negative number is passed over. *)
Theorem built_address_read_back (create : provider)
  (uuid4 : nat -> string) (forum_files : list (list post))
  (course_files : list (string * string)) (r : forum_row) :
  In r (forum_chunks (snd (main create uuid4 forum_files course_files))) ->
  topic_and_post (f_url r)
  = (if ((0 <=? f_topic_id r) && (0 <=? f_post_number r))%Z
     then Ok (Some (str (f_topic_id r), str (f_post_number r)))
     else Ok None) /\
  topic_base_url (str (f_topic_id r)) = forum_url (f_topic_id r) 1.
Proof.
  intros Hr.
  destruct (main_store_rows create uuid4 forum_files course_files) as [Hf _].
  rewrite Forall_forall in Hf. destruct (Hf r Hr) as (_ & _ & ->).
  split; [apply topic_and_post_forum_url | reflexivity].
Qed.

Lemma built_address_read_back_witness :
  topic_and_post (f_url one_post_row)
  = (if ((0 <=? f_topic_id one_post_row)
         && (0 <=? f_post_number one_post_row))%Z
     then Ok (Some (str (f_topic_id one_post_row),
                    str (f_post_number one_post_row)))
     else Ok None) /\
  topic_base_url (str (f_topic_id one_post_row))
  = forum_url (f_topic_id one_post_row) 1.
Proof.
  apply (built_address_read_back one_vector numbered
           [[two_chunk_post]] [] one_post_row).
  vm_compute. left. reflexivity.
Defined.

End UpdateLinksFacts.

(** ** The download of a topic *)

Module DownloaderFacts.

Import Downloader.

(** *** The batches *)

Lemma firstn_add {A : Type} (a b : nat) (l : list A) :
  firstn (a + b) l = firstn a l ++ firstn b (skipn a l).
Proof.
  revert l. induction a as [|a IH]; intros l; [reflexivity|].
  destruct l as [|x l]; cbn [Nat.add firstn skipn app].
  - now rewrite firstn_nil.
  - now rewrite IH.
Qed.

Lemma batches_prefix {A : Type} (l : list A) (size m : nat) :
  List.concat (map (fun i => slice_list l i size)
            (map (fun k => k * size)%nat (seq 0 m)))
  = firstn (m * size) l.
Proof.
  induction m as [|m IH]; [reflexivity|].
  rewrite seq_S, !map_app, concat_app, IH. cbn [map List.concat Nat.add].
  rewrite app_nil_r. unfold slice_list.
  replace (S m * size)%nat with (m * size + size)%nat by lia.
  now rewrite firstn_add.
Qed.

Lemma batch_count (n : nat) :
  let m := ((n + POST_ID_BATCH_SIZE - 1) / POST_ID_BATCH_SIZE)%nat in
  (n <= m * POST_ID_BATCH_SIZE)%nat /\
  (m * POST_ID_BATCH_SIZE < n + POST_ID_BATCH_SIZE)%nat.
Proof.
  unfold POST_ID_BATCH_SIZE. cbv zeta.
  pose proof (Nat.div_mod_eq (n + 50 - 1) 50) as E.
  pose proof (Nat.mod_upper_bound (n + 50 - 1) 50 ltac:(lia)) as B.
  lia.
Qed.

Lemma batches_concat (missing_ids : list Z) :
  List.concat (batches missing_ids) = missing_ids.
Proof.
  unfold batches, range_step.
  destruct (batch_count (List.length missing_ids)) as [Hle _].
  rewrite batches_prefix. now apply firstn_all2.
Qed.

(** The requests for the missing posts ask for every missing post once:
    the batches, put end to end, are the list of the missing posts; none
    is empty and none has more than fifty posts. *)
Theorem batches_partition (missing_ids : list Z) :
  List.concat (batches missing_ids) = missing_ids /\
  Forall (fun b => (1 <= List.length b <= POST_ID_BATCH_SIZE)%nat)
    (batches missing_ids).
Proof.
  unfold batches, range_step.
  destruct (batch_count (List.length missing_ids)) as [Hle Hlt].
  set (m := ((List.length missing_ids + POST_ID_BATCH_SIZE - 1)
             / POST_ID_BATCH_SIZE)%nat) in *.
  split.
  - rewrite batches_prefix. now apply firstn_all2.
  - apply Forall_forall. intros b Hb.
    apply in_map_iff in Hb. destruct Hb as (i & <- & Hi).
    apply in_map_iff in Hi. destruct Hi as (k & <- & Hk).
    apply in_seq in Hk. unfold slice_list.
    rewrite length_firstn, length_skipn.
    unfold POST_ID_BATCH_SIZE in *. nia.
Qed.

(** *** The dictionary of the posts *)

(** Every entry of the dictionary stands under the [id] of its post. *)
Definition keyed (d : dict) : Prop :=
  Forall (fun kv => id (snd kv) = fst kv) d.

Lemma get_keyed (d : dict) (k : Z) (p : post_json) :
  keyed d -> get k d = Some p -> id p = k.
Proof.
  induction 1 as [|[k' v] d Hkv Hd IH]; cbn [get]; [discriminate|].
  destruct (Z.eqb_spec k k') as [->|Hne]; [|exact IH].
  intros H. injection H as <-. exact Hkv.
Qed.

Lemma by_id_spec (l : list post_json) :
  forall d, keyed d ->
    keyed (fold_left (fun d p => (id p, p) :: d) l d) /\
    forall k, contains_key k d = true \/ In k (map id l) ->
      contains_key k (fold_left (fun d p => (id p, p) :: d) l d) = true.
Proof.
  induction l as [|p l IH]; intros d Hd; cbn [fold_left map].
  - split; [exact Hd|]. intros k [H|[]]. exact H.
  - destruct (IH ((id p, p) :: d)) as [Hk Hc];
      [constructor; [reflexivity | exact Hd]|].
    split; [exact Hk|]. intros k H. apply Hc.
    unfold contains_key. cbn [get In] in *.
    destruct (Z.eqb_spec k (id p)) as [->|Hne]; [now left|].
    destruct H as [H|[H|H]]; [now left | congruence | now right].
Qed.

Lemma add_missing_spec (fetched : list post_json) :
  forall d, keyed d ->
    keyed (add_missing d fetched) /\
    forall k, contains_key k d = true \/ In k (map id fetched) ->
      contains_key k (add_missing d fetched) = true.
Proof.
  unfold add_missing.
  induction fetched as [|p l IH]; intros d Hd; cbn [fold_left map].
  - split; [exact Hd|]. intros k [H|[]]. exact H.
  - destruct (contains_key (id p) d) eqn:E.
    + destruct (IH d Hd) as [Hk Hc]. split; [exact Hk|].
      intros k H. apply Hc. cbn [In] in H.
      destruct H as [H|[<-|H]]; auto.
    + destruct (IH ((id p, p) :: d)) as [Hk Hc];
        [constructor; [reflexivity | exact Hd]|].
      split; [exact Hk|]. intros k H. apply Hc.
      unfold contains_key. cbn [get In] in *.
      destruct (Z.eqb_spec k (id p)) as [->|Hne]; [now left|].
      destruct H as [H|[H|H]]; [now left | congruence | now right].
Qed.

Lemma in_stream_order_ids (existing : dict) (all_ids : list Z) :
  keyed existing ->
  (forall k, In k all_ids -> contains_key k existing = true) ->
  map id (in_stream_order existing all_ids) = all_ids.
Proof.
  intros Hk. unfold in_stream_order.
  induction all_ids as [|k l IH]; intros Hall; [reflexivity|].
  cbn [flat_map]. specialize (Hall k (or_introl eq_refl)) as Hin.
  unfold contains_key in Hin.
  destruct (get k existing) as [p|] eqn:E; [|discriminate].
  cbn [app map]. rewrite (get_keyed _ _ _ Hk E), IH; [reflexivity|].
  intros k' Hk'. apply Hall. now right.
Qed.

(** *** A download that the server answers in full *)

Section Answered.

Variable get_batch : nat -> list Z -> res batch_json.

(** The server answers every request for a batch with the posts asked
    for, in one of the three shapes. *)
Definition answers_in_full : Prop :=
  forall n batch_ids,
    exists batch_data,
      get_batch n batch_ids = Ok batch_data /\
      map id (posts_of batch_data) = batch_ids.

Lemma fetch_batches_ids (bs : list (list Z)) :
  answers_in_full ->
  forall n fetched,
    map id (fetch_batches get_batch n bs fetched)
    = map id fetched ++ List.concat bs.
Proof.
  intros Hans. induction bs as [|b bs IH]; intros n fetched;
    cbn [fetch_batches List.concat].
  - now rewrite app_nil_r.
  - destruct (Hans n b) as (data & -> & Hids).
    rewrite IH, map_app, Hids, <- app_assoc. reflexivity.
Qed.

(** When the server answers every request in full, the topic that
    [get_full_topic_json] returns holds a post for every number of its
    stream. If posts were missing, its posts are exactly those of the
    stream, in the order of the stream; if none was, the topic is returned
    as it was fetched. *)
Theorem download_is_complete (topic_data : topic_json)
  (all_ids : list Z) (loaded : list post_json) (others : string) :
  post_stream topic_data
  = Some {| stream := Some all_ids; posts := Some loaded;
            stream_fields := others |} ->
  answers_in_full ->
  exists full_posts,
    get_full_topic_json (Ok topic_data) get_batch
    = Some {| post_stream :=
                Some {| stream := Some all_ids; posts := Some full_posts;
                        stream_fields := others |};
              topic_fields := topic_fields topic_data |} /\
    (forall pid, In pid all_ids -> In pid (map id full_posts)) /\
    let missing_ids :=
      filter (fun pid => negb (existsb (Z.eqb pid) (map id loaded)))
        all_ids in
    (missing_ids = [] -> full_posts = loaded) /\
    (missing_ids <> [] -> map id full_posts = all_ids).
Proof.
  intros Hps Hans. unfold get_full_topic_json. rewrite Hps. cbv zeta.
  set (missing := filter _ all_ids).
  assert (Hcover : forall pid, In pid all_ids ->
                     In pid (map id loaded) \/ In pid missing).
  { intros pid Hpid.
    destruct (existsb (Z.eqb pid) (map id loaded)) eqn:E.
    - left. apply existsb_exists in E. destruct E as (k & Hk & E).
      apply Z.eqb_eq in E. now subst k.
    - right. apply filter_In. now rewrite E. }
  pose proof (fetch_batches_ids (batches missing) Hans 0 []) as Hids.
  rewrite (batches_concat missing) in Hids. cbn [map app] in Hids.
  destruct (fetch_batches get_batch 0 (batches missing) []) as [|p ps] eqn:E.
  - exists loaded. split.
    + destruct topic_data as [o f]. cbn in Hps. now rewrite Hps.
    + split;
        [|split; [reflexivity | intros Hm; exfalso; apply Hm; now rewrite <- Hids]].
      intros pid Hpid.
      destruct (Hcover pid Hpid) as [H|H]; [exact H|].
      rewrite <- Hids in H. contradiction.
  - eexists. split; [reflexivity|].
    destruct (by_id_spec loaded [] (Forall_nil _)) as [Hk0 Hc0].
    fold (by_id loaded) in Hk0, Hc0.
    destruct (add_missing_spec (p :: ps) (by_id loaded) Hk0) as [Hk Hc].
    assert (Hall : map id (in_stream_order
                             (add_missing (by_id loaded) (p :: ps)) all_ids)
                   = all_ids).
    { apply in_stream_order_ids; [exact Hk|]. intros k Hin. apply Hc.
      destruct (Hcover k Hin) as [H|H].
      - left. apply Hc0. now right.
      - right. now rewrite Hids. }
    split; [intros pid Hpid; now rewrite Hall|].
    split; [|intros _; exact Hall].
    intros Hm. rewrite Hm in Hids. discriminate.
Qed.

End Answered.

Definition two_loaded : list post_json :=
  [{| id := 1; fields := "first" |}; {| id := 2; fields := "second" |}].

Definition long_topic : topic_json :=
  {| post_stream :=
       Some {| stream := Some [1; 2; 3; 4]; posts := Some two_loaded;
               stream_fields := "" |};
     topic_fields := "title" |}.

Definition full_server : nat -> list Z -> res batch_json :=
  fun _ batch_ids =>
    Ok (BatchObject
          (Some (map (fun pid => {| id := pid; fields := "fetched" |})
                   batch_ids)) None).

Lemma full_server_answers : answers_in_full full_server.
Proof.
  intros n batch_ids. eexists. split; [reflexivity|].
  cbn [posts_of]. rewrite map_map. cbn [id]. apply map_id.
Qed.

Lemma download_is_complete_witness :
  exists full_posts,
    get_full_topic_json (Ok long_topic) full_server
    = Some {| post_stream :=
                Some {| stream := Some [1; 2; 3; 4];
                        posts := Some full_posts; stream_fields := "" |};
              topic_fields := topic_fields long_topic |} /\
    (forall pid, In pid [1; 2; 3; 4] -> In pid (map id full_posts)) /\
    let missing_ids :=
      filter (fun pid => negb (existsb (Z.eqb pid) (map id two_loaded)))
        [1; 2; 3; 4] in
    (missing_ids = [] -> full_posts = two_loaded) /\
    (missing_ids <> [] -> map id full_posts = [1; 2; 3; 4]).
Proof.
  apply (download_is_complete full_server long_topic [1; 2; 3; 4] two_loaded
           ""); [reflexivity | exact full_server_answers].
Defined.

Example download_example :
  get_full_topic_json (Ok long_topic) full_server
  = Some {| post_stream :=
              Some {| stream := Some [1; 2; 3; 4];
                      posts :=
                        Some [{| id := 1; fields := "first" |};
                              {| id := 2; fields := "second" |};
                              {| id := 3; fields := "fetched" |};
                              {| id := 4; fields := "fetched" |}];
                      stream_fields := "" |};
            topic_fields := "title" |}.
Proof. reflexivity. Qed.

End DownloaderFacts.
